(** * Mutable object channels: the channel manager and the object provider

    A shallow embedding of
    [src/ray/core_worker/experimental_mutable_object_manager.cc] and of
    [src/ray/core_worker/experimental_mutable_object_provider.cc] (the
    handlers of the inbound calls, and the registration of a writer with the
    poll that it posts), with the properties of the channel protocol proved
    about it.

    The embedding is sequential: one call runs to its end before the next one
    starts.  A call has one of four outcomes: it returns, one of its
    [RAY_CHECK]s is false, it waits for a peer (a semaphore at zero, a mutex
    that is held, a creation latch that another process has to complete), or
    it runs into behaviour that C++ or a library leaves undefined (overflow
    of a signed integer, a copy outside the bounds of a buffer, the release
    of a mutex that the caller does not hold). *)

From Stdlib Require Import ZArith Lia Strings.Byte.
From stdpp Require Import gmap strings list fin_maps sorting.

Local Open Scope Z_scope.

(** ** Outcomes of a call *)

Inductive outcome (A : Type) : Type :=
| Returned (a : A)
| CheckFailed
| Blocks
| Undefined.
Arguments Returned {A} a.
Arguments CheckFailed {A}.
Arguments Blocks {A}.
Arguments Undefined {A}.

#[global] Instance outcome_ret : MRet outcome := λ A a, Returned a.
#[global] Instance outcome_bind : MBind outcome := λ A B f x,
  match x with
  | Returned a => f a
  | CheckFailed => CheckFailed
  | Blocks => Blocks
  | Undefined => Undefined
  end.

(** [RAY_CHECK(cond)], from [ray/util/logging.h]: the call goes on when
    [cond] holds and ends in [CheckFailed] otherwise.  The macro logs the
    failed condition at level FATAL, which aborts the process, in every kind
    of build; it is a statement, also used in functions that return nothing
    or a pointer, and has no way to make the function return a status. *)
Definition RAY_CHECK (cond : bool) : outcome unit :=
  if cond then Returned tt else CheckFailed.

(** ** Status codes *)

Inductive StatusCode : Set :=
| OK
| ObjectNotFound
| Invalid
| InvalidArgument
| IOError
| NotImplemented.

#[global] Instance StatusCode_eq_dec : EqDecision StatusCode.
Proof. solve_decision. Defined.

(** The names the specification gives to the codes. *)
Definition ChannelError : StatusCode := IOError.
Definition NotRegistered : StatusCode := ObjectNotFound.

Definition is_ok (s : StatusCode) : bool := bool_decide (s = OK).

(** [RAY_CHECK_OK(status)] *)
Definition RAY_CHECK_OK (s : StatusCode) : outcome unit := RAY_CHECK (is_ok s).

(** ** Machine integers *)

Definition INT64_MAX : Z := 2 ^ 63 - 1.
Definition INT64_MIN : Z := - 2 ^ 63.

(** The value of an integer expression stored in an [int64_t]. *)
Definition to_int64 (z : Z) : Z := (z + 2 ^ 63) mod 2 ^ 64 - 2 ^ 63.

(** The value of an integer expression stored in a [size_t] or [uint64_t]. *)
Definition to_uint64 (z : Z) : Z := z mod 2 ^ 64.

Definition in_int64 (z : Z) : Prop := INT64_MIN ≤ z ≤ INT64_MAX.

#[global] Instance in_int64_dec (z : Z) : Decision (in_int64 z).
Proof. unfold in_int64. apply _. Defined.

(** [a + b] on [int64_t]: overflow of a signed integer is undefined. *)
Definition int64_add (a b : Z) : outcome Z :=
  if bool_decide (in_int64 (a + b)) then Returned (a + b) else Undefined.

(** ** Named semaphores of the operating system *)

(** A semaphore handle ([sem_t *]) is the index of the semaphore in the
    kernel's table; [sem_unlink] removes a name and leaves the semaphore to
    the processes that hold a handle. *)
Record Kernel : Type := mkKernel {
  sem_names : gmap string nat;
  sem_values : list Z;
}.

Definition empty_kernel : Kernel := mkKernel ∅ [].

Definition sem_unlink (k : Kernel) (name : string) : Kernel :=
  mkKernel (delete name (sem_names k)) (sem_values k).

Definition sem_post (k : Kernel) (sem : nat) : Kernel :=
  match sem_values k !! sem with
  | Some v => mkKernel (sem_names k) (<[sem := v + 1]> (sem_values k))
  | None => k
  end.

Fixpoint sem_post_n (n : nat) (k : Kernel) (sem : nat) : Kernel :=
  match n with
  | O => k
  | S n' => sem_post_n n' (sem_post k sem) sem
  end.

(** [sem_wait]: takes one unit, or waits when there is none.  A handle that
    names no semaphore makes the call fail, which the caller checks. *)
Definition sem_wait (k : Kernel) (sem : nat) : outcome Kernel :=
  match sem_values k !! sem with
  | Some v =>
      if bool_decide (0 < v)
      then Returned (mkKernel (sem_names k) (<[sem := v - 1]> (sem_values k)))
      else Blocks
  | None => CheckFailed
  end.

(** The characters of a name that [sem_open] takes: after the slashes it
    begins with, one character or more, none of which is a slash
    (sem_overview(7)). *)
Definition slash : Ascii.ascii := Ascii.ascii_of_nat 47.

Fixpoint has_slash (name : string) : bool :=
  match name with
  | EmptyString => false
  | String c rest => Ascii.eqb c slash || has_slash rest
  end.

Fixpoint strip_slashes (name : string) : string :=
  match name with
  | EmptyString => name
  | String c rest => if Ascii.eqb c slash then strip_slashes rest else name
  end.

Definition sem_name_valid (name : string) : bool :=
  let name := strip_slashes name in
  negb (String.eqb name "") && negb (has_slash name).

Section Manager.

(** [PSEMNAMLEN], the longest name the platform accepts for a semaphore. *)
Variable PSEMNAMLEN : nat.

(** [sem_open(name, O_CREAT | O_EXCL, 0644, value)]; [None] is [SEM_FAILED],
    which the call returns for a name that is too long ([ENAMETOOLONG]), for
    a name with a slash in it ([EINVAL]) and for a name that is there
    ([EEXIST]). *)
Definition sem_open_create (k : Kernel) (name : string) (value : Z)
  : option nat * Kernel :=
  if bool_decide (PSEMNAMLEN < String.length name)%nat then (None, k)
  else if negb (sem_name_valid name) then (None, k)
  else match sem_names k !! name with
       | Some _ => (None, k)
       | None =>
           let sem := length (sem_values k) in
           (Some sem, mkKernel (<[name := sem]> (sem_names k)) (sem_values k ++ [value]))
       end.

(** Every name in the table of the kernel is one that [sem_open] takes: no
    other name gets into it. *)
Definition kernel_names_valid (k : Kernel) : bool :=
  forallb
    (λ entry, bool_decide (String.length entry.1 ≤ PSEMNAMLEN)%nat
              && sem_name_valid entry.1)
    (map_to_list (sem_names k)).

(** [sem_open(name, 0)]: the semaphore that is in the table under the name.
    Under a name that [sem_open] does not take there is none. *)
Definition sem_open_existing (k : Kernel) (name : string) : option nat * Kernel :=
  (sem_names k !! name, k).

(** ** The object header *)

Inductive SemaphoresCreationLevel : Set :=
| kUnitialized
| kInitializing
| kDone.

#[global] Instance SemaphoresCreationLevel_eq_dec : EqDecision SemaphoresCreationLevel.
Proof. solve_decision. Defined.

(** Modelled from the spec: the type [PlasmaObjectHeader] is declared in
    [ray/object_manager/common.h]; the fields are those of the data model of
    the specification, "Object Header". *)
Record PlasmaObjectHeader : Type := mkHeader {
  unique_name : string;
  semaphores_created : SemaphoresCreationLevel;
  version : Z;
  num_readers : Z;
  num_read_acquires_remaining : Z;
  num_read_releases_remaining : Z;
  data_size : Z;
  metadata_size : Z;
  has_error : bool;
}.

(** [PlasmaObjectHeader::Semaphores] *)
Record Semaphores : Type := mkSemaphores {
  object_sem : nat;
  header_sem : nat;
}.

Definition set_semaphores_created (l : SemaphoresCreationLevel) (h : PlasmaObjectHeader)
  : PlasmaObjectHeader :=
  mkHeader (unique_name h) l (version h) (num_readers h)
    (num_read_acquires_remaining h) (num_read_releases_remaining h)
    (data_size h) (metadata_size h) (has_error h).

Definition set_has_error (h : PlasmaObjectHeader) : PlasmaObjectHeader :=
  mkHeader (unique_name h) (semaphores_created h) (version h) (num_readers h)
    (num_read_acquires_remaining h) (num_read_releases_remaining h)
    (data_size h) (metadata_size h) true.

(** Modelled from the spec: [PlasmaObjectHeader::WriteAcquire] is defined in
    [ray/object_manager/common.cc].  "Acquire [object_sem], then acquire
    [header_sem], write the new [data_size], [metadata_size], and
    [num_readers] into the header, set [num_read_acquires_remaining] and
    [num_read_releases_remaining] to [num_readers], then release
    [header_sem].  Do not touch [version] yet.  Fails with [ChannelError] if
    [has_error] is observed while waiting." *)
Definition header_WriteAcquire (h : PlasmaObjectHeader) (sem : Semaphores) (k : Kernel)
    (write_data_size write_metadata_size write_num_readers : Z)
  : outcome (StatusCode * PlasmaObjectHeader * Kernel) :=
  if has_error h then Returned (ChannelError, h, k)
  else
    k1 ← sem_wait k (object_sem sem);
    k2 ← sem_wait k1 (header_sem sem);
    let h' := mkHeader (unique_name h) (semaphores_created h) (version h)
                write_num_readers write_num_readers write_num_readers
                write_data_size write_metadata_size (has_error h) in
    Returned (OK, h', sem_post k2 (header_sem sem)).

(** Modelled from the spec: [PlasmaObjectHeader::WriteRelease].  "Acquire
    [header_sem], increment [version], release [header_sem], then release
    [object_sem] [num_readers] times."  With [has_error] set, "releases are
    no-ops". *)
Definition header_WriteRelease (h : PlasmaObjectHeader) (sem : Semaphores) (k : Kernel)
  : outcome (StatusCode * PlasmaObjectHeader * Kernel) :=
  if has_error h then Returned (OK, h, k)
  else
    k1 ← sem_wait k (header_sem sem);
    let h' := mkHeader (unique_name h) (semaphores_created h) (to_int64 (version h + 1))
                (num_readers h) (num_read_acquires_remaining h)
                (num_read_releases_remaining h)
                (data_size h) (metadata_size h) (has_error h) in
    let k2 := sem_post k1 (header_sem sem) in
    Returned (OK, h', sem_post_n (Z.to_nat (num_readers h)) k2 (object_sem sem)).

(** Modelled from the spec: [PlasmaObjectHeader::ReadAcquire].  "Wait
    (semaphore-wait on [object_sem]) until a version ≥
    [requested_min_version] is visible and [num_read_acquires_remaining > 0].
    Under [header_sem]: if [version < requested_min_version] go back to
    waiting; else decrement [num_read_acquires_remaining] and set
    [out_version_read = version].  Readers observing [has_error] return
    [ChannelError]."  A reader that goes back to waiting is not woken up
    before a peer acts, so the call is [Blocks] here.  The last component of
    the result is [version_read]; it stays 0 when the call fails. *)
Definition header_ReadAcquire (h : PlasmaObjectHeader) (sem : Semaphores) (k : Kernel)
    (version_to_read : Z)
  : outcome (StatusCode * PlasmaObjectHeader * Kernel * Z) :=
  if has_error h then Returned (ChannelError, h, k, 0)
  else
    k1 ← sem_wait k (object_sem sem);
    k2 ← sem_wait k1 (header_sem sem);
    if bool_decide (version h < version_to_read)
       || bool_decide (num_read_acquires_remaining h ≤ 0)
    then Blocks
    else
      let h' := mkHeader (unique_name h) (semaphores_created h) (version h)
                  (num_readers h) (num_read_acquires_remaining h - 1)
                  (num_read_releases_remaining h)
                  (data_size h) (metadata_size h) (has_error h) in
      Returned (OK, h', sem_post k2 (header_sem sem), version h).

(** Modelled from the spec: [PlasmaObjectHeader::ReadRelease].  "Under
    [header_sem], decrement [num_read_releases_remaining].  If it reaches 0,
    post [object_sem] once."  With [has_error] set, "releases are no-ops". *)
Definition header_ReadRelease (h : PlasmaObjectHeader) (sem : Semaphores) (k : Kernel)
    (read_version : Z)
  : outcome (StatusCode * PlasmaObjectHeader * Kernel) :=
  if has_error h then Returned (OK, h, k)
  else
    k1 ← sem_wait k (header_sem sem);
    let remaining := num_read_releases_remaining h - 1 in
    let h' := mkHeader (unique_name h) (semaphores_created h) (version h)
                (num_readers h) (num_read_acquires_remaining h) remaining
                (data_size h) (metadata_size h) (has_error h) in
    let k2 := sem_post k1 (header_sem sem) in
    Returned (OK, h', if bool_decide (remaining = 0) then sem_post k2 (object_sem sem) else k2).

(** Modelled from the spec: [PlasmaObjectHeader::SetErrorUnlocked].  "Sets
    [has_error = true] under [header_sem], then posts [object_sem] enough
    times to release any blocked peer.  Idempotent."  The peers of a version
    are its declared readers and the writer. *)
Definition header_SetErrorUnlocked (h : PlasmaObjectHeader) (sem : Semaphores) (k : Kernel)
  : outcome (PlasmaObjectHeader * Kernel) :=
  if has_error h then Returned (h, k)
  else
    k1 ← sem_wait k (header_sem sem);
    let k2 := sem_post k1 (header_sem sem) in
    Returned (set_has_error h, sem_post_n (S (Z.to_nat (num_readers h))) k2 (object_sem sem)).

(** ** Shared-memory buffers *)

(** [memcpy(dst + off, src, n)] on the contents of a buffer; [n] is a
    [size_t].  A copy that leaves the destination or the source is
    undefined. *)
Definition memcpy (dst : list byte) (off : Z) (src : list byte) (n : Z)
  : outcome (list byte) :=
  if bool_decide (0 ≤ off ∧ 0 ≤ n ∧ off + n ≤ Z.of_nat (length dst)
                  ∧ n ≤ Z.of_nat (length src))
  then Returned (take (Z.to_nat off) dst ++ take (Z.to_nat n) src
                 ++ drop (Z.to_nat (off + n)) dst)
  else Undefined.

(** [SharedMemoryBuffer::Slice(buffer, offset, size)]: a view of a buffer. *)
Record Slice : Type := mkSlice {
  slice_offset : Z;
  slice_size : Z;
}.

(** The bytes a view shows. *)
Definition slice_bytes (buffer : list byte) (s : Slice) : list byte :=
  take (Z.to_nat (slice_size s)) (drop (Z.to_nat (slice_offset s)) buffer).

(** [RayObject(data, metadata, {})] *)
Record RayObject : Type := mkRayObject {
  GetData : Slice;
  GetMetadata : Slice;
}.

(** Modelled from the spec: the type [plasma::MutableObject] is declared in
    [ray/object_manager/plasma]; "[buffer]: contiguous byte region of
    capacity [allocated_size]; [header]: pointer into shared memory to an
    Object Header; [allocated_size]".  Every object has a shared segment of
    its own, so the header and the bytes are kept with the object. *)
Record MutableObject : Type := mkMutableObject {
  buffer : list byte;
  header : PlasmaObjectHeader;
  allocated_size : Z;
}.

(** Modelled from the spec: the type [MutableObjectManager::Channel] is
    declared in [experimental_mutable_object_manager.h]; the fields are those
    of the data model, "Channel".  [lock] is the reader mutex: [true] when it
    is held. *)
Record Channel : Type := mkChannel {
  lock : bool;
  mutable_object : MutableObject;
  reader_registered : bool;
  writer_registered : bool;
  written : bool;
  next_version_to_read : Z;
}.

(** Modelled from the spec: the constructor [Channel(mutable_object)];
    "[next_version_to_read]: 64-bit, starts at 1", nothing registered,
    nothing written, the mutex free. *)
Definition new_Channel (mutable_object : MutableObject) : Channel :=
  mkChannel false mutable_object false false false 1.

Definition set_lock (b : bool) (c : Channel) : Channel :=
  mkChannel b (mutable_object c) (reader_registered c) (writer_registered c)
    (written c) (next_version_to_read c).

Definition set_mutable_object (o : MutableObject) (c : Channel) : Channel :=
  mkChannel (lock c) o (reader_registered c) (writer_registered c)
    (written c) (next_version_to_read c).

Definition set_reader_registered (b : bool) (c : Channel) : Channel :=
  mkChannel (lock c) (mutable_object c) b (writer_registered c)
    (written c) (next_version_to_read c).

Definition set_writer_registered (b : bool) (c : Channel) : Channel :=
  mkChannel (lock c) (mutable_object c) (reader_registered c) b
    (written c) (next_version_to_read c).

Definition set_written (b : bool) (c : Channel) : Channel :=
  mkChannel (lock c) (mutable_object c) (reader_registered c) (writer_registered c)
    b (next_version_to_read c).

Definition set_next_version_to_read (v : Z) (c : Channel) : Channel :=
  mkChannel (lock c) (mutable_object c) (reader_registered c) (writer_registered c)
    (written c) v.

Definition set_header (h : PlasmaObjectHeader) (c : Channel) : Channel :=
  set_mutable_object
    (mkMutableObject (buffer (mutable_object c)) h (allocated_size (mutable_object c))) c.

Definition set_buffer (b : list byte) (c : Channel) : Channel :=
  set_mutable_object
    (mkMutableObject b (header (mutable_object c)) (allocated_size (mutable_object c))) c.

(** ** The channel manager *)

(** The two maps of [MutableObjectManager], and the semaphores of the
    operating system its calls act on.  [channel_lock_] is taken and given
    back inside a call, so it is free between calls. *)
Record MutableObjectManager : Type := mkManager {
  channels_ : gmap N Channel;
  semaphores_ : gmap N Semaphores;
  os : Kernel;
}.

Definition empty_manager : MutableObjectManager := mkManager ∅ ∅ empty_kernel.

Definition set_channel (object_id : N) (c : Channel) (m : MutableObjectManager)
  : MutableObjectManager :=
  mkManager (<[object_id := c]> (channels_ m)) (semaphores_ m) (os m).

Definition set_os (k : Kernel) (m : MutableObjectManager) : MutableObjectManager :=
  mkManager (channels_ m) (semaphores_ m) k.

Definition GetSemaphoreObjectName (name : string) : outcome string :=
  let ret := "obj" +:+ name in
  _ ← RAY_CHECK (bool_decide (String.length name ≤ PSEMNAMLEN)%nat);
  Returned ret.

Definition GetSemaphoreHeaderName (name : string) : outcome string :=
  let ret := "hdr" +:+ name in
  _ ← RAY_CHECK (bool_decide (String.length name ≤ PSEMNAMLEN)%nat);
  Returned ret.

Definition GetChannel (m : MutableObjectManager) (object_id : N) : option Channel :=
  channels_ m !! object_id.

Definition GetSemaphoreName (header : PlasmaObjectHeader) : outcome string :=
  let name := unique_name header in
  _ ← RAY_CHECK (bool_decide (String.length name ≤ PSEMNAMLEN)%nat);
  Returned name.

Definition GetSemaphores (m : MutableObjectManager) (object_id : N) : outcome Semaphores :=
  match semaphores_ m !! object_id with
  | Some sem => Returned sem
  | None => CheckFailed
  end.

(** [OpenSemaphores(object_id, header)].  The header is the one of the
    channel that is being registered; the result has the header as the call
    leaves it.  The compare-and-swap of a process that runs alone succeeds;
    a process that finds the latch at [kInitializing] spins until a peer
    stores [kDone]. *)
Definition OpenSemaphores (m : MutableObjectManager) (object_id : N)
    (header : PlasmaObjectHeader)
  : outcome (MutableObjectManager * PlasmaObjectHeader) :=
  if bool_decide (is_Some (semaphores_ m !! object_id)) then Returned (m, header)
  else
    let level := semaphores_created header in
    let create := bool_decide (level = kUnitialized) in
    let header := if create then set_semaphores_created kInitializing header else header in
    name ← GetSemaphoreName header;
    '(object_sem, header_sem, header, k) ←
      (if create then
         hdr_name ← GetSemaphoreHeaderName name;
         let k := sem_unlink (os m) hdr_name in
         obj_name ← GetSemaphoreObjectName name;
         let k := sem_unlink k obj_name in
         obj_name ← GetSemaphoreObjectName name;
         let '(object_sem, k) := sem_open_create k obj_name 1 in
         hdr_name ← GetSemaphoreHeaderName name;
         let '(header_sem, k) := sem_open_create k hdr_name 1 in
         Returned (object_sem, header_sem, set_semaphores_created kDone header, k)
       else if bool_decide (semaphores_created header = kDone) then
         obj_name ← GetSemaphoreObjectName name;
         let '(object_sem, k) := sem_open_existing (os m) obj_name in
         hdr_name ← GetSemaphoreHeaderName name;
         let '(header_sem, k) := sem_open_existing k hdr_name in
         Returned (object_sem, header_sem, header, k)
       else Blocks);
    match object_sem, header_sem with
    | Some object_sem, Some header_sem =>
        Returned (mkManager (channels_ m)
                    (<[object_id := mkSemaphores object_sem header_sem]> (semaphores_ m)) k,
                  header)
    | _, _ => CheckFailed
    end.

(** [RegisterChannel(object_id, mutable_object, reader)]; the unique pointer
    [mutable_object] may be null. *)
Definition RegisterChannel (m : MutableObjectManager) (object_id : N)
    (mutable_object_arg : option MutableObject) (reader : bool)
  : outcome (StatusCode * MutableObjectManager) :=
  let '(channel, success) :=
    match channels_ m !! object_id with
    | Some channel => (Some channel, false)
    | None => (new_Channel <$> mutable_object_arg, true)
    end in
  match channel with
  | None => CheckFailed
  | Some channel =>
      if negb success
         && ((reader && reader_registered channel)
             || (negb reader && writer_registered channel))
      then Returned (Invalid, m)
      else
        let channel :=
          if reader then set_reader_registered true channel
          else set_writer_registered true channel in
        '(m, header) ← OpenSemaphores m object_id (header (mutable_object channel));
        Returned (OK, set_channel object_id (set_header header channel) m)
  end.

(** [WriteAcquire(object_id, data_size, metadata, metadata_size, num_readers,
    data)]; the second component of the result is what the call stores in
    [data], if it stores anything. *)
Definition WriteAcquire (m : MutableObjectManager) (object_id : N) (data_size : Z)
    (metadata : option (list byte)) (metadata_size num_readers : Z)
  : outcome (StatusCode * option Slice * MutableObjectManager) :=
  match GetChannel m object_id with
  | None => Returned (ObjectNotFound, None, m)
  | Some channel =>
      _ ← RAY_CHECK (writer_registered channel);
      _ ← RAY_CHECK (negb (written channel));
      let object := mutable_object channel in
      total_size ← int64_add data_size metadata_size;
      if bool_decide (allocated_size object < total_size)
      then Returned (InvalidArgument, None, m)
      else
        sem ← GetSemaphores m object_id;
        '(status, header, k) ←
          header_WriteAcquire (header object) sem (os m) data_size metadata_size num_readers;
        let channel := set_header header channel in
        if negb (is_ok status)
        then Returned (status, None, set_channel object_id channel (set_os k m))
        else
          let data := mkSlice 0 data_size in
          channel ←
            match metadata with
            | Some metadata =>
                bytes ← memcpy (buffer object) (slice_offset data + data_size)
                          metadata (to_uint64 metadata_size);
                Returned (set_buffer bytes channel)
            | None => Returned channel
            end;
          let channel := set_written true channel in
          Returned (OK, Some data, set_channel object_id channel (set_os k m))
  end.

(** [WriteRelease(object_id)] *)
Definition WriteRelease (m : MutableObjectManager) (object_id : N)
  : outcome (StatusCode * MutableObjectManager) :=
  match GetChannel m object_id with
  | None => Returned (ObjectNotFound, m)
  | Some channel =>
      _ ← RAY_CHECK (writer_registered channel);
      _ ← RAY_CHECK (written channel);
      sem ← GetSemaphores m object_id;
      '(status, header, k) ←
        header_WriteRelease (header (mutable_object channel)) sem (os m);
      let channel := set_header header channel in
      if negb (is_ok status)
      then Returned (status, set_channel object_id channel (set_os k m))
      else
        let channel := set_written false channel in
        Returned (OK, set_channel object_id channel (set_os k m))
  end.

(** [ReadAcquire(object_id, result)]; the second component of the result is
    what the call stores in [result], if it stores anything. *)
Definition ReadAcquire (m : MutableObjectManager) (object_id : N)
  : outcome (StatusCode * option RayObject * MutableObjectManager) :=
  match GetChannel m object_id with
  | None => Returned (ObjectNotFound, None, m)
  | Some channel =>
      _ ← RAY_CHECK (reader_registered channel);
      (* channel->lock->Lock() *)
      if lock channel then Blocks
      else
        let channel := set_lock true channel in
        sem ← GetSemaphores m object_id;
        '(status, header, k, version_read) ←
          header_ReadAcquire (header (mutable_object channel)) sem (os m)
            (next_version_to_read channel);
        let channel := set_header header channel in
        if negb (is_ok status)
        then Returned (status, None, set_channel object_id channel (set_os k m))
        else
          _ ← RAY_CHECK (bool_decide (0 < version_read));
          let channel := set_next_version_to_read version_read channel in
          let total_size := to_uint64 (data_size header + metadata_size header) in
          _ ← RAY_CHECK (bool_decide
                 (to_int64 total_size ≤ allocated_size (mutable_object channel)));
          let data_buf := mkSlice 0 (data_size header) in
          let metadata_buf := mkSlice (data_size header) (metadata_size header) in
          Returned (OK, Some (mkRayObject data_buf metadata_buf),
                    set_channel object_id channel (set_os k m))
  end.

(** [ReadRelease(object_id)].  The call does not look at whether the reader
    mutex is held before it calls [Unlock].  [absl::Mutex::Unlock] requires
    that the caller holds the mutex; on a free mutex the call is outside that
    contract (the library stops the process where it finds out). *)
Definition ReadRelease (m : MutableObjectManager) (object_id : N)
  : outcome (StatusCode * MutableObjectManager) :=
  match GetChannel m object_id with
  | None => Returned (ObjectNotFound, m)
  | Some channel =>
      _ ← RAY_CHECK (reader_registered channel);
      sem ← GetSemaphores m object_id;
      '(status, header, k) ←
        header_ReadRelease (header (mutable_object channel)) sem (os m)
          (next_version_to_read channel);
      let channel := set_header header channel in
      if negb (is_ok status)
      then Returned (status, set_channel object_id channel (set_os k m))
      else
        next_version ← int64_add (next_version_to_read channel) 1;
        let channel := set_next_version_to_read next_version channel in
        (* channel->lock->Unlock() *)
        if lock channel
        then
          let channel := set_lock false channel in
          Returned (OK, set_channel object_id channel (set_os k m))
        else Undefined
  end.

(** [SetError(object_id)] *)
Definition SetError (m : MutableObjectManager) (object_id : N)
  : outcome (StatusCode * MutableObjectManager) :=
  let channel := GetChannel m object_id in
  sem ← GetSemaphores m object_id;
  match channel with
  | Some channel =>
      '(header, k) ← header_SetErrorUnlocked (header (mutable_object channel)) sem (os m);
      let channel := set_header header channel in
      let channel := set_reader_registered false channel in
      let channel := set_writer_registered false channel in
      Returned (OK, set_channel object_id channel (set_os k m))
  | None => Returned (ObjectNotFound, m)
  end.

(** The loop of [SetError()] over the entries of [channels_]. *)
Fixpoint SetError_loop (object_ids : list N) (m : MutableObjectManager)
  : outcome (StatusCode * MutableObjectManager) :=
  match object_ids with
  | [] => Returned (OK, m)
  | object_id :: rest =>
      '(ret, m) ← SetError m object_id;
      if negb (is_ok ret) then Returned (ret, m) else SetError_loop rest m
  end.

(** [SetError()] *)
Definition SetErrorAll (m : MutableObjectManager)
  : outcome (StatusCode * MutableObjectManager) :=
  SetError_loop (map_to_list (channels_ m)).*1 m.

(** ** The object provider: inbound calls *)

Record LocalInfo : Type := mkLocalInfo {
  info_num_readers : Z;
  local_object_id : N;
}.

(** [rpc::PushMutableObjectRequest]; the sizes are unsigned 64-bit fields. *)
Record PushMutableObjectRequest : Type := mkPushRequest {
  req_object_id : N;
  req_data_size : Z;
  req_metadata_size : Z;
  req_data : list byte;
}.

(** The provider: the allocator [plasma_] as the objects it hands out, the
    channel manager and the cross-node map. *)
Record MutableObjectProvider : Type := mkProvider {
  plasma_ : gmap N MutableObject;
  object_manager_ : MutableObjectManager;
  cross_node_map_ : gmap N LocalInfo;
}.

Definition set_object_manager (m : MutableObjectManager) (p : MutableObjectProvider)
  : MutableObjectProvider :=
  mkProvider (plasma_ p) m (cross_node_map_ p).

(** Modelled from the spec: [PlasmaClientInterface::GetExperimentalMutableObject]
    is the allocator interface, "[GetExperimentalMutableObject(ObjectID) →
    MutableObject] returns buffer pointer, capacity, and header pointer into
    shared memory"; an object the allocator does not know gives a status
    that is not OK and no object. *)
Definition GetExperimentalMutableObject (p : MutableObjectProvider) (object_id : N)
  : StatusCode * option MutableObject :=
  match plasma_ p !! object_id with
  | Some object => (OK, Some object)
  | None => (ObjectNotFound, None)
  end.

(** [RegisterReaderChannel(object_id)] *)
Definition RegisterReaderChannel (p : MutableObjectProvider) (object_id : N)
  : outcome MutableObjectProvider :=
  let '(status, object) := GetExperimentalMutableObject p object_id in
  _ ← RAY_CHECK_OK status;
  '(status, m) ← RegisterChannel (object_manager_ p) object_id object true;
  _ ← RAY_CHECK_OK status;
  Returned (set_object_manager m p).

(** [HandleRegisterMutableObject(object_id, num_readers, local_object_id)] *)
Definition HandleRegisterMutableObject (p : MutableObjectProvider) (object_id : N)
    (num_readers : Z) (local_object_id : N)
  : outcome MutableObjectProvider :=
  let info := mkLocalInfo num_readers local_object_id in
  let success := bool_decide (cross_node_map_ p !! object_id = None) in
  _ ← RAY_CHECK success;
  let p := mkProvider (plasma_ p) (object_manager_ p)
             (<[object_id := info]> (cross_node_map_ p)) in
  RegisterReaderChannel p local_object_id.

(** The caller of [WriteAcquire] writing [n] bytes of [src] at the start of
    the view it was given: [memcpy(data->Data(), src, n)]. *)
Definition write_slice (m : MutableObjectManager) (object_id : N) (data : Slice)
    (src : list byte) (n : Z) : outcome MutableObjectManager :=
  match channels_ m !! object_id with
  | Some channel =>
      bytes ← memcpy (buffer (mutable_object channel)) (slice_offset data) src n;
      Returned (set_channel object_id (set_buffer bytes channel) m)
  | None => Undefined
  end.

(** What can be read at [request.data().data()]: the bytes of the
    [std::string] and the null character that ends it. *)
Definition string_data (bytes : list byte) : list byte := bytes ++ [x00].

(** [HandlePushMutableObject(request, reply)] *)
Definition HandlePushMutableObject (p : MutableObjectProvider)
    (request : PushMutableObjectRequest)
  : outcome MutableObjectProvider :=
  match cross_node_map_ p !! req_object_id request with
  | None => CheckFailed
  | Some info =>
      let data_size := to_uint64 (req_data_size request) in
      let metadata_size := to_uint64 (req_metadata_size request) in
      let metadata_ptr :=
        drop (Z.to_nat (req_data_size request)) (string_data (req_data request)) in
      '(status, data, m) ←
        WriteAcquire (object_manager_ p) (local_object_id info)
          (to_int64 data_size) (Some metadata_ptr) (to_int64 metadata_size)
          (info_num_readers info);
      _ ← RAY_CHECK_OK status;
      match data with
      | None => CheckFailed
      | Some data =>
          let total_size := to_uint64 (data_size + metadata_size) in
          m ← write_slice m (local_object_id info) data
                (string_data (req_data request)) total_size;
          '(status, m) ← WriteRelease m (local_object_id info);
          _ ← RAY_CHECK_OK status;
          Returned (set_object_manager m p)
      end
  end.

(** ** The channel manager: the end of its life *)

(** [GetHeader(object_id)] *)
Definition GetHeader (m : MutableObjectManager) (object_id : N)
  : outcome PlasmaObjectHeader :=
  match GetChannel m object_id with
  | Some channel => Returned (header (mutable_object channel))
  | None => CheckFailed
  end.

(** What [sem_close(sem)] returns: 0 for a handle that [sem_open] gave. *)
Definition sem_close_result (k : Kernel) (sem : nat) : Z :=
  if bool_decide (sem < length (sem_values k))%nat then 0 else -1.

(** What [sem_unlink(name)] returns: 0 when the name is there to remove. *)
Definition sem_unlink_result (k : Kernel) (name : string) : Z :=
  if bool_decide (is_Some (sem_names k !! name)) then 0 else -1.

(** [DestroySemaphores(object_id)] *)
Definition DestroySemaphores (m : MutableObjectManager) (object_id : N)
  : outcome MutableObjectManager :=
  semaphores ← GetSemaphores m object_id;
  _ ← RAY_CHECK (bool_decide (sem_close_result (os m) (header_sem semaphores) = 0));
  _ ← RAY_CHECK (bool_decide (sem_close_result (os m) (object_sem semaphores) = 0));
  header ← GetHeader m object_id;
  name ← GetSemaphoreName header;
  hdr_name ← GetSemaphoreHeaderName name;
  _ ← RAY_CHECK (bool_decide (sem_unlink_result (os m) hdr_name = 0));
  let k := sem_unlink (os m) hdr_name in
  obj_name ← GetSemaphoreObjectName name;
  _ ← RAY_CHECK (bool_decide (sem_unlink_result k obj_name = 0));
  let k := sem_unlink k obj_name in
  Returned (mkManager (channels_ m) (delete object_id (semaphores_ m)) k).

(** The loop of the destructor over the copy [tmp] of [semaphores_]; the
    status of [SetError] is dropped. *)
Fixpoint destructor_loop (object_ids : list N) (m : MutableObjectManager)
  : outcome MutableObjectManager :=
  match object_ids with
  | [] => Returned m
  | object_id :: rest =>
      '(_, m) ← SetError m object_id;
      m ← DestroySemaphores m object_id;
      destructor_loop rest m
  end.

(** [~MutableObjectManager()] *)
Definition destructor (m : MutableObjectManager) : outcome MutableObjectManager :=
  destructor_loop (map_to_list (semaphores_ m)).*1 m.

(** ** The object provider: outbound calls *)

(** The closure that [RegisterWriterChannel] posts to the I/O service:
    [PollWriterClosure(object_id, reader)]. *)
Record PostedPoll : Type := mkPostedPoll {
  poll_object_id : N;
  poll_reader : N;
}.

(** The call [reader->PushMutableObject(object_id, data_size, metadata_size,
    data, callback)] that a poll makes. *)
Record PushCall : Type := mkPushCall {
  push_reader : N;
  push_object_id : N;
  push_data_size : Z;
  push_metadata_size : Z;
  push_data : Slice;
}.

(** [RegisterWriterChannel(object_id, node_id)].  [raylet_client_factory] is
    the member [raylet_client_factory_] of the provider, which gives the
    reader of a node or a null pointer; the result has the closure that the
    call posts. *)
Definition RegisterWriterChannel (raylet_client_factory : N → option N)
    (p : MutableObjectProvider) (object_id : N) (node_id : N)
  : outcome (MutableObjectProvider * PostedPoll) :=
  let '(status, object) := GetExperimentalMutableObject p object_id in
  _ ← RAY_CHECK_OK status;
  '(status, m) ← RegisterChannel (object_manager_ p) object_id object false;
  _ ← RAY_CHECK_OK status;
  match raylet_client_factory node_id with
  | None => CheckFailed
  | Some reader =>
      Returned (set_object_manager m p, mkPostedPoll object_id reader)
  end.

(** [PollWriterClosure(object_id, reader)] up to the call of
    [PushMutableObject]: no call when [ReadAcquire] returned [IOError]. *)
Definition PollWriterClosure (m : MutableObjectManager) (poll : PostedPoll)
  : outcome (option PushCall * MutableObjectManager) :=
  '(status, object, m) ← ReadAcquire m (poll_object_id poll);
  if bool_decide (status = IOError) then Returned (None, m)
  else
    _ ← RAY_CHECK (bool_decide (status = OK));
    match object with
    | None => Undefined
    | Some object =>
        Returned (Some (mkPushCall (poll_reader poll) (poll_object_id poll)
                          (slice_size (GetData object))
                          (slice_size (GetMetadata object))
                          (GetData object)),
                  m)
    end.

(** The callback of [PushMutableObject] in [PollWriterClosure], up to the
    next [PollWriterClosure]. *)
Definition PollWriterReply (m : MutableObjectManager) (poll : PostedPoll)
  : outcome MutableObjectManager :=
  '(status, m) ← ReadRelease m (poll_object_id poll);
  _ ← RAY_CHECK_OK status;
  Returned m.

(** ** Runs of the channel manager *)

(** A call of one of the operations of the manager. *)
Inductive Call : Type :=
| CallRegisterChannel (object_id : N) (mutable_object : option MutableObject)
    (reader : bool)
| CallWriteAcquire (object_id : N) (data_size : Z) (metadata : option (list byte))
    (metadata_size num_readers : Z)
| CallWriteRelease (object_id : N)
| CallReadAcquire (object_id : N)
| CallReadRelease (object_id : N)
| CallSetError (object_id : N)
| CallSetErrorAll.

(** The status a call returns and the state it leaves. *)
Definition call (m : MutableObjectManager) (c : Call)
  : outcome (StatusCode * MutableObjectManager) :=
  match c with
  | CallRegisterChannel object_id mutable_object reader =>
      RegisterChannel m object_id mutable_object reader
  | CallWriteAcquire object_id data_size metadata metadata_size num_readers =>
      '(status, _, m) ← WriteAcquire m object_id data_size metadata metadata_size num_readers;
      Returned (status, m)
  | CallWriteRelease object_id => WriteRelease m object_id
  | CallReadAcquire object_id =>
      '(status, _, m) ← ReadAcquire m object_id;
      Returned (status, m)
  | CallReadRelease object_id => ReadRelease m object_id
  | CallSetError object_id => SetError m object_id
  | CallSetErrorAll => SetErrorAll m
  end.

(** A run of one process: its calls one after the other, whatever status
    each returns.  The run ends with the first call that does not return.
    What peers in other processes do to a shared header is not part of a
    run. *)
Fixpoint run (calls : list Call) (m : MutableObjectManager)
  : outcome MutableObjectManager :=
  match calls with
  | [] => Returned m
  | c :: rest => '(_, m) ← call m c; run rest m
  end.

(** [next_version_to_read] of a channel, 0 when there is no channel. *)
Definition version_of (m : MutableObjectManager) (object_id : N) : Z :=
  match GetChannel m object_id with
  | Some channel => next_version_to_read channel
  | None => 0
  end.

(** The values that [next_version_to_read] of the channel has after the
    successful calls of [ReadAcquire(object_id)] of a run, in the order of
    the calls: what each of these calls stored as the version it read. *)
Fixpoint versions_read (object_id : N) (calls : list Call) (m : MutableObjectManager)
  : outcome (list Z) :=
  match calls with
  | [] => Returned []
  | c :: rest =>
      '(status, m) ← call m c;
      versions ← versions_read object_id rest m;
      Returned
        (match c with
         | CallReadAcquire id =>
             if bool_decide (id = object_id) && is_ok status
             then version_of m object_id :: versions
             else versions
         | _ => versions
         end)
  end.

(** The [version_read] that [ReadAcquire] of the header hands to
    [ReadAcquire(object_id)] called in the state [m]: the third argument of
    [header->ReadAcquire(sem, channel->next_version_to_read, version_read)],
    when that call returns OK. *)
Definition header_version_read (m : MutableObjectManager) (object_id : N) : option Z :=
  match GetChannel m object_id, semaphores_ m !! object_id with
  | Some channel, Some sem =>
      match header_ReadAcquire (header (mutable_object channel)) sem (os m)
              (next_version_to_read channel) with
      | Returned (OK, _, _, version_read) => Some version_read
      | _ => None
      end
  | _, _ => None
  end.

(** The versions that the header hands to the successful calls of
    [ReadAcquire(object_id)] of a run, in the order of the calls. *)
Fixpoint versions_handed_out (object_id : N) (calls : list Call)
    (m : MutableObjectManager) : outcome (list Z) :=
  match calls with
  | [] => Returned []
  | c :: rest =>
      '(status, m') ← call m c;
      versions ← versions_handed_out object_id rest m';
      Returned
        (match c with
         | CallReadAcquire id =>
             if bool_decide (id = object_id) && is_ok status
             then match header_version_read m object_id with
                  | Some version_read => version_read :: versions
                  | None => versions
                  end
             else versions
         | _ => versions
         end)
  end.

End Manager.

(** ** Properties of states *)

(** The flag of a role: [reader_registered] or [writer_registered]. *)
Definition registered (reader : bool) (c : Channel) : bool :=
  if reader then reader_registered c else writer_registered c.

Definition set_registered (reader : bool) (b : bool) (c : Channel) : Channel :=
  if reader then set_reader_registered b c else set_writer_registered b c.

(** A semaphore that a [sem_wait] can take at once. *)
Definition sem_available (k : Kernel) (sem : nat) : Prop :=
  ∃ v, sem_values k !! sem = Some v ∧ 0 < v.

(** The two maps of the manager have the same keys. *)
Definition maps_agree (m : MutableObjectManager) : Prop :=
  dom (channels_ m) = dom (semaphores_ m).

(** The header of the channel of [object_id] has its error flag set, and the
    semaphores of the channel are open. *)
Definition in_error (m : MutableObjectManager) (object_id : N) : Prop :=
  ∃ channel sem,
    GetChannel m object_id = Some channel
    ∧ semaphores_ m !! object_id = Some sem
    ∧ has_error (header (mutable_object channel)) = true.

(** A channel keeps the error flag of its header. *)
Definition error_kept (c c' : Channel) : Prop :=
  has_error (header (mutable_object c)) = true →
  has_error (header (mutable_object c')) = true.

(** A channel keeps what its readers see of it: the reader mutex and
    [next_version_to_read]. *)
Definition reader_kept (c c' : Channel) : Prop :=
  lock c' = lock c ∧ next_version_to_read c' = next_version_to_read c.

(** A call on [object_id] left the state as it was, or replaced the channel
    of [object_id] by one that is in relation [R] with it and acted on the
    semaphores of the operating system. *)
Definition keeps (R : Channel → Channel → Prop) (object_id : N)
    (m m' : MutableObjectManager) : Prop :=
  m' = m
  ∨ ∃ channel channel' k,
      GetChannel m object_id = Some channel
      ∧ R channel channel'
      ∧ m' = set_channel object_id channel' (set_os k m).

(** From [m] to [m'] no channel and no semaphore pair was dropped, and no
    error flag was cleared. *)
Definition evolves (m m' : MutableObjectManager) : Prop :=
  ∀ object_id,
    (∀ sem, semaphores_ m !! object_id = Some sem →
            semaphores_ m' !! object_id = Some sem)
    ∧ (∀ channel, GetChannel m object_id = Some channel →
         ∃ channel', GetChannel m' object_id = Some channel'
                     ∧ error_kept channel channel').

(** From [c] to [c'], [next_version_to_read] did not go down, and it went
    up if the reader mutex was given back. *)
Definition reader_advances (c c' : Channel) : Prop :=
  next_version_to_read c ≤ next_version_to_read c'
  ∧ (lock c' = false →
     lock c = false ∨ next_version_to_read c < next_version_to_read c').

(** Every version that the channel of [object_id] can still read is above
    [bound]: [next_version_to_read] is at least [bound], and above it when
    the reader mutex is free. *)
Definition reads_above (bound : Z) (m : MutableObjectManager) (object_id : N) : Prop :=
  match GetChannel m object_id with
  | Some c =>
      bound ≤ next_version_to_read c
      ∧ (lock c = false → bound < next_version_to_read c)
  | None => bound < 1
  end.

(** What a reader gets to see of a channel: the bytes of the buffer and the
    two sizes in the header. *)
Definition payload (c : Channel) : list byte * Z * Z :=
  (buffer (mutable_object c),
   data_size (header (mutable_object c)),
   metadata_size (header (mutable_object c))).

(** A channel after [SetError]: the error flag of its header is set and no
    role is registered. *)
Definition closed (c : Channel) : Prop :=
  has_error (header (mutable_object c)) = true
  ∧ reader_registered c = false
  ∧ writer_registered c = false.

(** The header semaphore of every pair in [semaphores_] can be taken. *)
Definition header_sems_free (m : MutableObjectManager) : Prop :=
  ∀ object_id sem,
    semaphores_ m !! object_id = Some sem → sem_available (os m) (header_sem sem).

(** The object a call is about; [SetError()] is about all of them. *)
Definition call_object (c : Call) : option N :=
  match c with
  | CallRegisterChannel object_id _ _
  | CallWriteAcquire object_id _ _ _ _
  | CallWriteRelease object_id
  | CallReadAcquire object_id
  | CallReadRelease object_id
  | CallSetError object_id => Some object_id
  | CallSetErrorAll => None
  end.

(** [next_version_to_read] of the channel of [object_id] is at least [bound];
    a channel that is not there yet will start at 1. *)
Definition version_at_least (bound : Z) (m : MutableObjectManager) (object_id : N) : Prop :=
  match GetChannel m object_id with
  | Some c => bound ≤ next_version_to_read c
  | None => bound ≤ 1
  end.

(** ** Example data *)

(** An object as the allocator hands it out: [capacity] zero bytes and a
    header on which nothing has happened yet. *)
Definition fresh_object (name : string) (capacity : nat) : MutableObject :=
  mkMutableObject (replicate capacity x00)
    (mkHeader name kUnitialized 0 0 0 0 0 0 false) (Z.of_nat capacity).

(** The state a run from the empty manager ends in, on a platform whose
    [PSEMNAMLEN] is 31. *)
Definition state_after (calls : list Call) : MutableObjectManager :=
  match run 31 calls empty_manager with
  | Returned m => m
  | _ => empty_manager
  end.

(** Object 7, with 64 bytes, registered by its writer and by a reader. *)
Definition register_writer : Call :=
  CallRegisterChannel 7 (Some (fresh_object "chan" 64)) false.
Definition register_reader : Call :=
  CallRegisterChannel 7 (Some (fresh_object "chan" 64)) true.

(** One version handed from the writer to one reader. *)
Definition one_version : list Call :=
  [CallWriteAcquire 7 4 None 2 1; CallWriteRelease 7;
   CallReadAcquire 7; CallReadRelease 7].

(** An object that a reader joins late: a writer in another process has
    published version 5 of it, with 4 bytes of data and 2 of metadata, for
    one reader, who has not read it yet. *)
Definition late_object : MutableObject :=
  mkMutableObject (replicate 64 x00) (mkHeader "chan" kDone 5 1 1 1 4 2 false) 64.

(** Object 8 joins the header of [late_object] as a reader, reads and
    releases what is there, then registers as the writer too, publishes the
    next version and reads it. *)
Definition late_reader : list Call :=
  [register_writer;
   CallRegisterChannel 8 (Some late_object) true;
   CallReadAcquire 8; CallReadRelease 8;
   CallRegisterChannel 8 (Some late_object) false;
   CallWriteAcquire 8 4 None 2 1; CallWriteRelease 8;
   CallReadAcquire 8; CallReadRelease 8].

(** A name of 32 characters. *)
Definition long_name : string := "0123456789abcdef0123456789abcdef".

(** A name of 29 characters: it fits 31 characters, with the prefix it does
    not. *)
Definition tight_name : string := "0123456789abcdef0123456789abc".

(** A provider whose local object 9 is registered for both roles and mapped
    from the remote object 5, with one reader. *)
Definition push_provider : MutableObjectProvider :=
  mkProvider {[9%N := fresh_object "local" 16]}
    (state_after [CallRegisterChannel 9 (Some (fresh_object "local" 16)) true;
                  CallRegisterChannel 9 (Some (fresh_object "local" 16)) false])
    {[5%N := mkLocalInfo 1 9]}.

(** A provider whose allocator has the local object 9, before and after the
    remote object 5 is mapped to it. *)
Definition fresh_provider : MutableObjectProvider :=
  mkProvider {[9%N := fresh_object "local" 16]} empty_manager ∅.

Definition registered_provider : MutableObjectProvider :=
  match HandleRegisterMutableObject 31 fresh_provider 5 1 9 with
  | Returned p => p
  | _ => fresh_provider
  end.

Definition push_request : PushMutableObjectRequest :=
  mkPushRequest 5 3 1 [xde; xad; xbe; xef].

(** An object whose header another process has initialised: the latch of
    its semaphores is at [kDone]. *)
Definition attached_object (name : string) (capacity : nat) : MutableObject :=
  mkMutableObject (replicate capacity x00)
    (mkHeader name kDone 0 0 0 0 0 0 false) (Z.of_nat capacity).

(** Object 7 registered for both roles and object 9 registered by a
    reader. *)
Definition two_objects : list Call :=
  [register_writer; register_reader;
   CallRegisterChannel 9 (Some (fresh_object "local" 16)) true].

(** Object 7 created by its writer, and object 8 attached to the same
    header. *)
Definition shared_name : list Call :=
  [register_writer; CallRegisterChannel 8 (Some (attached_object "chan" 64)) true].

(** One version written and released on object 7. *)
Definition one_write : list Call :=
  [register_writer; register_reader; CallWriteAcquire 7 4 None 2 1; CallWriteRelease 7].

(** The poll of object 7 for the reader 11, and a factory that knows the
    node 3 only. *)
Definition a_poll : PostedPoll := mkPostedPoll 7 11.

Definition one_peer (node_id : N) : option N :=
  if (node_id =? 3)%N then Some 11%N else None.

(** Pushes for the remote object 5: one over the 16 bytes of the local
    object, and one that carries 2 bytes for sizes of 8 and 1. *)
Definition large_request : PushMutableObjectRequest :=
  mkPushRequest 5 16 1 [xde; xad; xbe; xef].

Definition short_request : PushMutableObjectRequest :=
  mkPushRequest 5 8 1 [xde; xad].

(** ** Proofs *)

Section Properties.

Variable PSEMNAMLEN : nat.

Lemma bind_returns {A B} (f : A → outcome B) (o : outcome A) (b : B) :
  (o ≫= f) = Returned b → ∃ a, o = Returned a ∧ f a = Returned b.
Proof. destruct o; simpl; intros H; try discriminate. eauto. Qed.

Lemma RAY_CHECK_returns (cond : bool) (u : unit) :
  RAY_CHECK cond = Returned u → cond = true.
Proof. destruct cond; simpl; congruence. Qed.

Lemma RAY_CHECK_OK_returns (status : StatusCode) (u : unit) :
  RAY_CHECK_OK status = Returned u → status = OK.
Proof.
  unfold RAY_CHECK_OK, is_ok. intros H. apply RAY_CHECK_returns in H.
  by apply bool_decide_eq_true_1 in H.
Qed.

(** Takes the calls that returned apart, bind by bind. *)
Ltac returned :=
  repeat match goal with
  | H : (_ ≫= _) = Returned _ |- _ => apply bind_returns in H as (? & ? & H)
  | H : (match ?x with _ => _ end) = Returned _ |- _ =>
      destruct x eqn:?; try discriminate H
  | H : (let '(_, _) := ?x in _) = Returned _ |- _ => destruct x eqn:?
  | H : RAY_CHECK _ = Returned _ |- _ => apply RAY_CHECK_returns in H
  | H : Returned _ = Returned _ |- _ => injection H as H; subst
  | H : (_, _) = (_, _) |- _ => injection H as H; subst
  end.

(** *** The header *)

Lemma header_WriteAcquire_returns h sem k ds ms nr status h' k' :
  header_WriteAcquire h sem k ds ms nr = Returned (status, h', k') →
  (status = ChannelError ∧ has_error h = true ∧ h' = h ∧ k' = k)
  ∨ (status = OK ∧ has_error h = false ∧ has_error h' = false
     ∧ data_size h' = ds ∧ metadata_size h' = ms ∧ version h' = version h).
Proof.
  unfold header_WriteAcquire. intros H.
  destruct (has_error h) eqn:He; returned; simplify_eq; [left | right]; done.
Qed.

Lemma header_WriteRelease_returns h sem k status h' k' :
  header_WriteRelease h sem k = Returned (status, h', k') →
  status = OK ∧ has_error h' = has_error h
  ∧ data_size h' = data_size h ∧ metadata_size h' = metadata_size h.
Proof.
  unfold header_WriteRelease. intros H.
  destruct (has_error h) eqn:He; returned; simplify_eq; done.
Qed.

Lemma header_ReadAcquire_returns h sem k version_to_read status h' k' version_read :
  header_ReadAcquire h sem k version_to_read = Returned (status, h', k', version_read) →
  (status = ChannelError ∧ has_error h = true ∧ h' = h ∧ k' = k)
  ∨ (status = OK ∧ has_error h = false ∧ has_error h' = false
     ∧ version_read = version h ∧ version_to_read ≤ version_read
     ∧ data_size h' = data_size h ∧ metadata_size h' = metadata_size h).
Proof.
  unfold header_ReadAcquire. intros H.
  destruct (has_error h) eqn:He; returned; simplify_eq; [left; done | right].
  apply orb_false_iff in Heqb as [Hv _]. apply bool_decide_eq_false in Hv.
  repeat split; try done. lia.
Qed.

Lemma header_ReadRelease_returns h sem k read_version status h' k' :
  header_ReadRelease h sem k read_version = Returned (status, h', k') →
  status = OK ∧ has_error h' = has_error h.
Proof.
  unfold header_ReadRelease. intros H.
  destruct (has_error h) eqn:He; returned; simplify_eq; done.
Qed.

Lemma header_SetErrorUnlocked_returns h sem k h' k' :
  header_SetErrorUnlocked h sem k = Returned (h', k') → has_error h' = true.
Proof.
  unfold header_SetErrorUnlocked. intros H.
  destruct (has_error h) eqn:He; returned; simplify_eq; done.
Qed.

(** *** Objects that are not registered *)

Lemma WriteAcquire_unregistered m object_id data_size metadata metadata_size num_readers :
  GetChannel m object_id = None →
  WriteAcquire m object_id data_size metadata metadata_size num_readers
  = Returned (NotRegistered, None, m).
Proof. intros H. unfold WriteAcquire. by rewrite H. Qed.

Lemma WriteRelease_unregistered m object_id :
  GetChannel m object_id = None → WriteRelease m object_id = Returned (NotRegistered, m).
Proof. intros H. unfold WriteRelease. by rewrite H. Qed.

Lemma ReadAcquire_unregistered m object_id :
  GetChannel m object_id = None →
  ReadAcquire m object_id = Returned (NotRegistered, None, m).
Proof. intros H. unfold ReadAcquire. by rewrite H. Qed.

Lemma ReadRelease_unregistered m object_id :
  GetChannel m object_id = None → ReadRelease m object_id = Returned (NotRegistered, m).
Proof. intros H. unfold ReadRelease. by rewrite H. Qed.

Lemma maps_agree_None m object_id :
  maps_agree m → GetChannel m object_id = None → semaphores_ m !! object_id = None.
Proof.
  unfold maps_agree, GetChannel. intros Hdom Hc.
  apply not_elem_of_dom. rewrite <- Hdom. by apply not_elem_of_dom.
Qed.

Lemma maps_agree_Some m object_id channel :
  maps_agree m → GetChannel m object_id = Some channel →
  ∃ sem, semaphores_ m !! object_id = Some sem.
Proof.
  unfold maps_agree, GetChannel. intros Hdom Hc.
  assert (object_id ∈ dom (semaphores_ m)) as Hin.
  { rewrite <- Hdom. apply elem_of_dom. eauto. }
  by apply elem_of_dom in Hin.
Qed.

(** C4, at the input where the code fails: [SetError(object_id)] on an
    object that has no channel does not return [NotRegistered]; it looks the
    semaphores of the object up first, finds none, and fails the
    [RAY_CHECK] of [GetSemaphores]. *)
Theorem SetError_unregistered_check_fails m object_id :
  maps_agree m →
  GetChannel m object_id = None →
  SetError m object_id = CheckFailed.
Proof.
  intros Hdom Hc. unfold SetError, GetSemaphores.
  by rewrite (maps_agree_None _ _ Hdom Hc).
Qed.

(** *** [WriteRelease] without [WriteAcquire] *)

(** No path of [WriteRelease] returns [InvalidArgument]. *)
Lemma WriteRelease_never_InvalidArgument m object_id m' :
  WriteRelease m object_id ≠ Returned (InvalidArgument, m').
Proof.
  unfold WriteRelease. intros H. returned.
  match goal with
  | H : header_WriteRelease _ _ _ = _ |- _ =>
      apply header_WriteRelease_returns in H as [? _]
  end.
  discriminate.
Qed.

(** C5, as the code has it: on a registered writer channel whose [written]
    flag is false, [WriteRelease] does not return [InvalidArgument]: it
    fails the [RAY_CHECK] on [written] ("You must call WriteAcquire() before
    WriteRelease()"). *)
Theorem WriteRelease_unwritten_check_fails m object_id channel :
  GetChannel m object_id = Some channel →
  writer_registered channel = true →
  written channel = false →
  WriteRelease m object_id = CheckFailed.
Proof.
  intros Hc Hw Hn. unfold WriteRelease. by rewrite Hc, Hw, Hn.
Qed.

(** *** Registration *)

Lemma set_header_same channel :
  set_header (header (mutable_object channel)) channel = channel.
Proof. by destruct channel as [? [? ? ?] ? ? ? ?]. Qed.

Lemma set_channel_same m object_id channel :
  GetChannel m object_id = Some channel → set_channel object_id channel m = m.
Proof.
  unfold GetChannel, set_channel. intros H. destruct m as [cs ss k]; simpl in *.
  by rewrite insert_id.
Qed.

Lemma OpenSemaphores_open m object_id sem h :
  semaphores_ m !! object_id = Some sem →
  OpenSemaphores PSEMNAMLEN m object_id h = Returned (m, h).
Proof.
  intros H. unfold OpenSemaphores. rewrite bool_decide_eq_true_2; [done | by eexists].
Qed.

(** C8: while a channel is registered for a role, [RegisterChannel] for the
    same role returns [Invalid] and leaves the state as it is, and
    [RegisterChannel] for the other role, when that one is not registered,
    returns OK and sets the flag of that role and nothing else. *)
Theorem RegisterChannel_twice m object_id channel mutable_object reader :
  maps_agree m →
  GetChannel m object_id = Some channel →
  registered reader channel = true →
  RegisterChannel PSEMNAMLEN m object_id mutable_object reader = Returned (Invalid, m)
  ∧ (registered (negb reader) channel = false →
     RegisterChannel PSEMNAMLEN m object_id mutable_object (negb reader)
     = Returned (OK, set_channel object_id (set_registered (negb reader) true channel) m)).
Proof.
  intros Hdom Hc Hr.
  destruct (maps_agree_Some _ _ _ Hdom Hc) as [sem Hsem].
  unfold GetChannel in Hc. unfold RegisterChannel. rewrite Hc. split.
  - destruct reader; simpl in *; by rewrite Hr.
  - intros Ho.
    destruct reader; simpl in *; rewrite Ho; simpl;
      rewrite ?andb_false_r; simpl;
      erewrite OpenSemaphores_open by eassumption; simpl;
      by destruct channel as [? [? ? ?] ? ? ? ?].
Qed.

(** *** Names of the semaphores *)

Lemma GetSemaphoreHeaderName_short name :
  (String.length name ≤ PSEMNAMLEN)%nat →
  GetSemaphoreHeaderName PSEMNAMLEN name = Returned ("hdr" +:+ name).
Proof. intros H. unfold GetSemaphoreHeaderName. by rewrite bool_decide_eq_true_2. Qed.

Lemma GetSemaphoreObjectName_short name :
  (String.length name ≤ PSEMNAMLEN)%nat →
  GetSemaphoreObjectName PSEMNAMLEN name = Returned ("obj" +:+ name).
Proof. intros H. unfold GetSemaphoreObjectName. by rewrite bool_decide_eq_true_2. Qed.

Lemma GetSemaphoreName_returns h name :
  GetSemaphoreName PSEMNAMLEN h = Returned name →
  name = unique_name h ∧ (String.length name ≤ PSEMNAMLEN)%nat.
Proof.
  unfold GetSemaphoreName. intros H. returned.
  split; [done | by eapply bool_decide_eq_true_1].
Qed.

Lemma GetSemaphoreName_long h :
  (PSEMNAMLEN < String.length (unique_name h))%nat →
  GetSemaphoreName PSEMNAMLEN h = CheckFailed.
Proof.
  intros H. unfold GetSemaphoreName. rewrite bool_decide_eq_false_2; [done | lia].
Qed.

Lemma sem_open_create_name k name value sem k' :
  sem_open_create PSEMNAMLEN k name value = (Some sem, k') →
  sem_names k' = <[name := sem]> (sem_names k).
Proof.
  unfold sem_open_create. intros H.
  repeat case_match; simplify_eq; done.
Qed.

Lemma OpenSemaphores_names m object_id h m' h' :
  semaphores_ m !! object_id = None →
  OpenSemaphores PSEMNAMLEN m object_id h = Returned (m', h') →
  ∃ sem, semaphores_ m' !! object_id = Some sem
    ∧ sem_names (os m') !! ("obj" +:+ unique_name h) = Some (object_sem sem)
    ∧ sem_names (os m') !! ("hdr" +:+ unique_name h) = Some (header_sem sem).
Proof.
  intros Hnone. unfold OpenSemaphores.
  rewrite bool_decide_eq_false_2 by (rewrite Hnone; by intros [? ?]).
  intros H. apply bind_returns in H as (name & Hname & H).
  apply GetSemaphoreName_returns in Hname as [-> Hlen].
  assert (unique_name h =
          unique_name (if bool_decide (semaphores_created h = kUnitialized)
                       then set_semaphores_created kInitializing h else h)) as Hu.
  { by case_bool_decide. }
  rewrite <- Hu in *. clear Hu.
  rewrite (GetSemaphoreHeaderName_short _ Hlen) in H.
  rewrite (GetSemaphoreObjectName_short _ Hlen) in H.
  simpl in H.
  destruct (bool_decide (semaphores_created h = kUnitialized)) eqn:Hcreate.
  - returned.
    match goal with
    | H1 : sem_open_create _ _ ("obj" +:+ _) _ = _,
      H2 : sem_open_create _ _ ("hdr" +:+ _) _ = _ |- _ =>
        apply sem_open_create_name in H1; apply sem_open_create_name in H2;
        simpl; rewrite H2, H1
    end.
    eexists; split; [apply lookup_insert_eq |]; simpl; split.
    + rewrite lookup_insert_ne by discriminate. apply lookup_insert_eq.
    + apply lookup_insert_eq.
  - unfold sem_open_existing in H. returned. simpl.
    eexists; split; [apply lookup_insert_eq |]; simpl; split; done.
Qed.

(** *** The names in the table of the kernel *)

Lemma kernel_names_valid_lookup k :
  kernel_names_valid PSEMNAMLEN k = true ↔
  ∀ name sem, sem_names k !! name = Some sem →
    (String.length name ≤ PSEMNAMLEN)%nat ∧ sem_name_valid name = true.
Proof.
  unfold kernel_names_valid. rewrite forallb_forall. split.
  - intros H name sem Hname.
    specialize (H (name, sem)). simpl in H.
    apply andb_true_iff in H as [Hlen Hvalid];
      [| by apply list_elem_of_In, elem_of_map_to_list].
    by apply bool_decide_eq_true_1 in Hlen.
  - intros H [name sem] Hin. simpl.
    apply list_elem_of_In, elem_of_map_to_list in Hin.
    destruct (H _ _ Hin) as [Hlen ->]. by rewrite bool_decide_eq_true_2.
Qed.

Lemma kernel_names_valid_same k k' :
  sem_names k' = sem_names k →
  kernel_names_valid PSEMNAMLEN k = true → kernel_names_valid PSEMNAMLEN k' = true.
Proof. unfold kernel_names_valid. by intros ->. Qed.

Lemma sem_unlink_valid k name :
  kernel_names_valid PSEMNAMLEN k = true →
  kernel_names_valid PSEMNAMLEN (sem_unlink k name) = true.
Proof.
  rewrite !kernel_names_valid_lookup. intros H name' sem. simpl.
  rewrite lookup_delete_Some. intros [_ Hname]. by eapply H.
Qed.

Lemma sem_open_create_valid k name value sem k' :
  sem_open_create PSEMNAMLEN k name value = (sem, k') →
  kernel_names_valid PSEMNAMLEN k = true → kernel_names_valid PSEMNAMLEN k' = true.
Proof.
  unfold sem_open_create. intros H Hk.
  case_bool_decide as Hlen; [by simplify_eq |].
  destruct (sem_name_valid name) eqn:Hvalid; simpl in H; [| by simplify_eq].
  destruct (sem_names k !! name); simplify_eq; [done |].
  apply kernel_names_valid_lookup. intros name' sem'. simpl.
  rewrite lookup_insert_Some. intros [[<- _] | [_ Hname]].
  - split; [lia | done].
  - revert Hname. by apply kernel_names_valid_lookup.
Qed.

Lemma sem_wait_names k sem k' :
  sem_wait k sem = Returned k' → sem_names k' = sem_names k.
Proof. unfold sem_wait. intros H. repeat case_match; by simplify_eq. Qed.

Lemma sem_post_names k sem : sem_names (sem_post k sem) = sem_names k.
Proof. unfold sem_post. by case_match. Qed.

Lemma sem_post_n_names n k sem : sem_names (sem_post_n n k sem) = sem_names k.
Proof.
  revert k. induction n as [| n IH]; intros k; simpl; [done |].
  by rewrite IH, sem_post_names.
Qed.

Lemma header_WriteAcquire_names h sem k ds ms nr status h' k' :
  header_WriteAcquire h sem k ds ms nr = Returned (status, h', k') →
  sem_names k' = sem_names k.
Proof.
  unfold header_WriteAcquire. intros H. returned; [done |].
  rewrite sem_post_names.
  repeat match goal with
         | H : sem_wait _ _ = _ |- _ => apply sem_wait_names in H; rewrite H; clear H
         end.
  done.
Qed.

Lemma header_WriteRelease_names h sem k status h' k' :
  header_WriteRelease h sem k = Returned (status, h', k') →
  sem_names k' = sem_names k.
Proof.
  unfold header_WriteRelease. intros H. returned; [done |].
  rewrite sem_post_n_names, sem_post_names. by eapply sem_wait_names.
Qed.

Lemma header_ReadAcquire_names h sem k v status h' k' version_read :
  header_ReadAcquire h sem k v = Returned (status, h', k', version_read) →
  sem_names k' = sem_names k.
Proof.
  unfold header_ReadAcquire. intros H. returned; [done |].
  rewrite sem_post_names.
  repeat match goal with
         | H : sem_wait _ _ = _ |- _ => apply sem_wait_names in H; rewrite H; clear H
         end.
  done.
Qed.

Lemma header_ReadRelease_names h sem k v status h' k' :
  header_ReadRelease h sem k v = Returned (status, h', k') →
  sem_names k' = sem_names k.
Proof.
  unfold header_ReadRelease. intros H. returned; [done |].
  case_bool_decide; rewrite ?sem_post_names; by eapply sem_wait_names.
Qed.

Lemma header_SetErrorUnlocked_names h sem k h' k' :
  header_SetErrorUnlocked h sem k = Returned (h', k') →
  sem_names k' = sem_names k.
Proof.
  unfold header_SetErrorUnlocked. intros H. returned; [done |].
  rewrite sem_post_n_names, !sem_post_names. by eapply sem_wait_names.
Qed.

Ltac names_kept :=
  simpl; try done;
  match goal with
  | H : header_WriteAcquire _ _ _ _ _ _ = _ |- _ => by apply header_WriteAcquire_names in H
  | H : header_WriteRelease _ _ _ = _ |- _ => by apply header_WriteRelease_names in H
  | H : header_ReadAcquire _ _ _ _ = _ |- _ => by apply header_ReadAcquire_names in H
  | H : header_ReadRelease _ _ _ _ = _ |- _ => by apply header_ReadRelease_names in H
  | H : header_SetErrorUnlocked _ _ _ = _ |- _ => by apply header_SetErrorUnlocked_names in H
  end.

Lemma WriteAcquire_names m object_id ds md ms nr status data m' :
  WriteAcquire m object_id ds md ms nr = Returned (status, data, m') →
  sem_names (os m') = sem_names (os m).
Proof. unfold WriteAcquire. intros H. returned; names_kept. Qed.

Lemma WriteRelease_names m object_id status m' :
  WriteRelease m object_id = Returned (status, m') →
  sem_names (os m') = sem_names (os m).
Proof. unfold WriteRelease. intros H. returned; names_kept. Qed.

Lemma ReadAcquire_names m object_id status result m' :
  ReadAcquire m object_id = Returned (status, result, m') →
  sem_names (os m') = sem_names (os m).
Proof. unfold ReadAcquire. intros H. returned; names_kept. Qed.

Lemma ReadRelease_names m object_id status m' :
  ReadRelease m object_id = Returned (status, m') →
  sem_names (os m') = sem_names (os m).
Proof. unfold ReadRelease. intros H. returned; names_kept. Qed.

Lemma SetError_names m object_id status m' :
  SetError m object_id = Returned (status, m') →
  sem_names (os m') = sem_names (os m).
Proof. unfold SetError. intros H. returned; names_kept. Qed.

Lemma SetError_loop_names ids m status m' :
  SetError_loop ids m = Returned (status, m') →
  sem_names (os m') = sem_names (os m).
Proof.
  revert m. induction ids as [| i ids IH]; intros m H; simpl in H.
  - by returned.
  - returned;
      match goal with H : SetError _ _ = _ |- _ => apply SetError_names in H end;
      [done |].
    match goal with H : SetError_loop _ _ = _ |- _ => apply IH in H end.
    congruence.
Qed.

Lemma OpenSemaphores_valid m object_id h m' h' :
  OpenSemaphores PSEMNAMLEN m object_id h = Returned (m', h') →
  kernel_names_valid PSEMNAMLEN (os m) = true →
  kernel_names_valid PSEMNAMLEN (os m') = true.
Proof.
  unfold OpenSemaphores, sem_open_existing. intros H Hk. returned; simpl; try done.
  repeat match goal with
         | H : sem_open_create _ _ _ _ = _ |- _ =>
             apply sem_open_create_valid in H; [done |]
         end.
  by do 2 apply sem_unlink_valid.
Qed.

Lemma RegisterChannel_valid m object_id object reader status m' :
  RegisterChannel PSEMNAMLEN m object_id object reader = Returned (status, m') →
  kernel_names_valid PSEMNAMLEN (os m) = true →
  kernel_names_valid PSEMNAMLEN (os m') = true.
Proof.
  unfold RegisterChannel. intros H Hk. returned; simpl; try done.
  all: match goal with
       | H : OpenSemaphores _ _ _ _ = _ |- _ => by apply OpenSemaphores_valid in H
       end.
Qed.

Lemma call_valid m c status m' :
  call PSEMNAMLEN m c = Returned (status, m') →
  kernel_names_valid PSEMNAMLEN (os m) = true →
  kernel_names_valid PSEMNAMLEN (os m') = true.
Proof.
  destruct c; simpl; intros H.
  - by eapply RegisterChannel_valid.
  - returned. apply kernel_names_valid_same. by eapply WriteAcquire_names.
  - apply kernel_names_valid_same. by eapply WriteRelease_names.
  - returned. apply kernel_names_valid_same. by eapply ReadAcquire_names.
  - apply kernel_names_valid_same. by eapply ReadRelease_names.
  - apply kernel_names_valid_same. by eapply SetError_names.
  - apply kernel_names_valid_same. by eapply SetError_loop_names.
Qed.

(** Every state that a run from the empty manager reaches has in the table
    of the kernel only names that [sem_open] takes. *)
Lemma run_kernel_names_valid calls m m' :
  run PSEMNAMLEN calls m = Returned m' →
  kernel_names_valid PSEMNAMLEN (os m) = true →
  kernel_names_valid PSEMNAMLEN (os m') = true.
Proof.
  revert m. induction calls as [| c calls IH]; intros m H Hk; simpl in H.
  - by returned.
  - returned. eapply IH; [done |]. by eapply call_valid.
Qed.

Lemma obj_name_length name : String.length ("obj" +:+ name) = S (S (S (String.length name))).
Proof. reflexivity. Qed.

Lemma hdr_name_length name : String.length ("hdr" +:+ name) = S (S (S (String.length name))).
Proof. reflexivity. Qed.

Lemma sem_open_create_long k name value :
  (PSEMNAMLEN < String.length name)%nat →
  sem_open_create PSEMNAMLEN k name value = (None, k).
Proof. intros H. unfold sem_open_create. by rewrite bool_decide_eq_true_2. Qed.

Lemma kernel_names_valid_long k name :
  kernel_names_valid PSEMNAMLEN k = true →
  (PSEMNAMLEN < String.length name)%nat →
  sem_names k !! name = None.
Proof.
  intros Hk Hlen. destruct (sem_names k !! name) as [sem |] eqn:Hname; [| done].
  destruct (proj1 (kernel_names_valid_lookup k) Hk _ _ Hname). lia.
Qed.

(** What the registration that opens the semaphores of an object does when
    the name of one of them is too long. *)
Lemma RegisterChannel_long_name m object_id object reader :
  GetChannel m object_id = None →
  semaphores_ m !! object_id = None →
  kernel_names_valid PSEMNAMLEN (os m) = true →
  (PSEMNAMLEN < String.length (unique_name (header object)) + 3)%nat →
  (semaphores_created (header object) = kInitializing →
   (String.length (unique_name (header object)) ≤ PSEMNAMLEN)%nat →
   RegisterChannel PSEMNAMLEN m object_id (Some object) reader = Blocks)
  ∧ (semaphores_created (header object) ≠ kInitializing
     ∨ (PSEMNAMLEN < String.length (unique_name (header object)))%nat →
     RegisterChannel PSEMNAMLEN m object_id (Some object) reader = CheckFailed).
Proof.
  intros Hc Hs Hk Hlong. unfold GetChannel in Hc.
  unfold RegisterChannel. rewrite Hc. simpl.
  assert (header (mutable_object
            (if reader then set_reader_registered true (new_Channel object)
             else set_writer_registered true (new_Channel object))) = header object)
    as -> by (by destruct reader).
  unfold OpenSemaphores.
  rewrite bool_decide_eq_false_2 by (rewrite Hs; by intros [? ?]).
  cbv zeta.
  assert (unique_name
            (if bool_decide (semaphores_created (header object) = kUnitialized)
             then set_semaphores_created kInitializing (header object)
             else header object) = unique_name (header object)) as Hname
    by (by case_bool_decide).
  unfold GetSemaphoreName. rewrite Hname.
  destruct (decide (String.length (unique_name (header object)) ≤ PSEMNAMLEN)%nat)
    as [Hfits | Hover].
  - rewrite (bool_decide_eq_true_2 _ Hfits). simpl.
    rewrite (GetSemaphoreHeaderName_short _ Hfits).
    rewrite (GetSemaphoreObjectName_short _ Hfits). simpl.
    destruct (semaphores_created (header object)) eqn:Hlevel;
      simpl; rewrite ?Hlevel; simpl.
    + split; [done |]. intros _.
      rewrite sem_open_create_long by (rewrite obj_name_length; lia).
      by rewrite sem_open_create_long by (rewrite hdr_name_length; lia).
    + split; [done |]. intros [? | ?]; [done | lia].
    + split; [done |]. intros _. unfold sem_open_existing.
      by rewrite (kernel_names_valid_long _ _ Hk)
        by (rewrite obj_name_length; lia).
  - rewrite (bool_decide_eq_false_2 _ Hover). simpl. split; [lia | done].
Qed.

(** C9: the names of the two semaphores are ["hdr"] and ["obj"] followed by
    [unique_name]: these are the names that [GetSemaphoreHeaderName] and
    [GetSemaphoreObjectName] return, and the names under which the
    registration that opens the semaphores of an object leaves them.  A
    [unique_name] whose length makes the prefixed names longer than
    [PSEMNAMLEN] is never accepted by that registration, and never rejected
    with a status: the registration fails a [RAY_CHECK], except that it
    waits when another process holds the latch of the header at
    [kInitializing] and [unique_name] itself fits. *)
Theorem semaphore_names m object_id object reader :
  GetChannel m object_id = None →
  semaphores_ m !! object_id = None →
  kernel_names_valid PSEMNAMLEN (os m) = true →
  let name := unique_name (header object) in
  let registration := RegisterChannel PSEMNAMLEN m object_id (Some object) reader in
  (∀ ret, GetSemaphoreHeaderName PSEMNAMLEN name = Returned ret → ret = "hdr" +:+ name)
  ∧ (∀ ret, GetSemaphoreObjectName PSEMNAMLEN name = Returned ret → ret = "obj" +:+ name)
  ∧ (∀ status m', registration = Returned (status, m') →
       status = OK
       ∧ (String.length name + 3 ≤ PSEMNAMLEN)%nat
       ∧ ∃ sem, semaphores_ m' !! object_id = Some sem
           ∧ sem_names (os m') !! ("obj" +:+ name) = Some (object_sem sem)
           ∧ sem_names (os m') !! ("hdr" +:+ name) = Some (header_sem sem))
  ∧ ((PSEMNAMLEN < String.length name + 3)%nat →
     (semaphores_created (header object) = kInitializing →
      (String.length name ≤ PSEMNAMLEN)%nat →
      registration = Blocks)
     ∧ (semaphores_created (header object) ≠ kInitializing
        ∨ (PSEMNAMLEN < String.length name)%nat →
        registration = CheckFailed)).
Proof.
  intros Hc Hs Hk name registration.
  split; [| split; [| split]].
  - unfold GetSemaphoreHeaderName. intros ret H. by returned.
  - unfold GetSemaphoreObjectName. intros ret H. by returned.
  - intros status m' H.
    assert (String.length name + 3 ≤ PSEMNAMLEN)%nat as Hfits.
    { destruct (decide (String.length name + 3 ≤ PSEMNAMLEN)%nat) as [| Hlong]; [done |].
      destruct (RegisterChannel_long_name m object_id object reader Hc Hs Hk)
        as [Hwaits Hfails]; [subst name; lia |].
      subst registration.
      destruct (decide (semaphores_created (header object) = kInitializing
                        ∧ (String.length name ≤ PSEMNAMLEN)%nat)) as [[? ?] | Hno].
      - by rewrite Hwaits in H.
      - rewrite Hfails in H; [done |].
        apply not_and_l in Hno as [? | ?]; [by left | right; subst name; lia]. }
    subst registration. unfold GetChannel in Hc.
    unfold RegisterChannel in H. rewrite Hc in H. simpl in H. returned.
    split; [done |]. split; [done |].
    match goal with
    | H : OpenSemaphores _ _ _ _ = _ |- _ =>
        eapply OpenSemaphores_names in H as (sem & ? & ? & ?); [| done]
    end.
    exists sem. simpl. by destruct reader.
  - intros Hlong. by apply RegisterChannel_long_name.
Qed.

(** *** Releasing a read *)

Lemma set_os_same m : set_os (os m) m = m.
Proof. by destruct m. Qed.

Lemma sem_wait_available k sem :
  sem_available k sem → ∃ k', sem_wait k sem = Returned k'.
Proof.
  intros (v & Hv & Hpos). unfold sem_wait. rewrite Hv.
  rewrite bool_decide_eq_true_2 by done. eauto.
Qed.

(** C10: [ReadRelease] on a registered reader channel keeps no record of an
    outstanding read and has no check of what came before it.  With the
    reader mutex held, by whatever call, also by a [ReadAcquire] that read
    nothing, it calls [ReadRelease] of the header with the current
    [next_version_to_read], adds one to [next_version_to_read], gives the
    mutex back and returns OK.  With the mutex free it takes the same steps
    up to [Unlock], which it then calls on a mutex that it does not hold: the
    call does not return OK. *)
Theorem ReadRelease_unpaired m object_id channel sem :
  GetChannel m object_id = Some channel →
  reader_registered channel = true →
  semaphores_ m !! object_id = Some sem →
  sem_available (os m) (header_sem sem) →
  in_int64 (next_version_to_read channel + 1) →
  ∃ h k,
    header_ReadRelease (header (mutable_object channel)) sem (os m)
      (next_version_to_read channel) = Returned (OK, h, k)
    ∧ (lock channel = true →
       ReadRelease m object_id
       = Returned (OK,
           set_channel object_id
             (set_lock false
                (set_next_version_to_read (next_version_to_read channel + 1)
                   (set_header h channel)))
             (set_os k m)))
    ∧ (lock channel = false → ReadRelease m object_id = Undefined).
Proof.
  intros Hc Hr Hs Hsem Hv.
  assert (∃ h k, header_ReadRelease (header (mutable_object channel)) sem (os m)
                   (next_version_to_read channel) = Returned (OK, h, k)) as (h & k & Hh).
  { unfold header_ReadRelease. destruct (has_error _); [by eauto |].
    destruct (sem_wait_available _ _ Hsem) as [k' ->]. simpl. eauto. }
  exists h, k. split; [done |].
  unfold ReadRelease, GetSemaphores. rewrite Hc, Hr, Hs. simpl. rewrite Hh. simpl.
  unfold int64_add. rewrite bool_decide_eq_true_2 by done. simpl.
  split; intros ->; reflexivity.
Qed.

(** *** A read that fails *)

Lemma ReadAcquire_with_error m object_id channel sem :
  GetChannel m object_id = Some channel →
  reader_registered channel = true →
  lock channel = false →
  semaphores_ m !! object_id = Some sem →
  has_error (header (mutable_object channel)) = true →
  ReadAcquire m object_id
  = Returned (ChannelError, None, set_channel object_id (set_lock true channel) m).
Proof.
  intros Hc Hr Hl Hs He.
  unfold ReadAcquire, GetSemaphores. rewrite Hc, Hr, Hl, Hs. simpl.
  unfold header_ReadAcquire. simpl. rewrite He. simpl.
  rewrite set_os_same. do 3 f_equal.
  by destruct channel as [? [? ? ?] ? ? ? ?].
Qed.

(** C2, at the input where the code fails: on a registered reader channel
    whose header has the error flag set, [ReadAcquire] takes the reader
    mutex and returns [ChannelError] without giving it back, and the next
    [ReadAcquire] on the channel waits for the mutex. *)
Theorem ReadAcquire_error_keeps_mutex m object_id channel sem :
  GetChannel m object_id = Some channel →
  reader_registered channel = true →
  lock channel = false →
  semaphores_ m !! object_id = Some sem →
  has_error (header (mutable_object channel)) = true →
  let m' := set_channel object_id (set_lock true channel) m in
  ReadAcquire m object_id = Returned (ChannelError, None, m')
  ∧ ReadAcquire m' object_id = Blocks.
Proof.
  intros Hc Hr Hl Hs He m'. split.
  - by eapply ReadAcquire_with_error.
  - unfold ReadAcquire, GetChannel. subst m'. simpl.
    rewrite lookup_insert_eq. simpl. by rewrite Hr.
Qed.

(** *** A write that is too large *)

Lemma sem_wait_other k sem k' sem' :
  sem_wait k sem = Returned k' → sem ≠ sem' → sem_available k sem' →
  sem_available k' sem'.
Proof.
  unfold sem_wait. intros H Hne (v & Hv & Hpos). returned. simpl.
  exists v. split; [| done]. simpl. by rewrite list_lookup_insert_ne.
Qed.

(** C3: on a channel with a registered writer and [written] false,
    [WriteAcquire] with [data_size + metadata_size] over [allocated_size]
    adds the two sizes as [int64_t] before it compares.  When the sum is an
    [int64_t], the call returns [InvalidArgument] and leaves the whole state
    as it was: the channel with its [written] flag, the header, the
    semaphores; a [WriteAcquire] after it whose sizes are within
    [allocated_size] returns OK and sets [written], when the header has no
    error and the two semaphores are free.  When the sum is over
    [INT64_MAX], the addition overflows and the call does not return
    [InvalidArgument]: what it does is undefined. *)
Theorem WriteAcquire_too_large m object_id channel data_size metadata metadata_size
    num_readers :
  GetChannel m object_id = Some channel →
  writer_registered channel = true →
  written channel = false →
  allocated_size (mutable_object channel) < data_size + metadata_size →
  (in_int64 (data_size + metadata_size) →
   WriteAcquire m object_id data_size metadata metadata_size num_readers
   = Returned (InvalidArgument, None, m)
   ∧ ∀ sem data_size' metadata_size' num_readers',
       semaphores_ m !! object_id = Some sem →
       object_sem sem ≠ header_sem sem →
       sem_available (os m) (object_sem sem) →
       sem_available (os m) (header_sem sem) →
       has_error (header (mutable_object channel)) = false →
       in_int64 (allocated_size (mutable_object channel)) →
       0 ≤ data_size' → 0 ≤ metadata_size' →
       data_size' + metadata_size' ≤ allocated_size (mutable_object channel) →
       ∃ m' channel',
         WriteAcquire m object_id data_size' None metadata_size' num_readers'
         = Returned (OK, Some (mkSlice 0 data_size'), m')
         ∧ GetChannel m' object_id = Some channel'
         ∧ written channel' = true)
  ∧ (INT64_MAX < data_size + metadata_size →
     WriteAcquire m object_id data_size metadata metadata_size num_readers
     = Undefined).
Proof.
  intros Hc Hw Hn Hlarge. split; [intros Hrange; split |].
  - unfold WriteAcquire, int64_add. rewrite Hc, Hw, Hn. simpl.
    rewrite bool_decide_eq_true_2 by done. simpl.
    by rewrite bool_decide_eq_true_2.
  - intros sem ds ms nr Hs Hne Ho Hh He Ha Hds Hms Hfit.
    unfold WriteAcquire, int64_add, GetSemaphores. rewrite Hc, Hw, Hn, Hs. simpl.
    rewrite bool_decide_eq_true_2
      by (unfold in_int64, INT64_MIN, INT64_MAX in *; lia).
    simpl. rewrite bool_decide_eq_false_2 by lia.
    unfold header_WriteAcquire. rewrite He.
    destruct (sem_wait_available _ _ Ho) as [k1 Hk1]. rewrite Hk1. simpl.
    destruct (sem_wait_available k1 (header_sem sem)) as [k2 Hk2].
    { eapply sem_wait_other; eauto. }
    rewrite Hk2. simpl.
    eexists _, _. split; [reflexivity |].
    unfold GetChannel. simpl. rewrite lookup_insert_eq. done.
  - intros Hover. unfold WriteAcquire, int64_add. rewrite Hc, Hw, Hn. simpl.
    rewrite bool_decide_eq_false_2; [done |]. unfold in_int64. lia.
Qed.

(** *** What a call does to the state *)

Lemma WriteAcquire_keeps m object_id ds md ms nr status data m' :
  WriteAcquire m object_id ds md ms nr = Returned (status, data, m') →
  keeps (λ c c', error_kept c c' ∧ reader_kept c c') object_id m m'.
Proof.
  unfold WriteAcquire. intros H. returned; try (by left).
  all: match goal with
       | H : header_WriteAcquire _ _ _ _ _ _ = _ |- _ =>
           apply header_WriteAcquire_returns in H
             as [(? & ? & ? & ?) | (? & ? & ? & ? & ? & ?)]
       end; simplify_eq.
  all: right; eexists _, _, _; split; [done |]; split; [| reflexivity].
  all: unfold error_kept, reader_kept; simpl; split; [congruence | done].
Qed.

Lemma WriteRelease_keeps m object_id status m' :
  WriteRelease m object_id = Returned (status, m') →
  keeps (λ c c', error_kept c c' ∧ reader_kept c c') object_id m m'.
Proof.
  unfold WriteRelease. intros H. returned; try (by left).
  all: match goal with
       | H : header_WriteRelease _ _ _ = _ |- _ =>
           apply header_WriteRelease_returns in H as (? & ? & ? & ?)
       end; simplify_eq.
  all: right; eexists _, _, _; split; [done |]; split; [| reflexivity].
  all: unfold error_kept, reader_kept; simpl; split; [congruence | done].
Qed.

Lemma SetError_returns m object_id status m' :
  SetError m object_id = Returned (status, m') →
  (status = NotRegistered ∧ GetChannel m object_id = None ∧ m' = m)
  ∨ (status = OK
     ∧ ∃ channel channel' k,
         GetChannel m object_id = Some channel
         ∧ is_Some (semaphores_ m !! object_id)
         ∧ has_error (header (mutable_object channel')) = true
         ∧ reader_registered channel' = false
         ∧ writer_registered channel' = false
         ∧ written channel' = written channel
         ∧ reader_kept channel channel'
         ∧ m' = set_channel object_id channel' (set_os k m)).
Proof.
  unfold SetError, GetSemaphores. intros H. returned; [| by left].
  match goal with
  | H : header_SetErrorUnlocked _ _ _ = _ |- _ =>
      apply header_SetErrorUnlocked_returns in H
  end.
  right. split; [done |].
  match goal with
  | Hc : GetChannel _ _ = Some ?c, Hh : has_error ?h = true |- _ =>
      exists c, (set_writer_registered false (set_reader_registered false (set_header h c)))
  end.
  eexists. split; [done |]. split; [by eexists |]. by repeat split.
Qed.

Lemma SetError_keeps m object_id status m' :
  SetError m object_id = Returned (status, m') →
  keeps (λ c c', error_kept c c' ∧ reader_kept c c') object_id m m'.
Proof.
  intros H. apply SetError_returns in H
    as [(_ & _ & ->) | (_ & c & c' & k & ? & ? & ? & ? & ? & ? & ? & ->)];
    [by left |].
  right. exists c, c', k. split; [done |]. split; [| done].
  split; [by intros _ | done].
Qed.

Lemma ReadAcquire_returns m object_id status result m' :
  ReadAcquire m object_id = Returned (status, result, m') →
  (status = NotRegistered ∧ GetChannel m object_id = None ∧ m' = m)
  ∨ ∃ channel channel' k,
      GetChannel m object_id = Some channel
      ∧ m' = set_channel object_id channel' (set_os k m)
      ∧ error_kept channel channel'
      ∧ lock channel = false ∧ lock channel' = true
      ∧ ((status = OK
          ∧ next_version_to_read channel ≤ next_version_to_read channel'
          ∧ 0 < next_version_to_read channel')
         ∨ (status = ChannelError
            ∧ next_version_to_read channel' = next_version_to_read channel)).
Proof.
  unfold ReadAcquire. intros H. returned; [| | by left].
  all: match goal with
       | H : header_ReadAcquire _ _ _ _ = _ |- _ =>
           apply header_ReadAcquire_returns in H
             as [(? & ? & ? & ?) | (? & ? & ? & ? & ? & ? & ?)]
       end; simplify_eq.
  all: right; eexists _, _, _; split; [done |]; split; [reflexivity |].
  all: unfold error_kept; simpl in *; split; [congruence |]; do 2 (split; [done |]).
  - by right.
  - left. split; [done |]. split; [done |].
    match goal with H : bool_decide _ = true |- _ => by apply bool_decide_eq_true_1 in H end.
Qed.

Lemma int64_add_returns a b c : int64_add a b = Returned c → c = a + b.
Proof. unfold int64_add. intros H. returned. done. Qed.

Lemma ReadRelease_returns m object_id status m' :
  ReadRelease m object_id = Returned (status, m') →
  (status = NotRegistered ∧ GetChannel m object_id = None ∧ m' = m)
  ∨ (status = OK
     ∧ ∃ channel channel' k,
         GetChannel m object_id = Some channel
         ∧ m' = set_channel object_id channel' (set_os k m)
         ∧ error_kept channel channel'
         ∧ lock channel' = false
         ∧ next_version_to_read channel' = next_version_to_read channel + 1).
Proof.
  unfold ReadRelease. intros H. returned; [| | by left].
  all: match goal with
       | H : header_ReadRelease _ _ _ _ = _ |- _ =>
           apply header_ReadRelease_returns in H as (? & ?)
       end; simplify_eq.
  match goal with H : int64_add _ _ = _ |- _ => apply int64_add_returns in H as -> end.
  right. split; [done |]. eexists _, _, _; split; [done |]; split; [reflexivity |].
  unfold error_kept; simpl. split; [congruence | done].
Qed.

Lemma OpenSemaphores_returns m object_id h m1 h1 :
  OpenSemaphores PSEMNAMLEN m object_id h = Returned (m1, h1) →
  channels_ m1 = channels_ m
  ∧ h1 = set_semaphores_created (semaphores_created h1) h
  ∧ ((m1 = m ∧ is_Some (semaphores_ m !! object_id))
     ∨ (semaphores_ m !! object_id = None
        ∧ ∃ sem, semaphores_ m1 = <[object_id := sem]> (semaphores_ m))).
Proof.
  unfold OpenSemaphores. case_bool_decide as Hs.
  - intros H. returned. split; [done |]. split; [by destruct h1 | by left].
  - intros H. assert (semaphores_ m !! object_id = None) as Hnone.
    { destruct (semaphores_ m !! object_id) eqn:E; [| done]. destruct Hs. by eexists. }
    returned; simpl; (split; [done |]);
      (split; [first [done | by destruct h1] | right; eauto]).
Qed.

Lemma RegisterChannel_returns m object_id object reader status m' :
  RegisterChannel PSEMNAMLEN m object_id object reader = Returned (status, m') →
  (status = Invalid ∧ m' = m)
  ∨ (status = OK
     ∧ ∃ c0 c',
         (GetChannel m object_id = Some c0
          ∨ (GetChannel m object_id = None ∧ ∃ o, object = Some o ∧ c0 = new_Channel o))
         ∧ c' = set_header
                  (set_semaphores_created
                     (semaphores_created (header (mutable_object c')))
                     (header (mutable_object c0)))
                  (set_registered reader true c0)
         ∧ channels_ m' = <[object_id := c']> (channels_ m)
         ∧ ((semaphores_ m' = semaphores_ m ∧ is_Some (semaphores_ m !! object_id))
            ∨ (semaphores_ m !! object_id = None
               ∧ ∃ sem, semaphores_ m' = <[object_id := sem]> (semaphores_ m)))).
Proof.
  unfold RegisterChannel, GetChannel. intros H.
  destruct (channels_ m !! object_id) as [c0 |] eqn:Hc; simpl in H.
  - returned; [by left |]. right. split; [done |].
    match goal with
    | H : OpenSemaphores _ _ _ _ = _ |- _ =>
        apply OpenSemaphores_returns in H as (Hch & Hh & Hsem)
    end.
    eexists c0, _. split; [by left |]. simpl.
    split; [| split; [by rewrite Hch |]].
    + rewrite Hh at 1. by destruct reader.
    + destruct Hsem as [[-> ?] | ?]; [by left | by right].
  - destruct object as [o |]; simpl in H; [| done].
    returned. right. split; [done |].
    match goal with
    | H : OpenSemaphores _ _ _ _ = _ |- _ =>
        apply OpenSemaphores_returns in H as (Hch & Hh & Hsem)
    end.
    eexists (new_Channel o), _. split; [right; eauto |]. simpl.
    split; [| split; [by rewrite Hch |]].
    + rewrite Hh at 1. by destruct reader.
    + destruct Hsem as [[-> ?] | ?]; [by left | by right].
Qed.

(** *** No call clears an error flag *)

Lemma error_kept_refl c : error_kept c c.
Proof. by intros ?. Qed.

Lemma evolves_refl m : evolves m m.
Proof.
  intros id. split; [done |]. intros c Hc. exists c. split; [done |].
  apply error_kept_refl.
Qed.

Lemma evolves_trans m1 m2 m3 : evolves m1 m2 → evolves m2 m3 → evolves m1 m3.
Proof.
  intros H12 H23 id. destruct (H12 id) as [Hs12 Hc12], (H23 id) as [Hs23 Hc23].
  split; [by auto |].
  intros c Hc. destruct (Hc12 c Hc) as (c2 & Hc2 & He12).
  destruct (Hc23 c2 Hc2) as (c3 & Hc3 & He23).
  exists c3. split; [done |]. unfold error_kept in *. auto.
Qed.

Lemma GetChannel_set_channel m object_id channel k id :
  GetChannel (set_channel object_id channel (set_os k m)) id
  = if decide (object_id = id) then Some channel else GetChannel m id.
Proof. unfold GetChannel, set_channel. simpl. apply lookup_insert. Qed.

Lemma keeps_evolves R object_id m m' :
  (∀ c c', R c c' → error_kept c c') → keeps R object_id m m' → evolves m m'.
Proof.
  intros HR [-> | (c & c' & k & Hc & Hcc & ->)]; [apply evolves_refl |].
  intros id. split; [done |]. intros c0 Hc0.
  rewrite GetChannel_set_channel. case_decide; simplify_eq.
  - exists c'. split; [done | by apply HR].
  - exists c0. split; [done | apply error_kept_refl].
Qed.

Lemma RegisterChannel_evolves m object_id object reader status m' :
  RegisterChannel PSEMNAMLEN m object_id object reader = Returned (status, m') →
  evolves m m'.
Proof.
  intros H. apply RegisterChannel_returns in H
    as [[_ ->] | (_ & c0 & c' & Hc0 & Hc' & Hch & Hsem)]; [apply evolves_refl |].
  intros id. split.
  - intros sem Hs. destruct Hsem as [[-> _] | (Hnone & sem' & ->)]; [done |].
    rewrite lookup_insert_ne; [done | congruence].
  - intros c Hc. unfold GetChannel in *. rewrite Hch, lookup_insert.
    case_decide; simplify_eq; [| exists c; split; [done | apply error_kept_refl]].
    exists c'. split; [done |].
    destruct Hc0 as [Hc0 | [Hc0 _]]; [| congruence].
    assert (c = c0) as -> by congruence.
    rewrite Hc'. unfold error_kept. by destruct reader.
Qed.

Lemma SetError_loop_evolves ids m status m' :
  SetError_loop ids m = Returned (status, m') → evolves m m'.
Proof.
  revert m. induction ids as [| id ids IH]; intros m H; simpl in H.
  - returned. apply evolves_refl.
  - returned.
    + match goal with H : SetError _ _ = _ |- _ => apply SetError_keeps in H end.
      eapply keeps_evolves; [| done]. by intros ? ? [? _].
    + match goal with H : SetError _ _ = _ |- _ => apply SetError_keeps in H end.
      eapply evolves_trans; [| by eapply IH].
      eapply keeps_evolves; [| done]. by intros ? ? [? _].
Qed.

Lemma ReadAcquire_keeps m object_id status result m' :
  ReadAcquire m object_id = Returned (status, result, m') →
  keeps error_kept object_id m m'.
Proof.
  intros H. apply ReadAcquire_returns in H
    as [(_ & _ & ->) | (c & c' & k & ? & -> & ? & _)]; [by left |].
  right. by exists c, c', k.
Qed.

Lemma ReadRelease_keeps m object_id status m' :
  ReadRelease m object_id = Returned (status, m') →
  keeps error_kept object_id m m'.
Proof.
  intros H. apply ReadRelease_returns in H
    as [(_ & _ & ->) | (_ & c & c' & k & ? & -> & ? & _)]; [by left |].
  right. by exists c, c', k.
Qed.

Lemma call_evolves m c status m' :
  call PSEMNAMLEN m c = Returned (status, m') → evolves m m'.
Proof.
  destruct c; simpl; intros H.
  - by eapply RegisterChannel_evolves.
  - returned. eapply keeps_evolves; [| by eapply WriteAcquire_keeps]. by intros ? ? [? _].
  - eapply keeps_evolves; [| by eapply WriteRelease_keeps]. by intros ? ? [? _].
  - returned. eapply keeps_evolves; [| by eapply ReadAcquire_keeps]. done.
  - eapply keeps_evolves; [| by eapply ReadRelease_keeps]. done.
  - eapply keeps_evolves; [| by eapply SetError_keeps]. by intros ? ? [? _].
  - by eapply SetError_loop_evolves.
Qed.

Lemma run_evolves calls m m' :
  run PSEMNAMLEN calls m = Returned m' → evolves m m'.
Proof.
  revert m. induction calls as [| c calls IH]; intros m H; simpl in H.
  - returned. apply evolves_refl.
  - returned. eapply evolves_trans; [by eapply call_evolves | by apply IH].
Qed.

Lemma evolves_in_error m m' object_id :
  evolves m m' → in_error m object_id → in_error m' object_id.
Proof.
  intros Hev (c & sem & Hc & Hs & He). destruct (Hev object_id) as [Hsem Hch].
  destruct (Hch c Hc) as (c' & Hc' & Hk). exists c', sem. auto.
Qed.

Lemma SetError_in_error m object_id m' :
  SetError m object_id = Returned (OK, m') → in_error m' object_id.
Proof.
  intros H. apply SetError_returns in H
    as [(? & _) | (_ & c & c' & k & Hc & [sem Hs] & He & _ & _ & _ & _ & ->)];
    [discriminate |].
  exists c', sem. rewrite GetChannel_set_channel. by rewrite decide_True.
Qed.

(** *** Acquiring after an error *)

Lemma WriteAcquire_error_returns m object_id channel ds md ms nr status data m' :
  GetChannel m object_id = Some channel →
  has_error (header (mutable_object channel)) = true →
  WriteAcquire m object_id ds md ms nr = Returned (status, data, m') →
  data = None
  ∧ (status = ChannelError
     ∨ (status = InvalidArgument
        ∧ allocated_size (mutable_object channel) < ds + ms)).
Proof.
  intros Hc He. unfold WriteAcquire. rewrite Hc. intros H. returned.
  { match goal with H : int64_add _ _ = _ |- _ => apply int64_add_returns in H as -> end.
    split; [done |]. right. split; [done |].
    match goal with H : bool_decide _ = true |- _ => by apply bool_decide_eq_true_1 in H end. }
  all: match goal with
       | H : header_WriteAcquire _ _ _ _ _ _ = _ |- _ =>
           apply header_WriteAcquire_returns in H
             as [(? & ? & ? & ?) | (? & ? & ? & ? & ? & ?)]
       end; simplify_eq; try congruence.
  by auto.
Qed.

Lemma ReadAcquire_error_returns m object_id channel status result m' :
  GetChannel m object_id = Some channel →
  has_error (header (mutable_object channel)) = true →
  ReadAcquire m object_id = Returned (status, result, m') →
  result = None ∧ status = ChannelError.
Proof.
  intros Hc He. unfold ReadAcquire. rewrite Hc. intros H. returned.
  all: match goal with
       | H : header_ReadAcquire _ _ _ _ = _ |- _ =>
           apply header_ReadAcquire_returns in H
             as [(? & ? & ? & ?) | (? & ? & ? & ? & ? & ? & ?)]
       end; simplify_eq; simpl in *; try congruence.
  done.
Qed.

(** C1, as the code has it: once [SetError(object_id)] has returned OK, the
    error flag of the header stays set through every later call, and no
    later acquire on the channel succeeds.  [SetError] clears the two
    registration flags, so an acquire right after it fails the [RAY_CHECK]
    on the flag of its role.  After later calls, an acquire that returns
    stores no result and returns [ChannelError], or, for [WriteAcquire] with
    sizes over [allocated_size], [InvalidArgument]; and it does return
    [ChannelError] when its role has been registered again, the sizes of a
    write fit and [written] is false, the reader mutex of a read is free. *)
Theorem SetError_sticky m object_id m1 calls m2 :
  SetError m object_id = Returned (OK, m1) →
  run PSEMNAMLEN calls m1 = Returned m2 →
  ∃ channel,
    GetChannel m2 object_id = Some channel
    ∧ has_error (header (mutable_object channel)) = true
    ∧ (calls = [] →
       (∀ ds md ms nr, WriteAcquire m2 object_id ds md ms nr = CheckFailed)
       ∧ ReadAcquire m2 object_id = CheckFailed)
    ∧ (∀ ds md ms nr status data m3,
         WriteAcquire m2 object_id ds md ms nr = Returned (status, data, m3) →
         data = None
         ∧ (status = ChannelError
            ∨ (status = InvalidArgument
               ∧ allocated_size (mutable_object channel) < ds + ms)))
    ∧ (∀ status result m3,
         ReadAcquire m2 object_id = Returned (status, result, m3) →
         result = None ∧ status = ChannelError)
    ∧ (∀ ds md ms nr,
         writer_registered channel = true → written channel = false →
         in_int64 (ds + ms) → ds + ms ≤ allocated_size (mutable_object channel) →
         WriteAcquire m2 object_id ds md ms nr = Returned (ChannelError, None, m2))
    ∧ (reader_registered channel = true → lock channel = false →
       ReadAcquire m2 object_id
       = Returned (ChannelError, None,
                   set_channel object_id (set_lock true channel) m2)).
Proof.
  intros Hset Hrun.
  pose proof (SetError_in_error _ _ _ Hset) as Herr.
  pose proof (evolves_in_error _ _ _ (run_evolves _ _ _ Hrun) Herr)
    as (c & sem & Hc & Hs & He).
  exists c. split; [done |]. split; [done |].
  split; [| split; [| split; [| split]]].
  - intros ->. simpl in Hrun. injection Hrun as <-.
    apply SetError_returns in Hset
      as [(? & _) | (_ & c0 & c' & k & _ & _ & _ & Hr & Hw & _ & _ & ->)];
      [discriminate |].
    rewrite GetChannel_set_channel, decide_True in Hc by done. simplify_eq.
    split.
    + intros. unfold WriteAcquire.
      rewrite GetChannel_set_channel, decide_True by done. by rewrite Hw.
    + unfold ReadAcquire.
      rewrite GetChannel_set_channel, decide_True by done. by rewrite Hr.
  - intros. by eapply WriteAcquire_error_returns.
  - intros. by eapply ReadAcquire_error_returns.
  - intros ds md ms nr Hw Hn Hrange Hfit.
    unfold WriteAcquire, int64_add, GetSemaphores. rewrite Hc, Hw, Hn, Hs. simpl.
    rewrite bool_decide_eq_true_2 by done. simpl.
    rewrite bool_decide_eq_false_2 by lia.
    unfold header_WriteAcquire. rewrite He. simpl.
    rewrite set_os_same, set_header_same. by rewrite set_channel_same.
  - intros Hr Hl.
    pose proof (ReadAcquire_with_error m2 object_id c sem Hc Hr Hl Hs He) as H.
    done.
Qed.

(** *** The two maps have the same keys *)

Lemma keeps_maps_agree R object_id m m' :
  keeps R object_id m m' → maps_agree m → maps_agree m'.
Proof.
  intros [-> | (c & c' & k & Hc & _ & ->)]; [done |].
  unfold maps_agree, GetChannel in *. simpl. intros <-.
  rewrite dom_insert_L. apply subseteq_union_1_L, singleton_subseteq_l.
  by eapply elem_of_dom_2.
Qed.

Lemma RegisterChannel_maps_agree m object_id object reader status m' :
  RegisterChannel PSEMNAMLEN m object_id object reader = Returned (status, m') →
  maps_agree m → maps_agree m'.
Proof.
  intros H Hdom. apply RegisterChannel_returns in H
    as [[_ ->] | (_ & c0 & c' & Hc0 & Hc' & Hch & Hsem)]; [done |].
  unfold maps_agree in *. rewrite Hch, dom_insert_L.
  destruct Hsem as [[-> Hs] | (Hnone & sem' & ->)].
  - rewrite Hdom. apply subseteq_union_1_L, singleton_subseteq_l.
    by apply elem_of_dom.
  - rewrite dom_insert_L. by rewrite Hdom.
Qed.

Lemma SetError_loop_maps_agree ids m status m' :
  SetError_loop ids m = Returned (status, m') → maps_agree m → maps_agree m'.
Proof.
  revert m. induction ids as [| id ids IH]; intros m H Hdom; simpl in H.
  - by returned.
  - returned;
      match goal with H : SetError _ _ = _ |- _ => apply SetError_keeps in H end.
    + by eapply keeps_maps_agree.
    + eapply IH; [done |]. by eapply keeps_maps_agree.
Qed.

Lemma call_maps_agree m c status m' :
  call PSEMNAMLEN m c = Returned (status, m') → maps_agree m → maps_agree m'.
Proof.
  destruct c; simpl; intros H.
  - by eapply RegisterChannel_maps_agree.
  - returned. eapply keeps_maps_agree. by eapply WriteAcquire_keeps.
  - eapply keeps_maps_agree. by eapply WriteRelease_keeps.
  - returned. eapply keeps_maps_agree. by eapply ReadAcquire_keeps.
  - eapply keeps_maps_agree. by eapply ReadRelease_keeps.
  - eapply keeps_maps_agree. by eapply SetError_keeps.
  - by eapply SetError_loop_maps_agree.
Qed.

Lemma empty_manager_maps_agree : maps_agree empty_manager.
Proof. unfold maps_agree. simpl. by rewrite !dom_empty_L. Qed.

(** Every state that a run from the empty manager reaches has the same keys
    in its two maps. *)
Lemma run_maps_agree calls m m' :
  run PSEMNAMLEN calls m = Returned m' → maps_agree m → maps_agree m'.
Proof.
  revert m. induction calls as [| c calls IH]; intros m H Hdom; simpl in H.
  - by returned.
  - returned. eapply IH; [done |]. by eapply call_maps_agree.
Qed.

(** *** The versions a reader sees *)

Lemma reader_kept_advances c c' : reader_kept c c' → reader_advances c c'.
Proof. intros [Hl Hv]. unfold reader_advances. rewrite Hl, Hv. split; [lia | auto]. Qed.

Lemma keeps_reads_above (R : Channel → Channel → Prop) object_id m m' id bound :
  (∀ c c', R c c' → reader_advances c c') →
  keeps R object_id m m' → reads_above bound m id → reads_above bound m' id.
Proof.
  intros HR [-> | (c & c' & k & Hc & Hcc & ->)]; [done |].
  unfold reads_above. rewrite GetChannel_set_channel.
  case_decide; [subst id | done]. rewrite Hc.
  apply HR in Hcc as [Hle Hlock]. intros [Hb Hfree]. split; [lia |].
  intros Hl. destruct (Hlock Hl) as [Hl' | Hlt]; [| lia].
  specialize (Hfree Hl'). lia.
Qed.

Lemma ReadAcquire_advances m object_id status result m' :
  ReadAcquire m object_id = Returned (status, result, m') →
  keeps reader_advances object_id m m'.
Proof.
  intros H. apply ReadAcquire_returns in H
    as [(_ & _ & ->) | (c & c' & k & ? & -> & _ & ? & Hl & Hv)]; [by left |].
  right. exists c, c', k. split; [done |]. split; [| done].
  split; [| congruence]. destruct Hv as [(_ & ? & _) | [_ ->]]; lia.
Qed.

Lemma ReadRelease_advances m object_id status m' :
  ReadRelease m object_id = Returned (status, m') →
  keeps reader_advances object_id m m'.
Proof.
  intros H. apply ReadRelease_returns in H
    as [(_ & _ & ->) | (_ & c & c' & k & ? & -> & _ & ? & Hv)]; [by left |].
  right. exists c, c', k. split; [done |]. split; [| done].
  split; [lia |]. intros _. right. lia.
Qed.

Lemma RegisterChannel_reads_above m object_id object reader status m' id bound :
  RegisterChannel PSEMNAMLEN m object_id object reader = Returned (status, m') →
  reads_above bound m id → reads_above bound m' id.
Proof.
  intros H. apply RegisterChannel_returns in H
    as [[_ ->] | (_ & c0 & c' & Hc0 & Hc' & Hch & _)]; [done |].
  unfold reads_above, GetChannel in *. rewrite Hch, lookup_insert.
  case_decide; [subst id | done].
  assert (lock c' = lock c0 ∧ next_version_to_read c' = next_version_to_read c0)
    as [-> ->] by (rewrite Hc'; by destruct reader).
  destruct Hc0 as [-> | (-> & o & _ & ->)]; [done |]. simpl. lia.
Qed.

Lemma SetError_loop_reads_above ids m status m' id bound :
  SetError_loop ids m = Returned (status, m') →
  reads_above bound m id → reads_above bound m' id.
Proof.
  revert m. induction ids as [| i ids IH]; intros m H Hb; simpl in H.
  - by returned.
  - returned;
      match goal with H : SetError _ _ = _ |- _ => apply SetError_keeps in H end.
    + eapply keeps_reads_above; [| done | done].
      intros ? ? [_ ?]. by apply reader_kept_advances.
    + eapply IH; [done |]. eapply keeps_reads_above; [| done | done].
      intros ? ? [_ ?]. by apply reader_kept_advances.
Qed.

Lemma call_reads_above m c status m' id bound :
  call PSEMNAMLEN m c = Returned (status, m') →
  reads_above bound m id → reads_above bound m' id.
Proof.
  destruct c; simpl; intros H.
  - by eapply RegisterChannel_reads_above.
  - returned. eapply keeps_reads_above; [| by eapply WriteAcquire_keeps].
    intros ? ? [_ ?]. by apply reader_kept_advances.
  - eapply keeps_reads_above; [| by eapply WriteRelease_keeps].
    intros ? ? [_ ?]. by apply reader_kept_advances.
  - returned. eapply keeps_reads_above; [| by eapply ReadAcquire_advances]. done.
  - eapply keeps_reads_above; [| by eapply ReadRelease_advances]. done.
  - eapply keeps_reads_above; [| by eapply SetError_keeps].
    intros ? ? [_ ?]. by apply reader_kept_advances.
  - by eapply SetError_loop_reads_above.
Qed.

(** A successful [ReadAcquire] reads a version above the bound, and makes
    that version the new bound. *)
Lemma ReadAcquire_reads_above m object_id result m' bound :
  ReadAcquire m object_id = Returned (OK, result, m') →
  reads_above bound m object_id →
  bound < version_of m' object_id
  ∧ 0 < version_of m' object_id
  ∧ version_of m object_id ≤ version_of m' object_id
  ∧ reads_above (version_of m' object_id) m' object_id.
Proof.
  intros H. apply ReadAcquire_returns in H
    as [(? & _) | (c & c' & k & Hc & -> & _ & Hl & Hl' & Hv)]; [discriminate |].
  destruct Hv as [(_ & Hle & Hpos) | [? _]]; [| discriminate].
  unfold reads_above, version_of. rewrite GetChannel_set_channel, decide_True by done.
  rewrite Hc. intros [Hb Hfree]. specialize (Hfree Hl).
  repeat split; try lia. congruence.
Qed.

Lemma versions_read_above object_id calls : ∀ m bound versions,
  reads_above bound m object_id →
  versions_read PSEMNAMLEN object_id calls m = Returned versions →
  Forall (λ v, bound < v ∧ 0 < v) versions ∧ StronglySorted Z.lt versions.
Proof.
  induction calls as [| c calls IH]; intros m bound versions Hb H; simpl in H.
  - returned. split; constructor.
  - apply bind_returns in H as ([status m1] & Hcall & H).
    apply bind_returns in H as (vs & Hvs & H). injection H as <-.
    pose proof (call_reads_above _ _ _ _ _ _ Hcall Hb) as Hb1.
    assert (Forall (λ v, bound < v ∧ 0 < v) vs ∧ StronglySorted Z.lt vs) as Hdefault.
    { by eapply IH. }
    destruct c; try done.
    destruct (bool_decide (object_id0 = object_id) && is_ok status) eqn:Hread;
      [| done].
    apply andb_true_iff in Hread as [Hid Hok].
    apply bool_decide_eq_true_1 in Hid as ->.
    apply bool_decide_eq_true_1 in Hok as ->.
    simpl in Hcall. apply bind_returns in Hcall as ([[st res] m2] & Hra & Hcall).
    injection Hcall as -> ->.
    destruct (ReadAcquire_reads_above _ _ _ _ _ Hra Hb) as (Hlt & Hpos & _ & Hb2).
    destruct (IH _ _ _ Hb2 Hvs) as [Hall Hsorted].
    split.
    + constructor; [done |]. eapply Forall_impl; [exact Hall |]. simpl. lia.
    + constructor; [done |]. eapply Forall_impl; [exact Hall |]. simpl. lia.
Qed.

Lemma reads_above_start m object_id :
  reads_above (Z.min 0 (version_of m object_id - 1)) m object_id.
Proof.
  unfold reads_above, version_of. destruct (GetChannel m object_id); lia.
Qed.

Lemma ReadRelease_version m object_id m' :
  ReadRelease m object_id = Returned (OK, m') →
  version_of m' object_id = version_of m object_id + 1.
Proof.
  intros H. apply ReadRelease_returns in H
    as [(? & _) | (_ & c & c' & k & Hc & -> & _ & _ & Hv)]; [discriminate |].
  unfold version_of. rewrite GetChannel_set_channel, decide_True by done.
  by rewrite Hc.
Qed.

(** A successful [ReadAcquire] stores in [next_version_to_read] the version
    that the header handed to it. *)
Lemma ReadAcquire_version_read m object_id result m' :
  ReadAcquire m object_id = Returned (OK, result, m') →
  header_version_read m object_id = Some (version_of m' object_id).
Proof.
  unfold ReadAcquire, header_version_read, GetSemaphores. intros H.
  destruct (GetChannel m object_id) as [c |] eqn:Hc; [| by simplify_eq].
  returned; try discriminate.
  match goal with
  | H : header_ReadAcquire _ _ _ _ = _ |- _ => simpl in H; rewrite H
  end.
  match goal with
  | H : negb (is_ok ?status) = false |- _ =>
      apply negb_false_iff, bool_decide_eq_true_1 in H; subst status
  end.
  unfold version_of. by rewrite GetChannel_set_channel, decide_True.
Qed.

Lemma versions_handed_out_read object_id calls : ∀ m versions,
  versions_handed_out PSEMNAMLEN object_id calls m = Returned versions →
  versions_read PSEMNAMLEN object_id calls m = Returned versions.
Proof.
  induction calls as [| c calls IH]; intros m versions H; simpl in *; [done |].
  apply bind_returns in H as ([status m1] & Hcall & H).
  apply bind_returns in H as (vs & Hvs & H). injection H as <-.
  rewrite Hcall. simpl. rewrite (IH _ _ Hvs). simpl. f_equal.
  destruct c; try done.
  destruct (bool_decide (object_id0 = object_id) && is_ok status) eqn:Hread; [| done].
  apply andb_true_iff in Hread as [Hid Hok].
  apply bool_decide_eq_true_1 in Hid as ->.
  apply bool_decide_eq_true_1 in Hok as ->.
  simpl in Hcall. apply bind_returns in Hcall as ([[st res] m2] & Hra & Hcall).
  injection Hcall as -> ->.
  by rewrite (ReadAcquire_version_read _ _ _ _ Hra).
Qed.

(** C6: along any run, the versions that the header hands to the successful
    calls of [ReadAcquire] on a channel are strictly increasing, and each of
    them is above 0.  A successful [ReadAcquire] is handed
    [next_version_to_read] or a later version and stores the version it was
    handed in [next_version_to_read], so that the versions handed out are
    the values that [next_version_to_read] has after these calls; a
    successful [ReadRelease] adds one to it. *)
Theorem versions_read_increasing object_id calls m versions :
  versions_handed_out PSEMNAMLEN object_id calls m = Returned versions →
  versions_read PSEMNAMLEN object_id calls m = Returned versions
  ∧ StronglySorted Z.lt versions
  ∧ Forall (λ v, 0 < v) versions
  ∧ (∀ m0 result m1,
       ReadAcquire m0 object_id = Returned (OK, result, m1) →
       ∃ version_read,
         header_version_read m0 object_id = Some version_read
         ∧ version_of m1 object_id = version_read
         ∧ version_of m0 object_id ≤ version_read
         ∧ 0 < version_read)
  ∧ (∀ m0 m1,
       ReadRelease m0 object_id = Returned (OK, m1) →
       version_of m1 object_id = version_of m0 object_id + 1).
Proof.
  intros H. apply versions_handed_out_read in H. split; [done |].
  destruct (versions_read_above _ _ _ _ _ (reads_above_start m object_id) H)
    as [Hall Hsorted].
  split; [done |]. split; [| split].
  - eapply Forall_impl; [exact Hall |]. simpl. tauto.
  - intros m0 result m1 Hra. exists (version_of m1 object_id).
    destruct (ReadAcquire_reads_above _ _ _ _ _ Hra (reads_above_start m0 object_id))
      as (_ & ? & ? & _).
    split; [by eapply ReadAcquire_version_read | done].
  - intros m0 m1 Hrr. by apply ReadRelease_version.
Qed.

(** *** A push from a remote writer *)

Lemma to_int64_uint64 z : 0 ≤ z ≤ INT64_MAX → to_int64 (to_uint64 z) = z.
Proof.
  unfold to_int64, to_uint64, INT64_MAX. intros H.
  rewrite (Z.mod_small z) by lia. rewrite Z.mod_small by lia. lia.
Qed.

Lemma to_uint64_small z : 0 ≤ z ≤ INT64_MAX → to_uint64 z = z.
Proof. unfold to_uint64, INT64_MAX. intros H. apply Z.mod_small. lia. Qed.

Lemma WriteAcquire_OK m object_id ds md ms nr data m' :
  WriteAcquire m object_id ds md ms nr = Returned (OK, data, m') →
  data = Some (mkSlice 0 ds)
  ∧ ∃ c', GetChannel m' object_id = Some c'
          ∧ data_size (header (mutable_object c')) = ds
          ∧ metadata_size (header (mutable_object c')) = ms.
Proof.
  unfold WriteAcquire. intros H. returned.
  all: match goal with
       | H : header_WriteAcquire _ _ _ _ _ _ = _ |- _ =>
           apply header_WriteAcquire_returns in H
             as [(? & ? & ? & ?) | (? & ? & ? & ? & ? & ?)]
       end; simplify_eq.
  all: split; [done |]; eexists; rewrite GetChannel_set_channel, decide_True by done.
  all: split; [reflexivity |]; done.
Qed.

Lemma write_slice_returns m object_id data src n m' c :
  GetChannel m object_id = Some c →
  write_slice m object_id data src n = Returned m' →
  ∃ c', GetChannel m' object_id = Some c'
    ∧ header (mutable_object c') = header (mutable_object c)
    ∧ buffer (mutable_object c')
      = take (Z.to_nat (slice_offset data)) (buffer (mutable_object c))
        ++ take (Z.to_nat n) src
        ++ drop (Z.to_nat (slice_offset data + n)) (buffer (mutable_object c)).
Proof.
  unfold write_slice, GetChannel. intros Hc. rewrite Hc. unfold memcpy. intros H.
  returned. eexists. unfold set_channel. simpl. rewrite lookup_insert_eq.
  split; [reflexivity |]. done.
Qed.

Lemma WriteRelease_payload m object_id status m' c :
  GetChannel m object_id = Some c →
  WriteRelease m object_id = Returned (status, m') →
  ∃ c', GetChannel m' object_id = Some c' ∧ payload c' = payload c.
Proof.
  intros Hc. unfold WriteRelease. rewrite Hc. intros H. returned.
  all: match goal with
       | H : header_WriteRelease _ _ _ = _ |- _ =>
           apply header_WriteRelease_returns in H as (? & ? & ? & ?)
       end; simplify_eq.
  eexists. rewrite GetChannel_set_channel, decide_True by done.
  split; [reflexivity |]. unfold payload. simpl. congruence.
Qed.

Lemma ReadAcquire_payload m object_id result m' c :
  GetChannel m object_id = Some c →
  ReadAcquire m object_id = Returned (OK, Some result, m') →
  ∃ c', GetChannel m' object_id = Some c'
    ∧ payload c' = payload c
    ∧ result = mkRayObject
                 (mkSlice 0 (data_size (header (mutable_object c))))
                 (mkSlice (data_size (header (mutable_object c)))
                    (metadata_size (header (mutable_object c)))).
Proof.
  intros Hc. unfold ReadAcquire. rewrite Hc. intros H. returned.
  match goal with
  | H : header_ReadAcquire _ _ _ _ = _ |- _ =>
      apply header_ReadAcquire_returns in H
        as [(? & ? & ? & ?) | (? & ? & ? & ? & ? & Hd & Hm)]
  end; simplify_eq. simpl in Hd, Hm.
  eexists. rewrite GetChannel_set_channel, decide_True by done.
  split; [reflexivity |]. unfold payload. simpl. rewrite Hd, Hm. done.
Qed.

(** C7: when [HandlePushMutableObject] has written a payload of [data_size]
    bytes [v] followed by [metadata_size] bytes [md] into the local channel
    that the object of the request is mapped to, the next [ReadAcquire] on
    that channel, if it succeeds, returns a data view that shows [v] and a
    metadata view that shows [md], of the sizes of the request. *)
Theorem push_then_read p request info v md p' result m' :
  cross_node_map_ p !! req_object_id request = Some info →
  req_data request = v ++ md →
  req_data_size request = Z.of_nat (length v) →
  req_metadata_size request = Z.of_nat (length md) →
  Z.of_nat (length v) + Z.of_nat (length md) ≤ INT64_MAX →
  HandlePushMutableObject p request = Returned p' →
  ReadAcquire (object_manager_ p') (local_object_id info)
  = Returned (OK, Some result, m') →
  ∃ channel,
    GetChannel m' (local_object_id info) = Some channel
    ∧ slice_bytes (buffer (mutable_object channel)) (GetData result) = v
    ∧ slice_bytes (buffer (mutable_object channel)) (GetMetadata result) = md
    ∧ slice_size (GetData result) = req_data_size request
    ∧ slice_size (GetMetadata result) = req_metadata_size request.
Proof.
  intros Hinfo Hdata Hds Hms Hsmall Hpush Hread.
  unfold HandlePushMutableObject in Hpush. rewrite Hinfo, Hds, Hms in Hpush.
  rewrite !to_int64_uint64 in Hpush by lia.
  rewrite !(to_uint64_small (Z.of_nat (length _))) in Hpush by lia.
  rewrite to_uint64_small in Hpush by lia.
  returned.
  repeat match goal with
         | H : RAY_CHECK_OK _ = Returned _ |- _ => apply RAY_CHECK_OK_returns in H as ->
         end.
  match goal with
  | H : WriteAcquire _ _ _ _ _ _ = _ |- _ =>
      apply WriteAcquire_OK in H as (Hslice & c1 & Hc1 & Hd1 & Hm1)
  end.
  injection Hslice as ->.
  match goal with
  | H : write_slice _ _ _ _ _ = _ |- _ =>
      eapply write_slice_returns in H as (c2 & Hc2 & Hh2 & Hb2); [| exact Hc1]
  end.
  match goal with
  | H : WriteRelease _ _ = _ |- _ =>
      eapply WriteRelease_payload in H as (c3 & Hc3 & Hp3); [| exact Hc2]
  end.
  simpl in Hread.
  eapply ReadAcquire_payload in Hread as (c4 & Hc4 & Hp4 & ->); [| exact Hc3].
  exists c4. split; [done |].
  unfold payload in *. simplify_eq. simpl in *.
  assert (data_size (header (mutable_object c3)) = Z.of_nat (length v)) as ->
    by congruence.
  assert (metadata_size (header (mutable_object c3)) = Z.of_nat (length md)) as ->
    by congruence.
  assert (buffer (mutable_object c4) = buffer (mutable_object c2)) as ->
    by congruence.
  rewrite Hb2, Hdata, Hds, Hms. unfold slice_bytes. simpl.
  rewrite <- Nat2Z.inj_add, !Nat2Z.id, <- length_app.
  unfold string_data. rewrite (take_app_length (v ++ md)).
  change (Z.to_nat 0) with 0%nat. rewrite drop_0, <- app_assoc.
  repeat split.
  - by rewrite take_app_length.
  - rewrite drop_app_length. by rewrite take_app_length.
Qed.

(** *** The first registration of an object *)

Lemma sem_open_create_fresh k name value :
  (String.length name ≤ PSEMNAMLEN)%nat →
  sem_name_valid name = true →
  sem_names k !! name = None →
  sem_open_create PSEMNAMLEN k name value
  = (Some (length (sem_values k)),
     mkKernel (<[name := length (sem_values k)]> (sem_names k)) (sem_values k ++ [value])).
Proof.
  intros Hlen Hvalid Hnone. unfold sem_open_create.
  rewrite bool_decide_eq_false_2 by lia. by rewrite Hvalid, Hnone.
Qed.

(** The prefix of a name has no slash and comes first, so the prefixed name
    is one that [sem_open] takes exactly when [unique_name] has no slash. *)
Lemma obj_name_valid name : sem_name_valid ("obj" +:+ name) = negb (has_slash name).
Proof. reflexivity. Qed.

Lemma hdr_name_valid name : sem_name_valid ("hdr" +:+ name) = negb (has_slash name).
Proof. reflexivity. Qed.

Lemma OpenSemaphores_creates m object_id h :
  semaphores_ m !! object_id = None →
  semaphores_created h = kUnitialized →
  (String.length (unique_name h) + 3 ≤ PSEMNAMLEN)%nat →
  has_slash (unique_name h) = false →
  let n := length (sem_values (os m)) in
  OpenSemaphores PSEMNAMLEN m object_id h
  = Returned
      (mkManager (channels_ m)
         (<[object_id := mkSemaphores n (S n)]> (semaphores_ m))
         (mkKernel
            (<["hdr" +:+ unique_name h := S n]>
               (<["obj" +:+ unique_name h := n]>
                  (delete ("obj" +:+ unique_name h)
                     (delete ("hdr" +:+ unique_name h) (sem_names (os m))))))
            (sem_values (os m) ++ [1; 1])),
       set_semaphores_created kDone h).
Proof.
  intros Hnone Hlevel Hlen Hslash n. unfold OpenSemaphores.
  rewrite bool_decide_eq_false_2 by (rewrite Hnone; by intros [? ?]).
  rewrite Hlevel. simpl.
  unfold GetSemaphoreName. simpl.
  rewrite bool_decide_eq_true_2 by lia. simpl.
  rewrite GetSemaphoreHeaderName_short, GetSemaphoreObjectName_short by lia. simpl.
  rewrite sem_open_create_fresh;
    [| rewrite obj_name_length; lia
     | by rewrite obj_name_valid, Hslash
     | simpl; apply lookup_delete_eq].
  rewrite sem_open_create_fresh;
    [| rewrite hdr_name_length; lia | by rewrite hdr_name_valid, Hslash |].
  - simpl. rewrite length_app. simpl.
    replace (length (sem_values (os m)) + 1)%nat with (S n) by (subst n; lia).
    rewrite <- app_assoc. subst n. simpl. reflexivity.
  - simpl. rewrite lookup_insert_ne by discriminate.
    rewrite lookup_delete_ne by discriminate. apply lookup_delete_eq.
Qed.

(** X1: the first registration of an object whose header nobody has
    initialised yet, and whose [unique_name] has no slash in it and fits
    [PSEMNAMLEN] with the prefix, creates the two semaphores, whatever
    semaphores of earlier runs are left under the two names: it returns OK,
    the channel starts with
    [next_version_to_read] 1, only the flag of the role set and the latch at
    [kDone], the two semaphores are new, have the value 1 each and are found
    under ["obj"] and ["hdr"] followed by [unique_name], and the values of the
    semaphores that were there before are as they were. *)
Theorem RegisterChannel_creates m object_id object reader :
  GetChannel m object_id = None →
  semaphores_ m !! object_id = None →
  semaphores_created (header object) = kUnitialized →
  (String.length (unique_name (header object)) + 3 ≤ PSEMNAMLEN)%nat →
  has_slash (unique_name (header object)) = false →
  ∃ m' channel sem,
    RegisterChannel PSEMNAMLEN m object_id (Some object) reader = Returned (OK, m')
    ∧ GetChannel m' object_id = Some channel
    ∧ next_version_to_read channel = 1
    ∧ registered reader channel = true
    ∧ registered (negb reader) channel = false
    ∧ written channel = false
    ∧ lock channel = false
    ∧ semaphores_created (header (mutable_object channel)) = kDone
    ∧ buffer (mutable_object channel) = buffer object
    ∧ semaphores_ m' !! object_id = Some sem
    ∧ object_sem sem ≠ header_sem sem
    ∧ sem_values (os m') !! object_sem sem = Some 1
    ∧ sem_values (os m') !! header_sem sem = Some 1
    ∧ sem_names (os m') !! ("obj" +:+ unique_name (header object)) = Some (object_sem sem)
    ∧ sem_names (os m') !! ("hdr" +:+ unique_name (header object)) = Some (header_sem sem)
    ∧ (∀ i v, sem_values (os m) !! i = Some v → sem_values (os m') !! i = Some v).
Proof.
  intros Hc Hs Hlevel Hlen Hslash. unfold GetChannel in Hc.
  unfold RegisterChannel. rewrite Hc. simpl.
  assert (header (mutable_object
            (if reader then set_reader_registered true (new_Channel object)
             else set_writer_registered true (new_Channel object))) = header object)
    as -> by (by destruct reader).
  rewrite OpenSemaphores_creates by done. simpl.
  eexists _, _, (mkSemaphores (length (sem_values (os m)))
                   (S (length (sem_values (os m))))).
  split; [reflexivity |].
  unfold GetChannel. simpl. rewrite !lookup_insert_eq.
  split; [reflexivity |].
  assert (∀ l : list Z, (l ++ [1; 1]) !! length l = Some 1
                        ∧ (l ++ [1; 1]) !! S (length l) = Some 1) as Hnew.
  { intros l. split; [by apply list_lookup_middle |].
    rewrite lookup_app_r by lia.
    by replace (S (length l) - length l)%nat with 1%nat by lia. }
  destruct (Hnew (sem_values (os m))) as [Hobj Hhdr].
  destruct reader; simpl; repeat split; try done; try lia.
  all: try (rewrite lookup_insert_ne by discriminate; apply lookup_insert_eq).
  all: intros i v Hi; by apply lookup_app_l_Some.
Qed.

(** X2: the registration of an object whose header another process has
    initialised, or is initialising.  With the latch at [kDone] it opens the
    two semaphores that are there under the names of the object, and leaves
    the header and the semaphores of the operating system as they are; if
    one of the two names is not there, it fails the [RAY_CHECK] on
    [SEM_FAILED].  With the latch at [kInitializing] it waits. *)
Theorem RegisterChannel_attaches m object_id object reader :
  GetChannel m object_id = None →
  semaphores_ m !! object_id = None →
  (String.length (unique_name (header object)) ≤ PSEMNAMLEN)%nat →
  let obj_name := "obj" +:+ unique_name (header object) in
  let hdr_name := "hdr" +:+ unique_name (header object) in
  (semaphores_created (header object) = kInitializing →
   RegisterChannel PSEMNAMLEN m object_id (Some object) reader = Blocks)
  ∧ (semaphores_created (header object) = kDone →
     (∀ object_sem header_sem,
        sem_names (os m) !! obj_name = Some object_sem →
        sem_names (os m) !! hdr_name = Some header_sem →
        RegisterChannel PSEMNAMLEN m object_id (Some object) reader
        = Returned (OK,
            mkManager
              (<[object_id := set_registered reader true (new_Channel object)]>
                 (channels_ m))
              (<[object_id := mkSemaphores object_sem header_sem]> (semaphores_ m))
              (os m)))
     ∧ (sem_names (os m) !! obj_name = None ∨ sem_names (os m) !! hdr_name = None →
        RegisterChannel PSEMNAMLEN m object_id (Some object) reader = CheckFailed)).
Proof.
  intros Hc Hs Hlen obj_name hdr_name. unfold GetChannel in Hc.
  assert (∀ level, semaphores_created (header object) = level →
          level ≠ kUnitialized →
          RegisterChannel PSEMNAMLEN m object_id (Some object) reader
          = (if bool_decide (level = kDone)
             then match sem_names (os m) !! obj_name, sem_names (os m) !! hdr_name with
                  | Some object_sem, Some header_sem =>
                      Returned (OK,
                        mkManager
                          (<[object_id := set_registered reader true (new_Channel object)]>
                             (channels_ m))
                          (<[object_id := mkSemaphores object_sem header_sem]>
                             (semaphores_ m))
                          (os m))
                  | _, _ => CheckFailed
                  end
             else Blocks)) as Hgen.
  { intros level Hlevel Hne. unfold RegisterChannel. rewrite Hc. simpl.
    assert (header (mutable_object
              (if reader then set_reader_registered true (new_Channel object)
               else set_writer_registered true (new_Channel object))) = header object)
      as -> by (by destruct reader).
    unfold OpenSemaphores. cbv zeta.
    rewrite bool_decide_eq_false_2 by (rewrite Hs; by intros [? ?]).
    rewrite !Hlevel. rewrite !(bool_decide_eq_false_2 (level = kUnitialized)) by done.
    unfold GetSemaphoreName. rewrite (bool_decide_eq_true_2 _ Hlen).
    rewrite !Hlevel. destruct (bool_decide (level = kDone)); [| done]. simpl.
    rewrite GetSemaphoreHeaderName_short, GetSemaphoreObjectName_short by done.
    simpl. fold obj_name hdr_name.
    destruct (sem_names (os m) !! obj_name), (sem_names (os m) !! hdr_name);
      simpl; try done.
    do 3 f_equal. unfold set_channel. simpl. do 2 f_equal.
    by destruct reader, object as [? [] ?]. }
  split; [| split].
  - intros Hlevel. by rewrite (Hgen _ Hlevel).
  - intros object_sem header_sem Ho Hh.
    rewrite (Hgen _ H) by done. by rewrite Ho, Hh.
  - intros Hnone. rewrite (Hgen _ H) by done. simpl.
    destruct Hnone as [-> | Hh]; [done |]. rewrite Hh. by case_match.
Qed.

(** *** Invariants of the two maps *)

(** X3: in every state that a run from the empty manager reaches, an object
    has a channel exactly when it has a pair of semaphores; so every
    operation on a registered object finds its semaphores, and
    [GetSemaphores] does not fail its [RAY_CHECK] there. *)
Theorem registered_objects_have_semaphores calls m object_id :
  run PSEMNAMLEN calls empty_manager = Returned m →
  (is_Some (GetChannel m object_id) ↔ is_Some (semaphores_ m !! object_id))
  ∧ (is_Some (GetChannel m object_id) → ∃ sem, GetSemaphores m object_id = Returned sem).
Proof.
  intros Hrun.
  pose proof (run_maps_agree _ _ _ Hrun empty_manager_maps_agree) as Hdom.
  unfold maps_agree, GetChannel in *.
  assert (is_Some (channels_ m !! object_id) ↔ is_Some (semaphores_ m !! object_id))
    as Hiff by (by rewrite <- !elem_of_dom, Hdom).
  split; [done |].
  intros Hc. apply Hiff in Hc as [sem Hs]. exists sem.
  unfold GetSemaphores. by rewrite Hs.
Qed.

(** *** Pairs of acquire and release *)

Lemma WriteAcquire_OK_written m object_id ds md ms nr data m' :
  WriteAcquire m object_id ds md ms nr = Returned (OK, data, m') →
  ∃ c c', GetChannel m object_id = Some c
    ∧ written c = false
    ∧ GetChannel m' object_id = Some c'
    ∧ writer_registered c' = true
    ∧ written c' = true
    ∧ allocated_size (mutable_object c') = allocated_size (mutable_object c)
    ∧ ds + ms ≤ allocated_size (mutable_object c).
Proof.
  unfold WriteAcquire. intros H. returned.
  all: match goal with H : int64_add _ _ = _ |- _ => apply int64_add_returns in H as -> end.
  all: match goal with
       | H : bool_decide _ = false |- _ => apply bool_decide_eq_false_1 in H
       end.
  all: match goal with H : negb _ = true |- _ => apply negb_true_iff in H end.
  all: eexists _, _; split; [done |]; split; [done |].
  all: rewrite GetChannel_set_channel, decide_True by done.
  all: split; [reflexivity |]; simpl; repeat split; try done; lia.
Qed.

(** X4: the [written] flag pairs [WriteAcquire] with [WriteRelease].  After
    a [WriteAcquire] that returned OK the sizes are within [allocated_size],
    a second [WriteAcquire] on the object fails the [RAY_CHECK] on
    [written], whatever its arguments; a [WriteRelease] that returns OK
    clears the flag, and a second [WriteRelease] fails the [RAY_CHECK]. *)
Theorem WriteAcquire_WriteRelease_pair m object_id ds md ms nr data m1 :
  WriteAcquire m object_id ds md ms nr = Returned (OK, data, m1) →
  (∃ c, GetChannel m object_id = Some c ∧ ds + ms ≤ allocated_size (mutable_object c))
  ∧ (∀ ds' md' ms' nr', WriteAcquire m1 object_id ds' md' ms' nr' = CheckFailed)
  ∧ (∀ m2, WriteRelease m1 object_id = Returned (OK, m2) →
       WriteRelease m2 object_id = CheckFailed
       ∧ ∃ c2, GetChannel m2 object_id = Some c2 ∧ written c2 = false).
Proof.
  intros H. apply WriteAcquire_OK_written in H
    as (c & c1 & Hc & _ & Hc1 & Hw & Hwr & _ & Hfit).
  split; [by eauto |]. split.
  - intros. unfold WriteAcquire. by rewrite Hc1, Hw, Hwr.
  - intros m2. unfold WriteRelease at 1. rewrite Hc1, Hw, Hwr. simpl. intros H.
    returned; [discriminate |]. split.
    + unfold WriteRelease. rewrite GetChannel_set_channel, decide_True by done.
      simpl. by rewrite Hw.
    + eexists. rewrite GetChannel_set_channel, decide_True by done. by split.
Qed.

Lemma ReadAcquire_OK_result m object_id result m1 :
  ReadAcquire m object_id = Returned (OK, result, m1) →
  ∃ c1,
    GetChannel m1 object_id = Some c1
    ∧ reader_registered c1 = true
    ∧ lock c1 = true
    ∧ result = Some (mkRayObject
                       (mkSlice 0 (data_size (header (mutable_object c1))))
                       (mkSlice (data_size (header (mutable_object c1)))
                          (metadata_size (header (mutable_object c1)))))
    ∧ to_int64 (to_uint64 (data_size (header (mutable_object c1))
                           + metadata_size (header (mutable_object c1))))
      ≤ allocated_size (mutable_object c1).
Proof.
  unfold ReadAcquire. intros H. returned; try discriminate.
  eexists. rewrite GetChannel_set_channel, decide_True by done.
  split; [reflexivity |]. simpl. repeat split; try done.
  match goal with
  | H : bool_decide (to_int64 _ ≤ _) = true |- _ => by apply bool_decide_eq_true_1 in H
  end.
Qed.

Lemma ReadAcquire_OK_blocks m object_id result m1 :
  ReadAcquire m object_id = Returned (OK, result, m1) →
  ReadAcquire m1 object_id = Blocks.
Proof.
  intros H. apply ReadAcquire_OK_result in H as (c1 & Hc1 & Hr & Hl & _).
  unfold ReadAcquire. by rewrite Hc1, Hr, Hl.
Qed.

(** X5: the reader mutex lets one read at a time into a channel.  After a
    [ReadAcquire] that returned OK, a second [ReadAcquire] on the object
    waits for the mutex; a [ReadRelease] that returns OK leaves the mutex
    free. *)
Theorem ReadAcquire_excludes m object_id result m1 :
  ReadAcquire m object_id = Returned (OK, result, m1) →
  ReadAcquire m1 object_id = Blocks
  ∧ (∀ m2, ReadRelease m1 object_id = Returned (OK, m2) →
       ∃ c2, GetChannel m2 object_id = Some c2 ∧ lock c2 = false).
Proof.
  intros H. split; [by eapply ReadAcquire_OK_blocks |].
  intros m2 Hrel. apply ReadRelease_returns in Hrel
    as [(? & _) | (_ & c & c' & k & _ & -> & _ & ? & _)]; [discriminate |].
  exists c'. by rewrite GetChannel_set_channel, decide_True.
Qed.

(** X6: what a successful [ReadAcquire] hands out.  The result is always
    set; the data view starts at offset 0 and the metadata view starts where
    the data view ends; and when the two sizes in the header are not
    negative and their sum fits [int64_t], the end of the metadata view is
    within [allocated_size], by the [RAY_CHECK] on the total size. *)
Theorem ReadAcquire_views m object_id result m1 :
  ReadAcquire m object_id = Returned (OK, result, m1) →
  ∃ object c1,
    result = Some object
    ∧ GetChannel m1 object_id = Some c1
    ∧ slice_offset (GetData object) = 0
    ∧ slice_offset (GetMetadata object) = slice_size (GetData object)
    ∧ slice_size (GetData object) = data_size (header (mutable_object c1))
    ∧ slice_size (GetMetadata object) = metadata_size (header (mutable_object c1))
    ∧ (0 ≤ slice_size (GetData object) →
       0 ≤ slice_size (GetMetadata object) →
       slice_size (GetData object) + slice_size (GetMetadata object) ≤ INT64_MAX →
       slice_offset (GetMetadata object) + slice_size (GetMetadata object)
       ≤ allocated_size (mutable_object c1)).
Proof.
  intros H. apply ReadAcquire_OK_result in H as (c1 & Hc1 & _ & _ & -> & Hcheck).
  eexists _, c1. split; [reflexivity |]. split; [done |]. simpl. repeat split.
  intros Hd Hm Hsum. rewrite to_int64_uint64 in Hcheck by lia. done.
Qed.

(** *** A value handed from the writer to a reader *)

Lemma memcpy_returns dst off src n bytes :
  memcpy dst off src n = Returned bytes →
  0 ≤ off ∧ 0 ≤ n ∧ off + n ≤ Z.of_nat (length dst) ∧ n ≤ Z.of_nat (length src)
  ∧ bytes = take (Z.to_nat off) dst ++ take (Z.to_nat n) src
            ++ drop (Z.to_nat (off + n)) dst.
Proof.
  unfold memcpy. intros H. returned.
  match goal with
  | H : bool_decide _ = true |- _ => apply bool_decide_eq_true_1 in H as (? & ? & ? & ?)
  end.
  done.
Qed.

Lemma int64_add_range a b c : int64_add a b = Returned c → c = a + b ∧ in_int64 (a + b).
Proof.
  unfold int64_add. case_bool_decide; intros Heq; [| discriminate].
  injection Heq as <-. done.
Qed.

Lemma WriteAcquire_OK_metadata m object_id ds md ms nr data m' :
  WriteAcquire m object_id ds (Some md) ms nr = Returned (OK, data, m') →
  ∃ c c', GetChannel m object_id = Some c
    ∧ GetChannel m' object_id = Some c'
    ∧ data = Some (mkSlice 0 ds)
    ∧ data_size (header (mutable_object c')) = ds
    ∧ metadata_size (header (mutable_object c')) = ms
    ∧ in_int64 (ds + ms)
    ∧ 0 ≤ ds
    ∧ ds + to_uint64 ms ≤ Z.of_nat (length (buffer (mutable_object c)))
    ∧ to_uint64 ms ≤ Z.of_nat (length md)
    ∧ buffer (mutable_object c')
      = take (Z.to_nat ds) (buffer (mutable_object c))
        ++ take (Z.to_nat (to_uint64 ms)) md
        ++ drop (Z.to_nat (ds + to_uint64 ms)) (buffer (mutable_object c)).
Proof.
  unfold WriteAcquire. intros H.
  destruct (GetChannel m object_id) as [c |] eqn:Hc; [| discriminate].
  returned; try discriminate.
  match goal with
  | H : header_WriteAcquire _ _ _ _ _ _ = _ |- _ =>
      apply header_WriteAcquire_returns in H
        as [(? & ? & ? & ?) | (? & ? & ? & ? & ? & ?)]
  end; subst;
    [match goal with H : negb (is_ok ChannelError) = false |- _ => discriminate H end |].
  match goal with
  | H : memcpy _ _ _ _ = _ |- _ => apply memcpy_returns in H as (? & ? & ? & ? & ->)
  end.
  match goal with
  | H : int64_add _ _ = Returned _ |- _ => apply int64_add_range in H as [-> Hrange]
  end.
  simpl in *. rewrite ?Z.add_0_l in *. destruct Hrange as [Hlow Hhigh].
  eexists _, _. split; [reflexivity |].
  rewrite GetChannel_set_channel, decide_True by done.
  split; [reflexivity |]. simpl. rewrite ?Z.add_0_l.
  repeat split; try done; lia.
Qed.

(** X7: what the writer puts into a version is what a reader gets out of
    it.  When [WriteAcquire] is given [length md] bytes of metadata [md] and
    returns OK, the writer fills the data view it got with the bytes [v],
    and [WriteRelease] returns, then a [ReadAcquire] that succeeds next on
    the object returns a data view that shows [v] and a metadata view that
    shows [md]. *)
Theorem write_then_read m object_id v md nr data m1 m2 status m3 result m4 :
  WriteAcquire m object_id (Z.of_nat (length v)) (Some md) (Z.of_nat (length md)) nr
  = Returned (OK, Some data, m1) →
  write_slice m1 object_id data v (Z.of_nat (length v)) = Returned m2 →
  WriteRelease m2 object_id = Returned (status, m3) →
  ReadAcquire m3 object_id = Returned (OK, Some result, m4) →
  ∃ c,
    GetChannel m4 object_id = Some c
    ∧ slice_bytes (buffer (mutable_object c)) (GetData result) = v
    ∧ slice_bytes (buffer (mutable_object c)) (GetMetadata result) = md.
Proof.
  intros Hwa Hfill Hwr Hra.
  apply WriteAcquire_OK_metadata in Hwa
    as (c & c1 & Hc & Hc1 & Hdata & Hd1 & Hm1 & Hrange & _ & Hfit & _ & Hb1).
  injection Hdata as ->.
  eapply write_slice_returns in Hfill as (c2 & Hc2 & Hh2 & Hb2); [| exact Hc1].
  eapply WriteRelease_payload in Hwr as (c3 & Hc3 & Hp3); [| exact Hc2].
  eapply ReadAcquire_payload in Hra as (c4 & Hc4 & Hp4 & ->); [| exact Hc3].
  exists c4. split; [done |].
  unfold payload in *. simplify_eq. simpl in *.
  assert (to_uint64 (Z.of_nat (length md)) = Z.of_nat (length md)) as Hu.
  { apply to_uint64_small. unfold in_int64, INT64_MIN, INT64_MAX in *. lia. }
  rewrite Hu in *.
  assert (data_size (header (mutable_object c3)) = Z.of_nat (length v)) as ->
    by congruence.
  assert (metadata_size (header (mutable_object c3)) = Z.of_nat (length md)) as ->
    by congruence.
  assert (buffer (mutable_object c4) = buffer (mutable_object c2)) as ->
    by congruence.
  rewrite Hb2, Hb1. unfold slice_bytes. simpl.
  change (Z.to_nat 0) with 0%nat. rewrite drop_0. simpl.
  rewrite !Nat2Z.id. rewrite (take_ge v) by done. rewrite (take_ge md) by done.
  rewrite (drop_app_length' (take (length v) (buffer (mutable_object c)))).
  - split; [by rewrite take_app_length |].
    rewrite drop_app_length. by rewrite take_app_length.
  - rewrite length_take. lia.
Qed.

(** *** [SetError()] on all channels *)

Lemma SetError_closes m object_id status m' :
  SetError m object_id = Returned (status, m') →
  is_Some (GetChannel m object_id) →
  status = OK
  ∧ semaphores_ m' = semaphores_ m
  ∧ (∃ c', GetChannel m' object_id = Some c' ∧ closed c')
  ∧ (∀ id, id ≠ object_id → GetChannel m' id = GetChannel m id)
  ∧ (∀ id, is_Some (GetChannel m' id) ↔ is_Some (GetChannel m id)).
Proof.
  intros H [c0 Hc0]. apply SetError_returns in H
    as [(_ & Hnone & _) | (-> & c & c' & k & Hc & _ & He & Hr & Hw & _ & _ & ->)];
    [congruence |].
  split; [done |]. split; [done |]. split; [| split].
  - exists c'. rewrite GetChannel_set_channel, decide_True by done. by repeat split.
  - intros id Hne. rewrite GetChannel_set_channel. by rewrite decide_False.
  - intros id. rewrite GetChannel_set_channel. case_decide; [subst id | done].
    rewrite Hc. split; by eauto.
Qed.

Lemma SetError_loop_closes ids : ∀ m status m',
  SetError_loop ids m = Returned (status, m') →
  (∀ id, id ∈ ids → is_Some (GetChannel m id)) →
  status = OK
  ∧ semaphores_ m' = semaphores_ m
  ∧ (∀ id, is_Some (GetChannel m' id) ↔ is_Some (GetChannel m id))
  ∧ (∀ id c', GetChannel m' id = Some c' →
       id ∈ ids ∨ (∃ c, GetChannel m id = Some c ∧ closed c) → closed c').
Proof.
  induction ids as [| i ids IH]; intros m status m' H Hin; simpl in H.
  - returned. split; [done |]. split; [done |]. split; [done |].
    intros id c' Hc' [Hid | (c & Hc & Hclosed)]; [by apply elem_of_nil in Hid |].
    congruence.
  - apply bind_returns in H as ([ret m1] & Hset & H).
    apply SetError_closes in Hset
      as (-> & Hsem1 & (c1 & Hc1 & Hclosed1) & Hother & Hdom);
      [| apply Hin; by left].
    simpl in H. apply IH in H as (-> & Hsem & Hdom' & Hall).
    + split; [done |]. split; [congruence |]. split.
      * intros id. by rewrite Hdom', Hdom.
      * intros id c' Hc' Hcase. apply (Hall id c' Hc').
        destruct (decide (id = i)) as [-> | Hne]; [right; by eauto |].
        destruct Hcase as [Hid | (c & Hc & Hclosed)].
        -- left. apply elem_of_cons in Hid as [? | ?]; [done | done].
        -- right. exists c. rewrite Hother by done. done.
    + intros id Hid. apply Hdom, Hin. by right.
Qed.

Lemma sem_post_available k sem s : sem_available k s → sem_available (sem_post k sem) s.
Proof.
  intros (v & Hv & Hpos). unfold sem_post.
  destruct (sem_values k !! sem) as [w |] eqn:Hw; [| by exists v].
  unfold sem_available. simpl.
  destruct (decide (sem = s)) as [-> | Hne].
  - exists (w + 1). rewrite list_lookup_insert_eq by (by eapply lookup_lt_Some).
    split; [done |]. simplify_eq. lia.
  - exists v. by rewrite list_lookup_insert_ne.
Qed.

Lemma sem_post_n_available n : ∀ k sem s,
  sem_available k s → sem_available (sem_post_n n k sem) s.
Proof.
  induction n as [| n IH]; intros k sem s H; simpl; [done |].
  by apply IH, sem_post_available.
Qed.

Lemma sem_wait_post_available k sem k1 s :
  sem_wait k sem = Returned k1 → sem_available k s →
  sem_available (sem_post k1 sem) s.
Proof.
  unfold sem_wait. intros H (v & Hv & Hpos). returned.
  unfold sem_post, sem_available. simpl.
  match goal with H : sem_values k !! sem = Some ?w |- _ => rename H into Hw end.
  rewrite list_lookup_insert_eq by (by eapply lookup_lt_Some). simpl.
  rewrite list_insert_insert_eq.
  destruct (decide (sem = s)) as [-> | Hne].
  - rewrite list_lookup_insert_eq by (by eapply lookup_lt_Some).
    eexists. split; [done |]. simplify_eq. lia.
  - exists v. by rewrite list_lookup_insert_ne.
Qed.

Lemma header_SetErrorUnlocked_available h sem k :
  sem_available k (header_sem sem) →
  ∃ h' k', header_SetErrorUnlocked h sem k = Returned (h', k')
    ∧ ∀ s, sem_available k s → sem_available k' s.
Proof.
  intros Hfree. unfold header_SetErrorUnlocked.
  destruct (has_error h); [by eauto |].
  destruct (sem_wait_available _ _ Hfree) as [k1 Hk1]. rewrite Hk1. simpl.
  eexists _, _. split; [reflexivity |].
  intros s Hs. apply sem_post_n_available with (n := S _).
  by eapply sem_wait_post_available.
Qed.

Lemma SetError_loop_returns ids : ∀ m,
  (∀ id, id ∈ ids → is_Some (GetChannel m id) ∧ is_Some (semaphores_ m !! id)) →
  header_sems_free m →
  ∃ m', SetError_loop ids m = Returned (OK, m').
Proof.
  induction ids as [| i ids IH]; intros m Hin Hfree; simpl; [by eauto |].
  destruct (Hin i) as [[c Hc] [sem Hs]]; [by left |].
  destruct (header_SetErrorUnlocked_available (header (mutable_object c)) sem (os m))
    as (h' & k' & Hh & Hk); [by eapply Hfree |].
  unfold SetError at 1, GetSemaphores. rewrite Hc, Hs. simpl. rewrite Hh. simpl.
  apply IH.
  - intros id Hid. rewrite GetChannel_set_channel. simpl.
    destruct (Hin id) as [? ?]; [by right |].
    split; [case_decide; by eauto | done].
  - intros id sem' Hs'. simpl in *. apply Hk. by eapply Hfree.
Qed.

Lemma SetErrorAll_keys m id :
  id ∈ (map_to_list (channels_ m)).*1 ↔ is_Some (GetChannel m id).
Proof.
  unfold GetChannel. rewrite list_elem_of_fmap. split.
  - intros ([i c] & -> & Hin). apply elem_of_map_to_list in Hin. by eexists.
  - intros [c Hc]. exists (id, c). split; [done |]. by apply elem_of_map_to_list.
Qed.

Lemma SetErrorAll_returns_closed m status m' :
  SetErrorAll m = Returned (status, m') →
  status = OK
  ∧ (∀ id, is_Some (GetChannel m' id) ↔ is_Some (GetChannel m id))
  ∧ (∀ id c', GetChannel m' id = Some c' → closed c').
Proof.
  intros H. unfold SetErrorAll in H.
  apply SetError_loop_closes in H as (-> & _ & Hdom & Hall);
    [| intros id Hid; by apply SetErrorAll_keys].
  split; [done |]. split; [done |].
  intros id c' Hc'. apply (Hall id c' Hc'). left.
  apply SetErrorAll_keys, Hdom. by eexists.
Qed.

(** X8: [SetError()] closes every channel of the manager.  In a state in
    which every channel has its semaphores and every header semaphore can be
    taken, it returns OK; and whenever it returns, the status is OK, no
    channel was added or removed, and every channel has the error flag of
    its header set and neither role registered. *)
Theorem SetErrorAll_closes m :
  (maps_agree m → header_sems_free m → ∃ m', SetErrorAll m = Returned (OK, m'))
  ∧ (∀ status m',
       SetErrorAll m = Returned (status, m') →
       status = OK
       ∧ (∀ id, is_Some (GetChannel m' id) ↔ is_Some (GetChannel m id))
       ∧ (∀ id c', GetChannel m' id = Some c' → closed c')).
Proof.
  split.
  - intros Hdom Hfree. apply SetError_loop_returns; [| done].
    intros id Hid. apply SetErrorAll_keys in Hid. split; [done |].
    destruct Hid as [c Hc]. destruct (maps_agree_Some _ _ _ Hdom Hc). by eexists.
  - apply SetErrorAll_returns_closed.
Qed.

(** *** What a call leaves alone *)

Lemma keeps_frame R object_id m m' id :
  keeps R object_id m m' → id ≠ object_id →
  GetChannel m' id = GetChannel m id ∧ semaphores_ m' !! id = semaphores_ m !! id.
Proof.
  intros [-> | (c & c' & k & _ & _ & ->)] Hne; [done |].
  rewrite GetChannel_set_channel. by rewrite decide_False.
Qed.

(** X9: a call about one object leaves every other object as it is: its
    channel, with the buffer, the flags and [next_version_to_read], and its
    pair of semaphores. *)
Theorem call_frame m c status m' object_id id :
  call PSEMNAMLEN m c = Returned (status, m') →
  call_object c = Some object_id →
  id ≠ object_id →
  GetChannel m' id = GetChannel m id
  ∧ semaphores_ m' !! id = semaphores_ m !! id.
Proof.
  intros H Hobj Hne. destruct c; simpl in *; simplify_eq.
  - apply RegisterChannel_returns in H
      as [[_ ->] | (_ & c0 & c' & _ & _ & Hch & Hsem)]; [done |].
    unfold GetChannel. rewrite Hch, lookup_insert_ne by done. split; [done |].
    destruct Hsem as [[-> _] | (_ & sem & ->)]; [done |].
    by rewrite lookup_insert_ne.
  - returned. eapply keeps_frame; [by eapply WriteAcquire_keeps | done].
  - eapply keeps_frame; [by eapply WriteRelease_keeps | done].
  - returned. eapply keeps_frame; [by eapply ReadAcquire_keeps | done].
  - eapply keeps_frame; [by eapply ReadRelease_keeps | done].
  - eapply keeps_frame; [by eapply SetError_keeps | done].
Qed.

(** *** [next_version_to_read] over a run *)

Lemma keeps_version_at_least (R : Channel → Channel → Prop) object_id m m' id bound :
  (∀ c c', R c c' → reader_advances c c') →
  keeps R object_id m m' → version_at_least bound m id → version_at_least bound m' id.
Proof.
  intros HR [-> | (c & c' & k & Hc & Hcc & ->)]; [done |].
  unfold version_at_least. rewrite GetChannel_set_channel.
  case_decide; [subst id | done]. rewrite Hc.
  apply HR in Hcc as [Hle _]. lia.
Qed.

Lemma RegisterChannel_version_at_least m object_id object reader status m' id bound :
  RegisterChannel PSEMNAMLEN m object_id object reader = Returned (status, m') →
  version_at_least bound m id → version_at_least bound m' id.
Proof.
  intros H. apply RegisterChannel_returns in H
    as [[_ ->] | (_ & c0 & c' & Hc0 & Hc' & Hch & _)]; [done |].
  unfold version_at_least, GetChannel in *. rewrite Hch, lookup_insert.
  case_decide; [subst id | done].
  assert (next_version_to_read c' = next_version_to_read c0) as ->
    by (rewrite Hc'; by destruct reader).
  destruct Hc0 as [-> | (-> & o & _ & ->)]; done.
Qed.

Lemma SetError_loop_version_at_least ids m status m' id bound :
  SetError_loop ids m = Returned (status, m') →
  version_at_least bound m id → version_at_least bound m' id.
Proof.
  revert m. induction ids as [| i ids IH]; intros m H Hb; simpl in H.
  - by returned.
  - returned;
      match goal with H : SetError _ _ = _ |- _ => apply SetError_keeps in H end.
    + eapply keeps_version_at_least; [| done | done].
      intros ? ? [_ ?]. by apply reader_kept_advances.
    + eapply IH; [done |]. eapply keeps_version_at_least; [| done | done].
      intros ? ? [_ ?]. by apply reader_kept_advances.
Qed.

Lemma call_version_at_least m c status m' id bound :
  call PSEMNAMLEN m c = Returned (status, m') →
  version_at_least bound m id → version_at_least bound m' id.
Proof.
  destruct c; simpl; intros H.
  - by eapply RegisterChannel_version_at_least.
  - returned. eapply keeps_version_at_least; [| by eapply WriteAcquire_keeps].
    intros ? ? [_ ?]. by apply reader_kept_advances.
  - eapply keeps_version_at_least; [| by eapply WriteRelease_keeps].
    intros ? ? [_ ?]. by apply reader_kept_advances.
  - returned. eapply keeps_version_at_least; [| by eapply ReadAcquire_advances]. done.
  - eapply keeps_version_at_least; [| by eapply ReadRelease_advances]. done.
  - eapply keeps_version_at_least; [| by eapply SetError_keeps].
    intros ? ? [_ ?]. by apply reader_kept_advances.
  - by eapply SetError_loop_version_at_least.
Qed.

Lemma run_version_at_least calls : ∀ m m' id bound,
  run PSEMNAMLEN calls m = Returned m' →
  version_at_least bound m id → version_at_least bound m' id.
Proof.
  induction calls as [| c calls IH]; intros m m' id bound H Hb; simpl in H.
  - by returned.
  - returned. eapply IH; [done |]. by eapply call_version_at_least.
Qed.

(** X10: over any run no channel goes away and [next_version_to_read] of a
    channel never goes down; in every state that a run from the empty
    manager reaches it is at least 1, the value a new channel starts
    with. *)
Theorem next_version_never_decreases calls m m' object_id :
  run PSEMNAMLEN calls m = Returned m' →
  (∀ c, GetChannel m object_id = Some c →
     ∃ c', GetChannel m' object_id = Some c'
           ∧ next_version_to_read c ≤ next_version_to_read c')
  ∧ (m = empty_manager →
     ∀ c', GetChannel m' object_id = Some c' → 1 ≤ next_version_to_read c').
Proof.
  intros Hrun. split.
  - intros c Hc.
    destruct (run_evolves _ _ _ Hrun object_id) as [_ Hch].
    destruct (Hch c Hc) as (c' & Hc' & _). exists c'. split; [done |].
    assert (version_at_least (next_version_to_read c) m object_id) as Hb.
    { unfold version_at_least. by rewrite Hc. }
    apply (run_version_at_least _ _ _ _ _ Hrun) in Hb.
    unfold version_at_least in Hb. by rewrite Hc' in Hb.
  - intros -> c' Hc'.
    assert (version_at_least 1 empty_manager object_id) as Hb.
    { unfold version_at_least, GetChannel. simpl. by rewrite lookup_empty. }
    apply (run_version_at_least _ _ _ _ _ Hrun) in Hb.
    unfold version_at_least in Hb. by rewrite Hc' in Hb.
Qed.

(** *** The end of the manager *)

Lemma sem_unlink_result_0 k name :
  bool_decide (sem_unlink_result k name = 0) = true → is_Some (sem_names k !! name).
Proof.
  unfold sem_unlink_result. intros H. apply bool_decide_eq_true_1 in H.
  by case_bool_decide.
Qed.

Lemma DestroySemaphores_returns m object_id m' :
  DestroySemaphores PSEMNAMLEN m object_id = Returned m' →
  ∃ c,
    GetChannel m object_id = Some c
    ∧ is_Some (semaphores_ m !! object_id)
    ∧ is_Some (sem_names (os m) !! ("hdr" +:+ unique_name (header (mutable_object c))))
    ∧ is_Some (sem_names (os m) !! ("obj" +:+ unique_name (header (mutable_object c))))
    ∧ m' = mkManager (channels_ m) (delete object_id (semaphores_ m))
             (sem_unlink
                (sem_unlink (os m)
                   ("hdr" +:+ unique_name (header (mutable_object c))))
                ("obj" +:+ unique_name (header (mutable_object c)))).
Proof.
  unfold DestroySemaphores, GetSemaphores, GetHeader. intros H. returned.
  match goal with
  | H : GetSemaphoreName _ _ = _ |- _ => apply GetSemaphoreName_returns in H as [-> Hlen]
  end.
  rewrite GetSemaphoreHeaderName_short, GetSemaphoreObjectName_short in * by done.
  returned.
  repeat match goal with
         | H : bool_decide (sem_unlink_result _ _ = 0) = true |- _ =>
             apply sem_unlink_result_0 in H
         end.
  eexists. split; [done |]. split; [by eexists |]. split; [done |].
  split; [| done].
  match goal with
  | H : is_Some (sem_names (sem_unlink _ _) !! _) |- _ =>
      unfold sem_unlink in H; simpl in H; by rewrite lookup_delete_ne in H
  end.
Qed.

(** X11: what [DestroySemaphores] needs and does.  When it returns, the
    object had a channel and a pair of semaphores, both names of the object
    were there to unlink, now neither name is there, the pair is erased from
    [semaphores_], the channels are as they were, and a second
    [DestroySemaphores], like any later operation that needs the semaphores
    of the object, fails the [RAY_CHECK] of [GetSemaphores]. *)
Theorem DestroySemaphores_unlinks m object_id m' :
  DestroySemaphores PSEMNAMLEN m object_id = Returned m' →
  ∃ c,
    GetChannel m object_id = Some c
    ∧ is_Some (sem_names (os m) !! ("hdr" +:+ unique_name (header (mutable_object c))))
    ∧ is_Some (sem_names (os m) !! ("obj" +:+ unique_name (header (mutable_object c))))
    ∧ sem_names (os m') !! ("hdr" +:+ unique_name (header (mutable_object c))) = None
    ∧ sem_names (os m') !! ("obj" +:+ unique_name (header (mutable_object c))) = None
    ∧ sem_values (os m') = sem_values (os m)
    ∧ channels_ m' = channels_ m
    ∧ semaphores_ m' = delete object_id (semaphores_ m)
    ∧ DestroySemaphores PSEMNAMLEN m' object_id = CheckFailed
    ∧ SetError m' object_id = CheckFailed.
Proof.
  intros H. apply DestroySemaphores_returns in H as (c & Hc & _ & Hh & Ho & ->).
  exists c. simpl. repeat split; try done.
  - rewrite lookup_delete_ne by discriminate. apply lookup_delete_eq.
  - apply lookup_delete_eq.
  - unfold DestroySemaphores, GetSemaphores. simpl. by rewrite lookup_delete_eq.
  - unfold SetError, GetSemaphores. simpl. by rewrite lookup_delete_eq.
Qed.

(** X12: [DestroySemaphores] on an object one of whose names is no longer
    there, because another process that shares the object, or another
    object of the same [unique_name], has unlinked it already, does not
    return: it fails a [RAY_CHECK], the one on the result of [sem_unlink]
    if no earlier one. *)
Theorem DestroySemaphores_unlinked_check_fails m object_id c :
  GetChannel m object_id = Some c →
  sem_names (os m) !! ("hdr" +:+ unique_name (header (mutable_object c))) = None
  ∨ sem_names (os m) !! ("obj" +:+ unique_name (header (mutable_object c))) = None →
  DestroySemaphores PSEMNAMLEN m object_id = CheckFailed.
Proof.
  intros Hc Hnone.
  destruct (DestroySemaphores PSEMNAMLEN m object_id) as [m' | | |] eqn:H; [| done | |].
  - apply DestroySemaphores_returns in H as (c' & Hc' & _ & [? Hh] & [? Ho] & _).
    assert (c' = c) as -> by congruence.
    destruct Hnone; congruence.
  - exfalso. unfold DestroySemaphores, GetSemaphores, GetHeader, GetSemaphoreName,
      GetSemaphoreHeaderName, GetSemaphoreObjectName, RAY_CHECK in H.
    rewrite Hc in H. simpl in H.
    repeat (case_match; simpl in H; try discriminate H).
  - exfalso. unfold DestroySemaphores, GetSemaphores, GetHeader, GetSemaphoreName,
      GetSemaphoreHeaderName, GetSemaphoreObjectName, RAY_CHECK in H.
    rewrite Hc in H. simpl in H.
    repeat (case_match; simpl in H; try discriminate H).
Qed.

Lemma destructor_loop_returns ids : ∀ m m',
  destructor_loop PSEMNAMLEN ids m = Returned m' →
  (∀ id, semaphores_ m' !! id
         = if decide (id ∈ ids) then None else semaphores_ m !! id)
  ∧ (∀ id, is_Some (GetChannel m' id) ↔ is_Some (GetChannel m id))
  ∧ (∀ id c', GetChannel m' id = Some c' →
       id ∈ ids ∨ (∃ c, GetChannel m id = Some c ∧ closed c) → closed c').
Proof.
  induction ids as [| i ids IH]; intros m m' H; simpl in H.
  - returned. split; [| split; [done |]].
    + intros id. rewrite decide_False; [done | apply not_elem_of_nil].
    + intros id c' Hc' [Hid | (c & Hc & Hclosed)]; [by apply elem_of_nil in Hid |].
      congruence.
  - apply bind_returns in H as ([ret m1] & Hset & H). simpl in H.
    apply bind_returns in H as (m2 & Hdestroy & H).
    apply DestroySemaphores_returns in Hdestroy as (c1 & Hc1 & _ & _ & _ & ->).
    assert (is_Some (GetChannel m i)) as Hci.
    { apply SetError_returns in Hset
        as [(_ & _ & ->) | (_ & c & ? & ? & ? & _)]; by eauto. }
    apply SetError_closes in Hset
      as (_ & Hsem1 & (c1' & Hc1' & Hclosed1) & Hother & Hdom); [| done].
    apply IH in H as (Hsems & Hdom' & Hall). simpl in *.
    split; [| split].
    + intros id. rewrite Hsems. simpl. rewrite Hsem1.
      destruct (decide (id = i)) as [-> | Hne].
      * rewrite lookup_delete_eq. rewrite (decide_True (P := i ∈ i :: ids)) by left.
        by case_decide.
      * rewrite lookup_delete_ne by done.
        destruct (decide (id ∈ ids)) as [Hin | Hnin].
        -- rewrite decide_True; [done | by right].
        -- rewrite decide_False; [done |].
           intros [? | ?]%elem_of_cons; done.
    + intros id. rewrite Hdom'. unfold GetChannel in *. simpl. apply Hdom.
    + intros id c' Hc' Hcase. apply (Hall id c' Hc').
      unfold GetChannel in *. simpl.
      destruct (decide (id = i)) as [-> | Hne]; [right; by eauto |].
      destruct Hcase as [Hid | (c & Hc & Hclosed)].
      * left. apply elem_of_cons in Hid as [? | ?]; done.
      * right. exists c. by rewrite Hother.
Qed.

(** X13: when the destructor of the manager returns, [semaphores_] is
    empty, no channel was added or removed, and every channel that had
    semaphores has the error flag of its header set and no role
    registered. *)
Theorem destructor_closes m m' :
  destructor PSEMNAMLEN m = Returned m' →
  semaphores_ m' = ∅
  ∧ (∀ id, is_Some (GetChannel m' id) ↔ is_Some (GetChannel m id))
  ∧ (∀ id c', GetChannel m' id = Some c' →
       is_Some (semaphores_ m !! id) → closed c').
Proof.
  unfold destructor. intros H.
  assert (∀ id, id ∈ (map_to_list (semaphores_ m)).*1 ↔ is_Some (semaphores_ m !! id))
    as Hkeys.
  { intros id. rewrite list_elem_of_fmap. split.
    - intros ([i c] & -> & Hin). apply elem_of_map_to_list in Hin. by eexists.
    - intros [c Hc]. exists (id, c). split; [done |]. by apply elem_of_map_to_list. }
  apply destructor_loop_returns in H as (Hsems & Hdom & Hall).
  split; [| split; [done |]].
  - apply map_eq. intros id. rewrite Hsems, lookup_empty.
    case_decide as Hin; [done |].
    destruct (semaphores_ m !! id) eqn:E; [| done].
    destruct Hin. apply Hkeys. by eexists.
  - intros id c' Hc' Hs. apply (Hall id c' Hc'). left. by apply Hkeys.
Qed.

(** *** Mapping a remote object to a local one *)

Lemma RegisterChannel_registered_Invalid m object_id c object reader :
  GetChannel m object_id = Some c →
  registered reader c = true →
  RegisterChannel PSEMNAMLEN m object_id object reader = Returned (Invalid, m).
Proof.
  unfold GetChannel, RegisterChannel. intros Hc Hr. rewrite Hc.
  destruct reader; simpl in *; by rewrite Hr.
Qed.

(** X14: a remote object is mapped once, and a local object takes one
    mapping.  When [HandleRegisterMutableObject] returns, the remote object
    was not mapped before, the map has the new entry, the allocator knows
    the local object and the reader role of its channel is registered; a
    second [HandleRegisterMutableObject] for the same remote object fails
    the [RAY_CHECK] on the insertion, and one for another remote object onto
    the same local object fails [RAY_CHECK_OK], as [RegisterChannel] returns
    [Invalid]. *)
Theorem HandleRegisterMutableObject_once p object_id num_readers local p' :
  HandleRegisterMutableObject PSEMNAMLEN p object_id num_readers local = Returned p' →
  cross_node_map_ p !! object_id = None
  ∧ cross_node_map_ p' = <[object_id := mkLocalInfo num_readers local]> (cross_node_map_ p)
  ∧ is_Some (plasma_ p !! local)
  ∧ (∃ c, GetChannel (object_manager_ p') local = Some c ∧ reader_registered c = true)
  ∧ (∀ object_id' num_readers' local',
       object_id' = object_id ∨ local' = local →
       HandleRegisterMutableObject PSEMNAMLEN p' object_id' num_readers' local'
       = CheckFailed).
Proof.
  unfold HandleRegisterMutableObject, RegisterReaderChannel, GetExperimentalMutableObject.
  simpl. intros H.
  destruct (plasma_ p !! local) as [o |] eqn:Ho; simpl in H;
    [| by (apply bind_returns in H as (? & ? & H); discriminate H)].
  returned.
  repeat match goal with
         | H : RAY_CHECK_OK _ = Returned _ |- _ => apply RAY_CHECK_OK_returns in H as ->
         end.
  match goal with
  | H : bool_decide (_ = None) = true |- _ => apply bool_decide_eq_true_1 in H; rename H into Hfresh
  end.
  match goal with
  | H : RegisterChannel _ _ _ _ _ = _ |- _ =>
      apply RegisterChannel_returns in H
        as [[? _] | (_ & c0 & c' & _ & Hc' & Hch & _)]; [discriminate |]
  end.
  assert (GetChannel m local = Some c' ∧ reader_registered c' = true) as [Hget Hreg].
  { unfold GetChannel. rewrite Hch, lookup_insert_eq. split; [done |]. by rewrite Hc'. }
  split; [done |]. split; [done |]. split; [by eexists |].
  split; [by eauto |].
  intros id' n' l' Hcase. simpl.
  destruct (decide (id' = object_id)) as [-> | Hne].
  { by rewrite lookup_insert_eq. }
  destruct Hcase as [? | ->]; [done |].
  rewrite lookup_insert_ne by done.
  destruct (bool_decide (cross_node_map_ p !! id' = None)); simpl; [| done].
  rewrite Ho. simpl.
  by rewrite (RegisterChannel_registered_Invalid _ _ _ _ true Hget Hreg).
Qed.

(** *** Pushes that do not go through *)

(** X15: a push whose sizes are over the capacity of the local channel
    halts the process: [WriteAcquire] returns [InvalidArgument] and
    [HandlePushMutableObject] fails [RAY_CHECK_OK] on it. *)
Theorem HandlePushMutableObject_too_large p request info c :
  cross_node_map_ p !! req_object_id request = Some info →
  GetChannel (object_manager_ p) (local_object_id info) = Some c →
  writer_registered c = true →
  written c = false →
  0 ≤ req_data_size request →
  0 ≤ req_metadata_size request →
  req_data_size request + req_metadata_size request ≤ INT64_MAX →
  allocated_size (mutable_object c) < req_data_size request + req_metadata_size request →
  HandlePushMutableObject p request = CheckFailed.
Proof.
  intros Hinfo Hc Hw Hn Hd Hm Hsum Hlarge.
  unfold HandlePushMutableObject. rewrite Hinfo.
  rewrite !to_int64_uint64 by lia.
  unfold WriteAcquire, int64_add. rewrite Hc, Hw, Hn. simpl.
  rewrite bool_decide_eq_true_2 by (unfold in_int64, INT64_MIN, INT64_MAX in *; lia).
  simpl. by rewrite bool_decide_eq_true_2.
Qed.

(** X16: [SetError()] of the manager ends the inbound side.  After it, every
    [HandlePushMutableObject] fails a [RAY_CHECK]: the one on the map when
    the object is not mapped, [RAY_CHECK_OK] when the local object has no
    channel, and the one on [writer_registered] in [WriteAcquire]
    otherwise. *)
Theorem HandlePushMutableObject_after_SetErrorAll p status m' request :
  SetErrorAll (object_manager_ p) = Returned (status, m') →
  HandlePushMutableObject (set_object_manager m' p) request = CheckFailed.
Proof.
  intros H. apply SetErrorAll_returns_closed in H as (_ & _ & Hclosed).
  unfold HandlePushMutableObject. simpl.
  destruct (cross_node_map_ p !! req_object_id request) as [info |]; [| done].
  unfold WriteAcquire.
  destruct (GetChannel m' (local_object_id info)) as [c |] eqn:Hc; [| done].
  destruct (Hclosed _ _ Hc) as (_ & _ & Hw). by rewrite Hw.
Qed.

Lemma memcpy_outcome dst off src n :
  (∃ bytes, memcpy dst off src n = Returned bytes) ∨ memcpy dst off src n = Undefined.
Proof. unfold memcpy. case_bool_decide; [left; by eexists | by right]. Qed.

Lemma memcpy_short dst off src n :
  Z.of_nat (length src) < n → memcpy dst off src n = Undefined.
Proof. intros H. unfold memcpy. rewrite bool_decide_eq_false_2; [done | lia]. Qed.

(** X17: [HandlePushMutableObject] trusts the sizes of the request.  When
    the request carries fewer bytes than [data_size + metadata_size], by
    more than the one byte that ends a string, and the sizes fit the local
    channel so that [WriteAcquire] goes through, the copy reads the bytes of
    the request past their end, which is undefined. *)
Theorem HandlePushMutableObject_short_data p request info c sem :
  cross_node_map_ p !! req_object_id request = Some info →
  GetChannel (object_manager_ p) (local_object_id info) = Some c →
  writer_registered c = true →
  written c = false →
  semaphores_ (object_manager_ p) !! local_object_id info = Some sem →
  object_sem sem ≠ header_sem sem →
  sem_available (os (object_manager_ p)) (object_sem sem) →
  sem_available (os (object_manager_ p)) (header_sem sem) →
  has_error (header (mutable_object c)) = false →
  0 ≤ req_data_size request →
  0 ≤ req_metadata_size request →
  req_data_size request + req_metadata_size request ≤ allocated_size (mutable_object c) →
  allocated_size (mutable_object c) ≤ INT64_MAX →
  Z.of_nat (length (req_data request)) + 1
  < req_data_size request + req_metadata_size request →
  HandlePushMutableObject p request = Undefined.
Proof.
  intros Hinfo Hc Hw Hn Hs Hne Ho Hh He Hd Hm Hfit Hcap Hshort.
  unfold HandlePushMutableObject. rewrite Hinfo.
  rewrite !to_int64_uint64 by lia.
  rewrite !(to_uint64_small (req_data_size request)) by lia.
  rewrite !(to_uint64_small (req_metadata_size request)) by lia.
  rewrite to_uint64_small by lia.
  unfold WriteAcquire, int64_add, GetSemaphores. rewrite Hc, Hw, Hn, Hs. simpl.
  rewrite bool_decide_eq_true_2 by (unfold in_int64, INT64_MIN, INT64_MAX in *; lia).
  simpl. rewrite bool_decide_eq_false_2 by lia.
  unfold header_WriteAcquire. rewrite He.
  destruct (sem_wait_available _ _ Ho) as [k1 Hk1]. rewrite Hk1. simpl.
  destruct (sem_wait_available k1 (header_sem sem)) as [k2 Hk2].
  { eapply sem_wait_other; eauto. }
  rewrite Hk2. simpl.
  rewrite to_uint64_small by lia.
  destruct (memcpy_outcome (buffer (mutable_object c)) (0 + req_data_size request)
              (drop (Z.to_nat (req_data_size request))
                 (string_data (req_data request)))
              (req_metadata_size request)) as [[bytes ->] | ->]; [| done].
  simpl. unfold write_slice, GetChannel. simpl. rewrite lookup_insert_eq. simpl.
  rewrite memcpy_short; [done |].
  unfold string_data. rewrite length_app. simpl. lia.
Qed.

(** *** The poll of a writer channel *)

(** X18: the poll that [RegisterWriterChannel] posts reads the channel, and
    [RegisterWriterChannel] registers the writer role only.  When it returns,
    the allocator knows the object, the factory gave a reader for the node,
    the writer role of the channel is registered and the posted closure is
    the poll of this object with that reader; and unless the reader role of
    the object was registered before, the poll fails the [RAY_CHECK] of
    [ReadAcquire] on [reader_registered]. *)
Theorem RegisterWriterChannel_poll factory p object_id node_id p' poll :
  RegisterWriterChannel PSEMNAMLEN factory p object_id node_id = Returned (p', poll) →
  is_Some (plasma_ p !! object_id)
  ∧ poll_object_id poll = object_id
  ∧ factory node_id = Some (poll_reader poll)
  ∧ (∃ c', GetChannel (object_manager_ p') object_id = Some c'
           ∧ writer_registered c' = true)
  ∧ ((∀ c, GetChannel (object_manager_ p) object_id = Some c →
           reader_registered c = false) →
     PollWriterClosure (object_manager_ p') poll = CheckFailed).
Proof.
  unfold RegisterWriterChannel, GetExperimentalMutableObject. intros H.
  destruct (plasma_ p !! object_id) as [o |] eqn:Ho; simpl in H;
    [| discriminate H].
  returned.
  repeat match goal with
         | H : RAY_CHECK_OK _ = Returned _ |- _ => apply RAY_CHECK_OK_returns in H as ->
         end.
  match goal with
  | H : RegisterChannel _ _ _ _ _ = _ |- _ =>
      apply RegisterChannel_returns in H
        as [[? _] | (_ & c0 & c' & Hc0 & Hc' & Hch & _)]; [discriminate |]
  end.
  assert (GetChannel m object_id = Some c') as Hget.
  { unfold GetChannel. by rewrite Hch, lookup_insert_eq. }
  split; [done |]. split; [done |]. split; [done |]. simpl. split.
  - exists c'. split; [done |]. by rewrite Hc'.
  - intros Hreader. unfold PollWriterClosure, ReadAcquire. simpl. rewrite Hget.
    assert (reader_registered c' = false) as ->; [| done].
    rewrite Hc'. simpl.
    destruct Hc0 as [Hc0 | (_ & ? & _ & ->)]; [by apply Hreader | done].
Qed.

(** X19: an error ends the poll.  On a channel whose header has the error
    flag set, with the reader role registered and the reader mutex free, the
    poll makes no call of [PushMutableObject]: [ReadAcquire] returns
    [IOError] and the closure returns, with the reader mutex held. *)
Theorem PollWriterClosure_error m poll c sem :
  GetChannel m (poll_object_id poll) = Some c →
  reader_registered c = true →
  lock c = false →
  semaphores_ m !! poll_object_id poll = Some sem →
  has_error (header (mutable_object c)) = true →
  PollWriterClosure m poll
  = Returned (None, set_channel (poll_object_id poll) (set_lock true c) m).
Proof.
  intros Hc Hr Hl Hs He. unfold PollWriterClosure.
  by rewrite (ReadAcquire_with_error _ _ _ _ Hc Hr Hl Hs He).
Qed.

(** X20: one push in flight for a channel.  When the poll makes a call of
    [PushMutableObject], the call is for the object of the poll and its
    reader, with the two sizes of the header and the data view at offset 0;
    a second poll before the reply waits for the reader mutex; and when the
    callback of the reply returns, it has added one to
    [next_version_to_read] and left the mutex free. *)
Theorem PollWriterClosure_push m poll push m1 :
  PollWriterClosure m poll = Returned (Some push, m1) →
  ∃ c1,
    GetChannel m1 (poll_object_id poll) = Some c1
    ∧ push_reader push = poll_reader poll
    ∧ push_object_id push = poll_object_id poll
    ∧ push_data_size push = data_size (header (mutable_object c1))
    ∧ push_metadata_size push = metadata_size (header (mutable_object c1))
    ∧ push_data push = mkSlice 0 (push_data_size push)
    ∧ PollWriterClosure m1 poll = Blocks
    ∧ (∀ m2, PollWriterReply m1 poll = Returned m2 →
         ∃ c2, GetChannel m2 (poll_object_id poll) = Some c2
               ∧ lock c2 = false
               ∧ next_version_to_read c2 = next_version_to_read c1 + 1).
Proof.
  unfold PollWriterClosure at 1. intros H. returned.
  match goal with
  | H : bool_decide (?s = OK) = true |- _ => apply bool_decide_eq_true_1 in H; subst s
  end.
  match goal with H : ReadAcquire _ _ = _ |- _ => rename H into Hra end.
  pose proof (ReadAcquire_OK_blocks _ _ _ _ Hra) as Hblocks.
  apply ReadAcquire_OK_result in Hra as (c1 & Hc1 & _ & _ & Hres & _).
  injection Hres as ->.
  exists c1. simpl. repeat split; try done.
  - unfold PollWriterClosure. by rewrite Hblocks.
  - intros m2. unfold PollWriterReply. intros H. returned.
    match goal with
    | H : RAY_CHECK_OK _ = Returned _ |- _ => apply RAY_CHECK_OK_returns in H as ->
    end.
    match goal with
    | H : ReadRelease _ _ = _ |- _ =>
        apply ReadRelease_returns in H
          as [(? & _) | (_ & c & c2 & k & Hc & -> & _ & Hl & Hv)]; [discriminate |]
    end.
    exists c2. rewrite GetChannel_set_channel, decide_True by done.
    assert (c = c1) as -> by congruence. done.
Qed.

End Properties.

(** ** The theorems at concrete inputs *)

(** The first scenario of the specification: a channel of 64 bytes, one
    version of 4 data bytes and 2 metadata bytes for one reader.  The reader
    reads version 1, and the next [WriteAcquire] returns. *)
Example single_reader_single_writer :
  versions_read 31 7 ([register_writer; register_reader] ++ one_version) empty_manager
  = Returned [1]
  ∧ ∃ data m,
      WriteAcquire (state_after ([register_writer; register_reader] ++ one_version))
        7 4 None 2 1
      = Returned (OK, Some data, m).
Proof. split; [| eexists _, _]; vm_compute; reflexivity. Qed.

(** The fifth scenario as the specification words it: the local object is
    registered by [HandleRegisterMutableObject] alone, which registers the
    reader role, and the push fails the [RAY_CHECK] of [WriteAcquire] on
    [writer_registered]. *)
Example push_needs_writer :
  HandleRegisterMutableObject 31 fresh_provider 5 1 9 = Returned registered_provider
  ∧ HandlePushMutableObject registered_provider push_request = CheckFailed.
Proof. split; vm_compute; reflexivity. Qed.

Lemma SetError_sticky_counterexample :
  ∃ channel m1,
    GetChannel (state_after [register_writer; register_reader]) 7 = Some channel
    ∧ writer_registered channel = true
    ∧ reader_registered channel = true
    ∧ SetError (state_after [register_writer; register_reader]) 7 = Returned (OK, m1)
    ∧ WriteAcquire m1 7 4 None 2 1 = CheckFailed
    ∧ ReadAcquire m1 7 = CheckFailed.
Proof. eexists _, _. repeat split; vm_compute; reflexivity. Qed.

Lemma SetError_sticky_witness :
  let m := state_after [register_writer; register_reader] in
  let m1 := state_after [register_writer; register_reader; CallSetError 7] in
  let calls := [register_writer; register_reader] in
  let m2 := state_after ([register_writer; register_reader; CallSetError 7] ++ calls) in
  SetError m 7 = Returned (OK, m1)
  ∧ run 31 calls m1 = Returned m2
  ∧ WriteAcquire m2 7 4 None 2 1 = Returned (ChannelError, None, m2)
  ∧ ∃ m3, ReadAcquire m2 7 = Returned (ChannelError, None, m3).
Proof.
  intros m m1 calls m2.
  assert (SetError m 7 = Returned (OK, m1)) as Hset by (vm_compute; reflexivity).
  assert (run 31 calls m1 = Returned m2) as Hrun by (vm_compute; reflexivity).
  split; [exact Hset |]. split; [exact Hrun |].
  destruct (SetError_sticky 31 m 7 m1 calls m2 Hset Hrun)
    as (channel & Hc & _ & _ & _ & _ & Hwrite & Hread).
  vm_compute in Hc. injection Hc as <-. split.
  - apply Hwrite; [reflexivity | reflexivity | |];
      unfold in_int64, INT64_MIN, INT64_MAX; simpl; lia.
  - eexists. apply Hread; reflexivity.
Defined.

Lemma ReadAcquire_error_keeps_mutex_witness :
  let m := state_after [register_reader; CallSetError 7; register_reader] in
  ∃ channel sem,
    GetChannel m 7 = Some channel
    ∧ reader_registered channel = true
    ∧ lock channel = false
    ∧ semaphores_ m !! 7%N = Some sem
    ∧ has_error (header (mutable_object channel)) = true
    ∧ ReadAcquire m 7
      = Returned (ChannelError, None, set_channel 7 (set_lock true channel) m)
    ∧ ReadAcquire (set_channel 7 (set_lock true channel) m) 7 = Blocks.
Proof.
  intros m. eexists _, _.
  assert (∀ A B C D E F : Prop, A → B → C → D → E → (A → B → C → D → E → F) →
          A ∧ B ∧ C ∧ D ∧ E ∧ F) as Hand by tauto.
  apply Hand; [vm_compute; reflexivity .. |].
  intros Hc Hr Hl Hs He.
  exact (ReadAcquire_error_keeps_mutex m 7 _ _ Hc Hr Hl Hs He).
Defined.

(** The second scenario of the specification: on the channel of 64 bytes,
    [WriteAcquire(60, 8, 1)] is refused and [WriteAcquire(4, 2, 1)] after it
    returns OK. *)
Lemma WriteAcquire_too_large_witness :
  let m := state_after [register_writer] in
  ∃ channel,
    GetChannel m 7 = Some channel
    ∧ writer_registered channel = true
    ∧ written channel = false
    ∧ allocated_size (mutable_object channel) < 60 + 8
    ∧ allocated_size (mutable_object channel) < INT64_MAX + 1
    ∧ in_int64 INT64_MAX
    ∧ in_int64 1
    ∧ WriteAcquire m 7 60 None 8 1 = Returned (InvalidArgument, None, m)
    ∧ (∃ m' channel',
         WriteAcquire m 7 4 None 2 1 = Returned (OK, Some (mkSlice 0 4), m')
         ∧ GetChannel m' 7 = Some channel'
         ∧ written channel' = true)
    ∧ WriteAcquire m 7 INT64_MAX None 1 1 = Undefined.
Proof.
  intros m.
  let c := eval vm_compute in (GetChannel m 7) in
  lazymatch c with Some ?c => exists c end.
  match goal with
  | |- ?A ∧ ?B ∧ ?C ∧ ?D ∧ ?E ∧ ?F ∧ ?G ∧ _ =>
      assert A as Hc by (vm_compute; reflexivity);
      assert B as Hw by reflexivity;
      assert C as Hn by reflexivity;
      assert D as Hlarge by (simpl; lia);
      assert E as Hlarge' by (unfold INT64_MAX; simpl; lia);
      assert F as Hmax by (unfold in_int64, INT64_MIN, INT64_MAX; lia);
      assert G as Hone by (unfold in_int64, INT64_MIN, INT64_MAX; lia)
  end.
  repeat (split; [assumption |]).
  destruct (WriteAcquire_too_large m 7 _ 60 None 8 1 Hc Hw Hn Hlarge)
    as [Hrefused _].
  destruct Hrefused as [Hrefused Hnext];
    [unfold in_int64, INT64_MIN, INT64_MAX; simpl; lia |].
  destruct (WriteAcquire_too_large m 7 _ INT64_MAX None 1 1 Hc Hw Hn Hlarge')
    as [_ Hover].
  split; [exact Hrefused |]. split; [| apply Hover; lia].
  apply (Hnext (mkSemaphores 0 1) 4 2 1).
  - vm_compute; reflexivity.
  - simpl; lia.
  - exists 1. split; [vm_compute; reflexivity | lia].
  - exists 1. split; [vm_compute; reflexivity | lia].
  - reflexivity.
  - unfold in_int64, INT64_MIN, INT64_MAX; simpl; lia.
  - lia.
  - lia.
  - simpl; lia.
Defined.

Lemma SetError_unregistered_check_fails_witness :
  let m := state_after [register_writer; register_reader] in
  maps_agree m ∧ GetChannel m 8 = None ∧ SetError m 8 = CheckFailed.
Proof.
  intros m.
  assert (maps_agree m) as Hdom by (vm_compute; reflexivity).
  assert (GetChannel m 8 = None) as Hc by (vm_compute; reflexivity).
  split; [exact Hdom |]. split; [exact Hc |].
  exact (SetError_unregistered_check_fails m 8 Hdom Hc).
Defined.

Lemma WriteRelease_unwritten_counterexample :
  ∃ channel,
    GetChannel (state_after [register_writer]) 7 = Some channel
    ∧ writer_registered channel = true
    ∧ written channel = false
    ∧ WriteRelease (state_after [register_writer]) 7 = CheckFailed.
Proof. eexists. repeat split; vm_compute; reflexivity. Qed.

Lemma WriteRelease_unwritten_check_fails_witness :
  let m := state_after [register_writer] in
  ∃ channel,
    GetChannel m 7 = Some channel
    ∧ writer_registered channel = true
    ∧ written channel = false
    ∧ WriteRelease m 7 = CheckFailed.
Proof.
  intros m. eexists.
  assert (∀ A B C D : Prop, A → B → C → (A → B → C → D) → A ∧ B ∧ C ∧ D)
    as Hand by tauto.
  apply Hand; [vm_compute; reflexivity | reflexivity | reflexivity |].
  intros Hc Hw Hn.
  exact (WriteRelease_unwritten_check_fails m 7 _ Hc Hw Hn).
Defined.

(** A reader that joins a header late is handed version 5 although it asked
    for version 1 or later, and version 6 after the next write. *)
Lemma versions_read_increasing_witness :
  versions_handed_out 31 8 late_reader empty_manager = Returned [5; 6]
  ∧ versions_read 31 8 late_reader empty_manager = Returned [5; 6]
  ∧ StronglySorted Z.lt [5; 6]
  ∧ Forall (λ v, 0 < v) [5; 6]
  ∧ version_of (state_after (take 2 late_reader)) 8 = 1
  ∧ header_version_read (state_after (take 2 late_reader)) 8 = Some 5
  ∧ version_of (state_after (take 3 late_reader)) 8 = 5.
Proof.
  assert (versions_handed_out 31 8 late_reader empty_manager = Returned [5; 6])
    as Hrun by (vm_compute; reflexivity).
  split; [exact Hrun |].
  destruct (versions_read_increasing 31 8 late_reader empty_manager [5; 6] Hrun)
    as (Hstored & Hsorted & Hpositive & Hacquire & _).
  split; [exact Hstored |]. split; [exact Hsorted |]. split; [exact Hpositive |].
  split; [vm_compute; reflexivity |].
  destruct (ReadAcquire (state_after (take 2 late_reader)) 8)
    as [[[status result] m1] | | |] eqn:Hra; try (vm_compute in Hra; discriminate Hra).
  destruct status; try (vm_compute in Hra; discriminate Hra).
  destruct (Hacquire _ _ _ Hra) as (version_read & Hhanded & Hversion & _).
  assert (m1 = state_after (take 3 late_reader)) as ->.
  { vm_compute in Hra. injection Hra as _ <-. vm_compute; reflexivity. }
  rewrite Hhanded, Hversion. split; [f_equal |]; vm_compute in Hhanded;
    by injection Hhanded as <-.
Defined.

(** The fifth scenario of the specification: the push of [DE AD BE EF] with
    3 data bytes and 1 metadata byte, read back from the local channel. *)
Lemma push_then_read_witness :
  ∃ p' result m' channel,
    cross_node_map_ push_provider !! req_object_id push_request
    = Some (mkLocalInfo 1 9)
    ∧ HandlePushMutableObject push_provider push_request = Returned p'
    ∧ ReadAcquire (object_manager_ p') 9 = Returned (OK, Some result, m')
    ∧ GetChannel m' 9 = Some channel
    ∧ slice_bytes (buffer (mutable_object channel)) (GetData result) = [xde; xad; xbe]
    ∧ slice_bytes (buffer (mutable_object channel)) (GetMetadata result) = [xef]
    ∧ slice_size (GetData result) = 3
    ∧ slice_size (GetMetadata result) = 1
    ∧ version_of m' 9 = 1.
Proof.
  assert (cross_node_map_ push_provider !! req_object_id push_request
          = Some (mkLocalInfo 1 9)) as Hinfo by (vm_compute; reflexivity).
  destruct (HandlePushMutableObject push_provider push_request) as [p' | | |] eqn:Hpush;
    try (vm_compute in Hpush; discriminate Hpush).
  destruct (ReadAcquire (object_manager_ p') 9) as [[[status result] m'] | | |] eqn:Hread;
    try (vm_compute in Hpush; injection Hpush as <-;
         vm_compute in Hread; discriminate Hread).
  destruct status;
    try (vm_compute in Hpush; injection Hpush as <-;
         vm_compute in Hread; discriminate Hread).
  destruct result as [result |];
    [| vm_compute in Hpush; injection Hpush as <-;
       vm_compute in Hread; discriminate Hread].
  destruct (push_then_read push_provider push_request (mkLocalInfo 1 9)
              [xde; xad; xbe] [xef] p' result m' Hinfo)
    as (channel & Hc & Hdata & Hmeta & Hds & Hms);
    [reflexivity | reflexivity | reflexivity
     | unfold INT64_MAX; simpl; lia | exact Hpush | exact Hread |].
  exists p', result, m', channel.
  repeat (split; [first [done | exact Hc | exact Hdata | exact Hmeta] |]).
  unfold version_of. simpl in Hc. rewrite Hc.
  vm_compute in Hpush. injection Hpush as <-.
  vm_compute in Hread. injection Hread as <- <-.
  vm_compute in Hc. injection Hc as <-. reflexivity.
Defined.

Lemma RegisterChannel_twice_witness :
  let m := state_after [register_reader] in
  ∃ channel,
    maps_agree m
    ∧ GetChannel m 7 = Some channel
    ∧ registered true channel = true
    ∧ RegisterChannel 31 m 7 (Some (fresh_object "chan" 64)) true
      = Returned (Invalid, m)
    ∧ RegisterChannel 31 m 7 (Some (fresh_object "chan" 64)) false
      = Returned (OK, set_channel 7 (set_registered false true channel) m).
Proof.
  intros m. eexists.
  assert (∀ A B C D : Prop, A → B → C → (A → B → C → D) → A ∧ B ∧ C ∧ D)
    as Hand by tauto.
  apply Hand; [vm_compute; reflexivity | vm_compute; reflexivity | reflexivity |].
  intros Hdom Hc Hr.
  destruct (RegisterChannel_twice 31 m 7 _ (Some (fresh_object "chan" 64)) true
              Hdom Hc Hr) as [Hsame Hother].
  split; [exact Hsame | apply Hother; reflexivity].
Defined.

Lemma semaphore_names_counterexample :
  String.length long_name = 32%nat
  ∧ RegisterChannel 31 empty_manager 7 (Some (fresh_object long_name 64)) true
    = CheckFailed
  ∧ String.length tight_name = 29%nat
  ∧ RegisterChannel 31 empty_manager 7 (Some (fresh_object tight_name 64)) true
    = CheckFailed.
Proof. repeat split; vm_compute; reflexivity. Qed.

Lemma semaphore_names_witness :
  let m := state_after [register_writer] in
  GetChannel m 8 = None
  ∧ semaphores_ m !! 8%N = None
  ∧ kernel_names_valid 31 (os m) = true
  ∧ (31 < String.length tight_name + 3)%nat
  ∧ RegisterChannel 31 m 8 (Some (fresh_object tight_name 64)) false = CheckFailed
  ∧ RegisterChannel 31 m 8 (Some (attached_object tight_name 64)) false = CheckFailed
  ∧ ∃ m' sem,
      RegisterChannel 31 m 8 (Some (fresh_object "data" 64)) false = Returned (OK, m')
      ∧ semaphores_ m' !! 8%N = Some sem
      ∧ sem_names (os m') !! "objdata" = Some (object_sem sem)
      ∧ sem_names (os m') !! "hdrdata" = Some (header_sem sem).
Proof.
  intros m.
  assert (GetChannel m 8 = None) as Hc by (vm_compute; reflexivity).
  assert (semaphores_ m !! 8%N = None) as Hs by (vm_compute; reflexivity).
  assert (kernel_names_valid 31 (os m) = true) as Hk by (vm_compute; reflexivity).
  assert (31 < String.length tight_name + 3)%nat as Hlong by (simpl; lia).
  split; [exact Hc |]. split; [exact Hs |]. split; [exact Hk |].
  split; [exact Hlong |].
  pose proof (semaphore_names 31 m 8 (fresh_object tight_name 64) false Hc Hs Hk)
    as Hcreate.
  pose proof (semaphore_names 31 m 8 (attached_object tight_name 64) false Hc Hs Hk)
    as Hattach.
  pose proof (semaphore_names 31 m 8 (fresh_object "data" 64) false Hc Hs Hk)
    as Hshort.
  cbv zeta in Hcreate, Hattach, Hshort.
  destruct Hcreate as (_ & _ & _ & Hcreate).
  destruct Hattach as (_ & _ & _ & Hattach).
  destruct Hshort as (_ & _ & Hshort & _).
  split; [apply (Hcreate Hlong); by left |].
  split; [apply (Hattach Hlong); by left |].
  destruct (RegisterChannel 31 m 8 (Some (fresh_object "data" 64)) false)
    as [[status m'] | | |] eqn:Hreg; try (vm_compute in Hreg; discriminate Hreg).
  destruct (Hshort status m' eq_refl) as (-> & _ & sem & Hsem & Hobj & Hhdr).
  exists m', sem. split; [reflexivity |]. split; [exact Hsem |].
  split; [exact Hobj | exact Hhdr].
Defined.

(** A reader that was registered and has not acquired anything yet releases
    a read: the mutex is free, and the call ends in [Unlock] of a mutex that
    nobody holds. *)
Lemma ReadRelease_unpaired_counterexample :
  let m := state_after [register_reader] in
  ∃ channel,
    GetChannel m 7 = Some channel
    ∧ reader_registered channel = true
    ∧ lock channel = false
    ∧ ReadRelease m 7 = Undefined.
Proof. intros m. eexists. repeat split; vm_compute; reflexivity. Qed.

(** A reader whose [ReadAcquire] failed on the error flag, and so read
    nothing, releases a read. *)
Lemma ReadRelease_unpaired_witness :
  let calls := [register_reader; CallSetError 7; register_reader] in
  let m := state_after (calls ++ [CallReadAcquire 7]) in
  let m' := state_after (calls ++ [CallReadAcquire 7; CallReadRelease 7]) in
  ∃ channel sem,
    GetChannel m 7 = Some channel
    ∧ reader_registered channel = true
    ∧ semaphores_ m !! 7%N = Some sem
    ∧ sem_available (os m) (header_sem sem)
    ∧ in_int64 (next_version_to_read channel + 1)
    ∧ lock channel = true
    ∧ ReadAcquire (state_after calls) 7 = Returned (ChannelError, None, m)
    ∧ ReadRelease m 7 = Returned (OK, m')
    ∧ version_of m 7 = 1
    ∧ version_of m' 7 = 2.
Proof.
  intros calls m m'.
  let c := eval vm_compute in (GetChannel m 7) in
  let sem := eval vm_compute in (semaphores_ m !! 7%N) in
  lazymatch c with
  | Some ?c => lazymatch sem with Some ?sem => exists c, sem end
  end.
  assert (∀ A B C D E F : Prop, A → B → C → D → E → (A → B → C → D → E → F) →
          A ∧ B ∧ C ∧ D ∧ E ∧ F) as Hand by tauto.
  apply Hand.
  - vm_compute; reflexivity.
  - reflexivity.
  - vm_compute; reflexivity.
  - exists 1. split; [vm_compute; reflexivity | lia].
  - unfold in_int64, INT64_MIN, INT64_MAX; simpl; lia.
  - intros Hc Hr Hs Hsem Hv.
    destruct (ReadRelease_unpaired m 7 _ _ Hc Hr Hs Hsem Hv)
      as (h & k & Hh & Hheld & _).
    split; [reflexivity |]. split; [vm_compute; reflexivity |].
    split; [| split; vm_compute; reflexivity].
    rewrite (Hheld eq_refl). vm_compute in Hh. injection Hh as <- <-.
    vm_compute; reflexivity.
Defined.

(** *** Further properties at concrete inputs *)

(** The value a call returns at a concrete input. *)
Ltac returned_by c :=
  let r := eval vm_compute in c in
  lazymatch r with Returned ?a => a end.

Lemma RegisterChannel_creates_witness :
  let m := state_after [CallRegisterChannel 9 (Some (fresh_object "local" 16)) true] in
  let object := fresh_object "chan" 64 in
  GetChannel m 7 = None
  ∧ semaphores_ m !! 7%N = None
  ∧ semaphores_created (header object) = kUnitialized
  ∧ (String.length (unique_name (header object)) + 3 ≤ 31)%nat
  ∧ has_slash (unique_name (header object)) = false
  ∧ ∃ m' sem,
      RegisterChannel 31 m 7 (Some object) false = Returned (OK, m')
      ∧ semaphores_ m' !! 7%N = Some sem
      ∧ sem_values (os m') !! object_sem sem = Some 1
      ∧ sem_values (os m') !! header_sem sem = Some 1
      ∧ sem_names (os m') !! "objchan" = Some (object_sem sem)
      ∧ sem_names (os m') !! "hdrchan" = Some (header_sem sem).
Proof.
  intros m object.
  assert (GetChannel m 7 = None) as H1 by (vm_compute; reflexivity).
  assert (semaphores_ m !! 7%N = None) as H2 by (vm_compute; reflexivity).
  assert (semaphores_created (header object) = kUnitialized) as H3 by reflexivity.
  assert (String.length (unique_name (header object)) + 3 ≤ 31)%nat as H4
    by (simpl; lia).
  assert (has_slash (unique_name (header object)) = false) as H5 by reflexivity.
  destruct (RegisterChannel_creates 31 m 7 object false H1 H2 H3 H4 H5)
    as (m' & channel & sem & Hreg & _ & _ & _ & _ & _ & _ & _ & _
        & Hsem & _ & Hobj & Hhdr & Hobjname & Hhdrname & _).
  repeat (split; [assumption |]). by exists m', sem.
Defined.

Lemma RegisterChannel_attaches_witness :
  let m := state_after [register_writer] in
  let object := attached_object "chan" 64 in
  GetChannel m 8 = None
  ∧ semaphores_ m !! 8%N = None
  ∧ (String.length (unique_name (header object)) ≤ 31)%nat
  ∧ semaphores_created (header object) = kDone
  ∧ sem_names (os m) !! "objchan" = Some 0%nat
  ∧ sem_names (os m) !! "hdrchan" = Some 1%nat
  ∧ ∃ m',
      RegisterChannel 31 m 8 (Some object) true = Returned (OK, m')
      ∧ semaphores_ m' !! 8%N = Some (mkSemaphores 0 1)
      ∧ os m' = os m.
Proof.
  intros m object.
  assert (GetChannel m 8 = None) as H1 by (vm_compute; reflexivity).
  assert (semaphores_ m !! 8%N = None) as H2 by (vm_compute; reflexivity).
  assert (String.length (unique_name (header object)) ≤ 31)%nat as H3
    by (simpl; lia).
  assert (semaphores_created (header object) = kDone) as H4 by reflexivity.
  assert (sem_names (os m) !! "objchan" = Some 0%nat) as H5
    by (vm_compute; reflexivity).
  assert (sem_names (os m) !! "hdrchan" = Some 1%nat) as H6
    by (vm_compute; reflexivity).
  pose proof (RegisterChannel_attaches 31 m 8 object true H1 H2 H3) as H.
  cbv zeta in H. destruct H as [_ H]. destruct (H H4) as [Hopen _].
  repeat (split; [assumption |]).
  eexists. split; [exact (Hopen _ _ H5 H6) |]. split; [| reflexivity].
  simpl. by rewrite lookup_insert_eq.
Defined.

Lemma registered_objects_have_semaphores_witness :
  let calls := [register_writer; register_reader] ++ one_version in
  run 31 calls empty_manager = Returned (state_after calls)
  ∧ is_Some (GetChannel (state_after calls) 7)
  ∧ ∃ sem, GetSemaphores (state_after calls) 7 = Returned sem.
Proof.
  intros calls.
  assert (run 31 calls empty_manager = Returned (state_after calls)) as Hrun
    by (vm_compute; reflexivity).
  assert (is_Some (GetChannel (state_after calls) 7)) as Hc.
  { let c := eval vm_compute in (GetChannel (state_after calls) 7) in
    lazymatch c with Some ?c => exists c end.
    vm_compute; reflexivity. }
  split; [exact Hrun |]. split; [exact Hc |].
  exact (proj2 (registered_objects_have_semaphores 31 calls _ 7 Hrun) Hc).
Defined.

Lemma WriteAcquire_WriteRelease_pair_witness :
  let m := state_after [register_writer; register_reader] in
  let m1 := state_after [register_writer; register_reader;
                         CallWriteAcquire 7 4 None 2 1] in
  let m2 := state_after one_write in
  WriteAcquire m 7 4 None 2 1 = Returned (OK, Some (mkSlice 0 4), m1)
  ∧ WriteAcquire m1 7 8 None 0 2 = CheckFailed
  ∧ WriteRelease m1 7 = Returned (OK, m2)
  ∧ WriteRelease m2 7 = CheckFailed.
Proof.
  intros m m1 m2.
  assert (WriteAcquire m 7 4 None 2 1 = Returned (OK, Some (mkSlice 0 4), m1))
    as Hacq by (vm_compute; reflexivity).
  assert (WriteRelease m1 7 = Returned (OK, m2)) as Hrel
    by (vm_compute; reflexivity).
  destruct (WriteAcquire_WriteRelease_pair m 7 4 None 2 1 _ m1 Hacq)
    as (_ & Hagain & Hpair).
  split; [exact Hacq |]. split; [apply Hagain |]. split; [exact Hrel |].
  exact (proj1 (Hpair m2 Hrel)).
Defined.

Lemma ReadAcquire_excludes_witness :
  let m := state_after one_write in
  let m1 := state_after (one_write ++ [CallReadAcquire 7]) in
  ReadAcquire m 7
  = Returned (OK, Some (mkRayObject (mkSlice 0 4) (mkSlice 4 2)), m1)
  ∧ ReadAcquire m1 7 = Blocks.
Proof.
  intros m m1.
  assert (ReadAcquire m 7
          = Returned (OK, Some (mkRayObject (mkSlice 0 4) (mkSlice 4 2)), m1))
    as Hacq by (vm_compute; reflexivity).
  split; [exact Hacq |]. exact (proj1 (ReadAcquire_excludes m 7 _ m1 Hacq)).
Defined.

Lemma ReadAcquire_views_witness :
  let m := state_after one_write in
  let m1 := state_after (one_write ++ [CallReadAcquire 7]) in
  ∃ object c1,
    ReadAcquire m 7 = Returned (OK, Some object, m1)
    ∧ GetChannel m1 7 = Some c1
    ∧ slice_offset (GetData object) = 0
    ∧ slice_offset (GetMetadata object) = 4
    ∧ slice_offset (GetMetadata object) + slice_size (GetMetadata object)
      ≤ allocated_size (mutable_object c1).
Proof.
  intros m m1.
  assert (ReadAcquire m 7
          = Returned (OK, Some (mkRayObject (mkSlice 0 4) (mkSlice 4 2)), m1))
    as Hacq by (vm_compute; reflexivity).
  destruct (ReadAcquire_views m 7 _ m1 Hacq)
    as (object & c1 & Hres & Hc1 & Hdata & _ & _ & _ & Hend).
  injection Hres as <-. eexists _, c1.
  split; [exact Hacq |]. split; [exact Hc1 |]. split; [exact Hdata |].
  split; [reflexivity |]. apply Hend; by vm_compute.
Defined.

Lemma write_then_read_witness :
  let m := state_after [register_writer; register_reader] in
  let v := [xde; xad; xbe; xef] in
  let md := [x01; x02] in
  ∃ data m1 m2 status m3 result m4,
    WriteAcquire m 7 (Z.of_nat (length v)) (Some md) (Z.of_nat (length md)) 1
    = Returned (OK, Some data, m1)
    ∧ write_slice m1 7 data v (Z.of_nat (length v)) = Returned m2
    ∧ WriteRelease m2 7 = Returned (status, m3)
    ∧ ReadAcquire m3 7 = Returned (OK, Some result, m4)
    ∧ ∃ c,
        GetChannel m4 7 = Some c
        ∧ slice_bytes (buffer (mutable_object c)) (GetData result) = v
        ∧ slice_bytes (buffer (mutable_object c)) (GetMetadata result) = md.
Proof.
  intros m v md.
  let r1 := returned_by (WriteAcquire m 7 4 (Some md) 2 1) in
  lazymatch r1 with
  | (_, Some ?data, ?m1) =>
      let m2 := returned_by (write_slice m1 7 data v 4) in
      let r3 := returned_by (WriteRelease m2 7) in
      lazymatch r3 with
      | (?status, ?m3) =>
          let r4 := returned_by (ReadAcquire m3 7) in
          lazymatch r4 with
          | (_, Some ?result, ?m4) => exists data, m1, m2, status, m3, result, m4
          end
      end
  end.
  match goal with
  | |- ?A ∧ ?B ∧ ?C ∧ ?D ∧ _ =>
      assert A as H1 by (vm_compute; reflexivity);
      assert B as H2 by (vm_compute; reflexivity);
      assert C as H3 by (vm_compute; reflexivity);
      assert D as H4 by (vm_compute; reflexivity)
  end.
  repeat (split; [assumption |]).
  exact (write_then_read _ _ _ _ _ _ _ _ _ _ _ _ H1 H2 H3 H4).
Defined.

Lemma SetErrorAll_closes_witness :
  let m := state_after two_objects in
  maps_agree m
  ∧ header_sems_free m
  ∧ ∃ m',
      SetErrorAll m = Returned (OK, m')
      ∧ ∀ id c', GetChannel m' id = Some c' → closed c'.
Proof.
  intros m.
  assert (maps_agree m) as Hagree by (vm_compute; reflexivity).
  assert (header_sems_free m) as Hfree.
  { intros id sem Hsem. apply elem_of_map_to_list in Hsem. vm_compute in Hsem.
    repeat (apply elem_of_cons in Hsem as [Hsem | Hsem];
            [injection Hsem as -> ->; exists 1;
             split; [vm_compute; reflexivity | lia] |]).
    apply elem_of_nil in Hsem. destruct Hsem. }
  split; [exact Hagree |]. split; [exact Hfree |].
  destruct (SetErrorAll_closes m) as [Hreturns Hclosed].
  destruct (Hreturns Hagree Hfree) as [m' Hm']. exists m'.
  split; [exact Hm' |]. exact (proj2 (proj2 (Hclosed _ _ Hm'))).
Defined.

Lemma call_frame_witness :
  let m := state_after two_objects in
  let m' := state_after (two_objects ++ [CallSetError 7]) in
  call 31 m (CallSetError 7) = Returned (OK, m')
  ∧ call_object (CallSetError 7) = Some 7%N
  ∧ 9%N ≠ 7%N
  ∧ GetChannel m' 9 = GetChannel m 9
  ∧ semaphores_ m' !! 9%N = semaphores_ m !! 9%N.
Proof.
  intros m m'.
  assert (call 31 m (CallSetError 7) = Returned (OK, m')) as Hcall
    by (vm_compute; reflexivity).
  assert (9%N ≠ 7%N) as Hne by discriminate.
  split; [exact Hcall |]. split; [reflexivity |]. split; [exact Hne |].
  exact (call_frame 31 m _ _ m' 7 9 Hcall eq_refl Hne).
Defined.

Lemma next_version_never_decreases_witness :
  let m := state_after [register_writer; register_reader] in
  let m' := state_after ([register_writer; register_reader] ++ one_version) in
  ∃ c,
    run 31 one_version m = Returned m'
    ∧ GetChannel m 7 = Some c
    ∧ ∃ c', GetChannel m' 7 = Some c'
            ∧ next_version_to_read c ≤ next_version_to_read c'.
Proof.
  intros m m'.
  assert (run 31 one_version m = Returned m') as Hrun by (vm_compute; reflexivity).
  let c := eval vm_compute in (GetChannel m 7) in
  lazymatch c with Some ?c => exists c end.
  match goal with
  | |- _ ∧ ?A ∧ _ => assert A as Hc by (vm_compute; reflexivity)
  end.
  split; [exact Hrun |]. split; [exact Hc |].
  exact (proj1 (next_version_never_decreases 31 one_version m m' 7 Hrun) _ Hc).
Defined.

Lemma DestroySemaphores_unlinks_witness :
  let m := state_after [register_writer; register_reader] in
  ∃ m',
    DestroySemaphores 31 m 7 = Returned m'
    ∧ sem_names (os m') !! "hdrchan" = None
    ∧ sem_names (os m') !! "objchan" = None
    ∧ channels_ m' = channels_ m
    ∧ semaphores_ m' = delete 7%N (semaphores_ m)
    ∧ DestroySemaphores 31 m' 7 = CheckFailed
    ∧ SetError m' 7 = CheckFailed.
Proof.
  intros m.
  let m' := returned_by (DestroySemaphores 31 m 7) in exists m'.
  match goal with
  | |- ?A ∧ _ => assert A as H by (vm_compute; reflexivity)
  end.
  destruct (DestroySemaphores_unlinks 31 m 7 _ H)
    as (c & Hc & _ & _ & Hhdr & Hobj & _ & Hchannels & Hsem & Hagain & Hset).
  vm_compute in Hc. injection Hc as <-.
  split; [exact H |]. split; [exact Hhdr |]. split; [exact Hobj |].
  split; [exact Hchannels |]. split; [exact Hsem |]. split; [exact Hagain |].
  exact Hset.
Defined.

Lemma DestroySemaphores_unlinked_check_fails_witness :
  let m := state_after shared_name in
  ∃ m' c,
    DestroySemaphores 31 m 7 = Returned m'
    ∧ GetChannel m' 8 = Some c
    ∧ semaphores_ m' !! 8%N = Some (mkSemaphores 0 1)
    ∧ sem_names (os m') !! ("hdr" +:+ unique_name (header (mutable_object c))) = None
    ∧ DestroySemaphores 31 m' 8 = CheckFailed.
Proof.
  intros m.
  let m' := returned_by (DestroySemaphores 31 m 7) in
  let c := eval vm_compute in (GetChannel m' 8) in
  lazymatch c with Some ?c => exists m', c end.
  match goal with
  | |- ?A ∧ ?B ∧ ?C ∧ ?D ∧ _ =>
      assert A as H1 by (vm_compute; reflexivity);
      assert B as H2 by (vm_compute; reflexivity);
      assert C as H3 by (vm_compute; reflexivity);
      assert D as H4 by (vm_compute; reflexivity)
  end.
  repeat (split; [assumption |]).
  exact (DestroySemaphores_unlinked_check_fails 31 _ 8 _ H2 (or_introl H4)).
Defined.

Lemma destructor_closes_witness :
  let m := state_after two_objects in
  ∃ m',
    destructor 31 m = Returned m'
    ∧ semaphores_ m' = ∅
    ∧ ∀ id c', GetChannel m' id = Some c' →
        is_Some (semaphores_ m !! id) → closed c'.
Proof.
  intros m.
  let m' := returned_by (destructor 31 m) in exists m'.
  match goal with
  | |- ?A ∧ _ => assert A as H by (vm_compute; reflexivity)
  end.
  destruct (destructor_closes 31 m _ H) as (Hempty & _ & Hclosed).
  split; [exact H |]. split; [exact Hempty |]. exact Hclosed.
Defined.

Lemma HandleRegisterMutableObject_once_witness :
  HandleRegisterMutableObject 31 fresh_provider 5 1 9 = Returned registered_provider
  ∧ cross_node_map_ registered_provider = {[5%N := mkLocalInfo 1 9]}
  ∧ HandleRegisterMutableObject 31 registered_provider 5 1 9 = CheckFailed
  ∧ HandleRegisterMutableObject 31 registered_provider 6 2 9 = CheckFailed.
Proof.
  assert (HandleRegisterMutableObject 31 fresh_provider 5 1 9
          = Returned registered_provider) as H by (vm_compute; reflexivity).
  destruct (HandleRegisterMutableObject_once 31 _ _ _ _ _ H)
    as (_ & Hmap & _ & _ & Hagain).
  split; [exact H |]. split; [exact Hmap |].
  split; apply Hagain; [by left | by right].
Defined.

Lemma HandlePushMutableObject_too_large_witness :
  ∃ c,
    cross_node_map_ push_provider !! req_object_id large_request
    = Some (mkLocalInfo 1 9)
    ∧ GetChannel (object_manager_ push_provider) 9 = Some c
    ∧ writer_registered c = true
    ∧ written c = false
    ∧ 0 ≤ req_data_size large_request
    ∧ 0 ≤ req_metadata_size large_request
    ∧ req_data_size large_request + req_metadata_size large_request ≤ INT64_MAX
    ∧ allocated_size (mutable_object c)
      < req_data_size large_request + req_metadata_size large_request
    ∧ HandlePushMutableObject push_provider large_request = CheckFailed.
Proof.
  let c := eval vm_compute in (GetChannel (object_manager_ push_provider) 9) in
  lazymatch c with Some ?c => exists c end.
  match goal with
  | |- ?A ∧ ?B ∧ ?C ∧ ?D ∧ ?E ∧ ?F ∧ ?G ∧ ?I ∧ _ =>
      assert A as H1 by (vm_compute; reflexivity);
      assert B as H2 by (vm_compute; reflexivity);
      assert C as H3 by reflexivity;
      assert D as H4 by reflexivity;
      assert E as H5 by (by vm_compute);
      assert F as H6 by (by vm_compute);
      assert G as H7 by (by vm_compute);
      assert I as H8 by (by vm_compute)
  end.
  repeat (split; [assumption |]).
  exact (HandlePushMutableObject_too_large _ _ _ _ H1 H2 H3 H4 H5 H6 H7 H8).
Defined.

Lemma HandlePushMutableObject_after_SetErrorAll_witness :
  ∃ p' m',
    HandlePushMutableObject push_provider push_request = Returned p'
    ∧ SetErrorAll (object_manager_ push_provider) = Returned (OK, m')
    ∧ HandlePushMutableObject (set_object_manager m' push_provider) push_request
      = CheckFailed.
Proof.
  let p' := returned_by (HandlePushMutableObject push_provider push_request) in
  let r := returned_by (SetErrorAll (object_manager_ push_provider)) in
  lazymatch r with (_, ?m') => exists p', m' end.
  match goal with
  | |- ?A ∧ ?B ∧ _ =>
      assert A as H1 by (vm_compute; reflexivity);
      assert B as H2 by (vm_compute; reflexivity)
  end.
  repeat (split; [assumption |]).
  exact (HandlePushMutableObject_after_SetErrorAll _ _ _ push_request H2).
Defined.

Lemma HandlePushMutableObject_short_data_witness :
  ∃ c,
    cross_node_map_ push_provider !! req_object_id short_request
    = Some (mkLocalInfo 1 9)
    ∧ GetChannel (object_manager_ push_provider) 9 = Some c
    ∧ writer_registered c = true
    ∧ written c = false
    ∧ semaphores_ (object_manager_ push_provider) !! 9%N = Some (mkSemaphores 0 1)
    ∧ sem_available (os (object_manager_ push_provider)) 0
    ∧ sem_available (os (object_manager_ push_provider)) 1
    ∧ has_error (header (mutable_object c)) = false
    ∧ req_data_size short_request + req_metadata_size short_request
      ≤ allocated_size (mutable_object c)
    ∧ Z.of_nat (length (req_data short_request)) + 1
      < req_data_size short_request + req_metadata_size short_request
    ∧ HandlePushMutableObject push_provider short_request = Undefined.
Proof.
  let c := eval vm_compute in (GetChannel (object_manager_ push_provider) 9) in
  lazymatch c with Some ?c => exists c end.
  assert (∀ sem, (sem < 2)%nat →
            sem_available (os (object_manager_ push_provider)) sem) as Havailable.
  { intros sem Hsem. exists 1. split; [| lia].
    destruct sem as [| [| sem]]; [vm_compute; reflexivity .. | lia]. }
  match goal with
  | |- ?A ∧ ?B ∧ ?C ∧ ?D ∧ ?E ∧ ?F ∧ ?G ∧ ?I ∧ ?J ∧ ?K ∧ _ =>
      assert A as H1 by (vm_compute; reflexivity);
      assert B as H2 by (vm_compute; reflexivity);
      assert C as H3 by reflexivity;
      assert D as H4 by reflexivity;
      assert E as H5 by (vm_compute; reflexivity);
      assert F as H6 by (apply Havailable; lia);
      assert G as H7 by (apply Havailable; lia);
      assert I as H8 by reflexivity;
      assert J as H9 by (by vm_compute);
      assert K as H10 by (by vm_compute)
  end.
  repeat (split; [assumption |]).
  apply (HandlePushMutableObject_short_data _ _ _ _ _ H1 H2 H3 H4 H5);
    try assumption; simpl; first [discriminate | by vm_compute].
Defined.

Lemma RegisterWriterChannel_poll_witness :
  ∃ p',
    RegisterWriterChannel 31 one_peer fresh_provider 9 3
    = Returned (p', mkPostedPoll 9 11)
    ∧ (∀ c, GetChannel (object_manager_ fresh_provider) 9 = Some c →
         reader_registered c = false)
    ∧ PollWriterClosure (object_manager_ p') (mkPostedPoll 9 11) = CheckFailed.
Proof.
  let r := returned_by (RegisterWriterChannel 31 one_peer fresh_provider 9 3) in
  lazymatch r with (?p', _) => exists p' end.
  match goal with
  | |- ?A ∧ _ => assert A as H by (vm_compute; reflexivity)
  end.
  assert (∀ c, GetChannel (object_manager_ fresh_provider) 9 = Some c →
            reader_registered c = false) as Hnone
    by (intros c Hc; vm_compute in Hc; discriminate Hc).
  split; [exact H |]. split; [exact Hnone |].
  destruct (RegisterWriterChannel_poll 31 _ _ _ _ _ _ H) as (_ & _ & _ & _ & Hpoll).
  exact (Hpoll Hnone).
Defined.

Lemma PollWriterClosure_error_witness :
  let m := state_after [register_reader; CallSetError 7; register_reader] in
  ∃ c sem,
    GetChannel m (poll_object_id a_poll) = Some c
    ∧ reader_registered c = true
    ∧ lock c = false
    ∧ semaphores_ m !! poll_object_id a_poll = Some sem
    ∧ has_error (header (mutable_object c)) = true
    ∧ PollWriterClosure m a_poll
      = Returned (None, set_channel 7 (set_lock true c) m).
Proof.
  intros m.
  let c := eval vm_compute in (GetChannel m 7) in
  let sem := eval vm_compute in (semaphores_ m !! 7%N) in
  lazymatch c with
  | Some ?c => lazymatch sem with Some ?sem => exists c, sem end
  end.
  match goal with
  | |- ?A ∧ ?B ∧ ?C ∧ ?D ∧ ?E ∧ _ =>
      assert A as H1 by (vm_compute; reflexivity);
      assert B as H2 by reflexivity;
      assert C as H3 by reflexivity;
      assert D as H4 by (vm_compute; reflexivity);
      assert E as H5 by reflexivity
  end.
  repeat (split; [assumption |]).
  exact (PollWriterClosure_error m a_poll _ _ H1 H2 H3 H4 H5).
Defined.

Lemma PollWriterClosure_push_witness :
  let m := state_after one_write in
  let m1 := state_after (one_write ++ [CallReadAcquire 7]) in
  PollWriterClosure m a_poll
  = Returned (Some (mkPushCall 11 7 4 2 (mkSlice 0 4)), m1)
  ∧ PollWriterClosure m1 a_poll = Blocks
  ∧ ∃ m2 c2,
      PollWriterReply m1 a_poll = Returned m2
      ∧ GetChannel m2 7 = Some c2
      ∧ lock c2 = false.
Proof.
  intros m m1.
  assert (PollWriterClosure m a_poll
          = Returned (Some (mkPushCall 11 7 4 2 (mkSlice 0 4)), m1)) as H
    by (vm_compute; reflexivity).
  destruct (PollWriterClosure_push m a_poll _ m1 H)
    as (c1 & _ & _ & _ & _ & _ & _ & Hblocks & Hreply).
  split; [exact H |]. split; [exact Hblocks |].
  destruct (PollWriterReply m1 a_poll) as [m2 | | |] eqn:Hm2;
    try (vm_compute in Hm2; discriminate Hm2).
  destruct (Hreply m2 eq_refl) as (c2 & Hc2 & Hlock & _).
  exists m2, c2. split; [reflexivity |]. split; [exact Hc2 | exact Hlock].
Defined.
